(** * quill: OS shims, flush barrier and backend start-up

    A shallow embedding of

    - [src/utility/Os.cpp]: [get_page_size], [create_memory_mapped_files]
      and [destroy_memory_mapped_files] (the POSIX build, i.e. the [#else]
      branches of the preprocessor conditionals), over an explicit model of
      the system calls the functions make;
    - [src/detail/LogManager.cpp]: [LogManager::flush],
      [LogManager::start_backend_worker], as a step relation over the state
      shared by the calling thread and the backend worker;
    - [test/integration_tests/JsonFileLoggingTest.cpp]: the scenario of the
      test, over a model of the logging pipeline.  *)

From stdpp Require Import gmap strings list pretty.
From Stdlib Require Import ZArith Lia.

Open Scope Z_scope.

(** ** The operating system seen by [Os.cpp] *)

Module Os.

(** *** Constants of [<sys/mman.h>] and [<errno.h>] (Linux values) *)

Definition PROT_NONE : Z := 0.
Definition PROT_READ : Z := 1.
Definition PROT_WRITE : Z := 2.

Definition MAP_SHARED : Z := 1.
Definition MAP_PRIVATE : Z := 2.
Definition MAP_FIXED : Z := 16.
Definition MAP_ANONYMOUS : Z := 32.
Definition MAP_POPULATE : Z := 32768.

(** [(void* ) -1] *)
Definition MAP_FAILED : Z := -1.
Definition nullptr : Z := 0.

Definition ENOENT : Z := 2.
Definition EBADF : Z := 9.
Definition EINVAL : Z := 22.

(** [#define MMAP_FLAGS (MAP_PRIVATE | MAP_ANONYMOUS | MAP_POPULATE)] *)
Definition MMAP_FLAGS : Z :=
  Z.lor (Z.lor MAP_PRIVATE MAP_ANONYMOUS) MAP_POPULATE.

Definition has_flag (flags f : Z) : bool := negb (Z.land flags f =? 0).

(** *** Files, descriptors and the address space *)

(** An open file: its length and its bytes (an absent offset reads 0). *)
Record inode := Inode { i_size : Z; i_data : gmap Z Z }.

(** What a mapping is backed by.  A shared file mapping reads and writes the
    file's pages; a private one reads them until it is written to, and keeps
    its own copy of what it writes (copy-on-write). *)
Inductive backing :=
| Anon
| FileShared (ino : nat) (off : Z)
| FilePrivate (ino : nat) (off : Z).

(** The address space is a stack of layers, the most recent first: [mmap]
    pushes a mapped range, [munmap] pushes a hole.  The first layer that
    covers an address decides what is there. *)
Inductive layer :=
| Mapped (addr len prot : Z) (back : backing) (priv : gmap Z Z)
| Hole (addr len : Z).

Definition layer_covers (l : layer) (a : Z) : bool :=
  match l with
  | Mapped addr len _ _ _ => (addr <=? a) && (a <? addr + len)
  | Hole addr len => (addr <=? a) && (a <? addr + len)
  end.

(** The system calls, as they appear in the trace. *)
Inductive call :=
| Mkstemp (template : string)
| Unlink (path : string)
| Ftruncate (fd len : Z)
| Mmap (addr len prot flags fd off : Z)
| Munmap (addr len : Z)
| Close (fd : Z).

(** What the environment decides for one system call; a script that has
    run out lets every further call succeed. *)
Inductive outcome :=
| Succeeds
| Fails (errno : Z).

Record os_state := OsState {
  os_pagesize : Z;               (* sysconf(_SC_PAGESIZE) *)
  os_dir : gmap string nat;      (* linked names *)
  os_inodes : gmap nat inode;
  os_fds : gmap Z nat;           (* open descriptors *)
  os_vm : list layer;
  os_mmap_hint : Z;              (* where the kernel places the next mapping *)
  os_suffix : string;            (* what mkstemp puts for XXXXXX *)
  os_errno : Z;
  os_script : list outcome;      (* outcomes of the coming calls *)
  os_trace : list (call * Z)     (* calls made, with their results *)
}.

Definition with_dir (f : gmap string nat → gmap string nat) (s : os_state) :=
  OsState (os_pagesize s) (f (os_dir s)) (os_inodes s) (os_fds s) (os_vm s)
    (os_mmap_hint s) (os_suffix s) (os_errno s) (os_script s) (os_trace s).
Definition with_inodes (f : gmap nat inode → gmap nat inode) (s : os_state) :=
  OsState (os_pagesize s) (os_dir s) (f (os_inodes s)) (os_fds s) (os_vm s)
    (os_mmap_hint s) (os_suffix s) (os_errno s) (os_script s) (os_trace s).
Definition with_fds (f : gmap Z nat → gmap Z nat) (s : os_state) :=
  OsState (os_pagesize s) (os_dir s) (os_inodes s) (f (os_fds s)) (os_vm s)
    (os_mmap_hint s) (os_suffix s) (os_errno s) (os_script s) (os_trace s).
Definition with_vm (f : list layer → list layer) (s : os_state) :=
  OsState (os_pagesize s) (os_dir s) (os_inodes s) (os_fds s) (f (os_vm s))
    (os_mmap_hint s) (os_suffix s) (os_errno s) (os_script s) (os_trace s).
Definition with_hint (h : Z) (s : os_state) :=
  OsState (os_pagesize s) (os_dir s) (os_inodes s) (os_fds s) (os_vm s)
    h (os_suffix s) (os_errno s) (os_script s) (os_trace s).
Definition with_errno (e : Z) (s : os_state) :=
  OsState (os_pagesize s) (os_dir s) (os_inodes s) (os_fds s) (os_vm s)
    (os_mmap_hint s) (os_suffix s) e (os_script s) (os_trace s).
Definition with_script (k : list outcome) (s : os_state) :=
  OsState (os_pagesize s) (os_dir s) (os_inodes s) (os_fds s) (os_vm s)
    (os_mmap_hint s) (os_suffix s) (os_errno s) k (os_trace s).
Definition log_call (c : call) (r : Z) (s : os_state) :=
  OsState (os_pagesize s) (os_dir s) (os_inodes s) (os_fds s) (os_vm s)
    (os_mmap_hint s) (os_suffix s) (os_errno s) (os_script s)
    (os_trace s ++ [(c, r)]).

(** *** Exceptions and the monad of the embedding *)

Inductive exn :=
| runtime_error (what : string)
| system_error (errno : Z).

Inductive result (A : Type) :=
| Ret (a : A)
| Throw (e : exn).
Arguments Ret {A} a.
Arguments Throw {A} e.

Definition M (A : Type) : Type := os_state → result A * os_state.

Definition throw {A} (e : exn) : M A := λ s, (Throw e, s).

#[global] Instance M_ret : MRet M := λ A a s, (Ret a, s).
#[global] Instance M_bind : MBind M := λ A B k m s,
  match m s with
  | (Ret a, s') => k a s'
  | (Throw e, s') => (Throw e, s')
  end.

(** [throw std::system_error(errno, std::system_category())] *)
Definition throw_errno {A} : M A := λ s, (Throw (system_error (os_errno s)), s).

(** Takes the environment's decision for the call being made. *)
Definition pop (s : os_state) : os_state := with_script (tail (os_script s)) s.
Definition next_outcome (s : os_state) : outcome * os_state :=
  (hd Succeeds (os_script s), pop s).

(** *** The system calls *)

(** Lowest descriptor that is not open. *)
Definition lowest_free_fd (fds : gmap Z nat) : Z :=
  match List.find (λ n, bool_decide (fds !! n = None))
                  (Z.of_nat <$> seq 0 (S (size fds))) with
  | Some n => n
  | None => Z.of_nat (size fds)
  end.

Definition fresh_inode (inodes : gmap nat inode) : nat :=
  match List.find (λ n, bool_decide (inodes !! n = None))
                  (seq 0 (S (size inodes))) with
  | Some n => n
  | None => size inodes
  end.

(** The template with its last six characters replaced. *)
Definition fill_template (template suffix : string) : string :=
  String.substring 0 (String.length template - 6)%nat template +:+ suffix.

(** [int mkstemp(char* template)]: the descriptor (or -1) and the contents
    of the array afterwards. *)
Definition mkstemp (template : string) : M (Z * string) := λ s,
  let (o, s) := next_outcome s in
  match o with
  | Fails e => (Ret (-1, template), log_call (Mkstemp template) (-1) (with_errno e s))
  | Succeeds =>
      let name := fill_template template (os_suffix s) in
      let ino := fresh_inode (os_inodes s) in
      let fd := lowest_free_fd (os_fds s) in
      (Ret (fd, name),
       log_call (Mkstemp template) fd
         (with_fds (insert fd ino)
            (with_dir (insert name ino)
               (with_inodes (insert ino (Inode 0 ∅)) s))))
  end.

Definition unlink (path : string) : M Z := λ s,
  let (o, s) := next_outcome s in
  match o with
  | Fails e => (Ret (-1), log_call (Unlink path) (-1) (with_errno e s))
  | Succeeds =>
      match os_dir s !! path with
      | None => (Ret (-1), log_call (Unlink path) (-1) (with_errno ENOENT s))
      | Some _ => (Ret 0, log_call (Unlink path) 0 (with_dir (delete path) s))
      end
  end.

Definition ftruncate (fd len : Z) : M Z := λ s,
  let (o, s) := next_outcome s in
  match o with
  | Fails e => (Ret (-1), log_call (Ftruncate fd len) (-1) (with_errno e s))
  | Succeeds =>
      match os_fds s !! fd with
      | None => (Ret (-1), log_call (Ftruncate fd len) (-1) (with_errno EBADF s))
      | Some ino =>
          if len <? 0
          then (Ret (-1), log_call (Ftruncate fd len) (-1) (with_errno EINVAL s))
          else (Ret 0,
                log_call (Ftruncate fd len) 0
                  (with_inodes
                     (alter (λ i, Inode len (filter (λ kv, kv.1 < len) (i_data i))) ino)
                     s))
      end
  end.

(** [void* mmap(void* addr, size_t len, int prot, int flags, int fd, off_t off)] *)
Definition mmap (addr len prot flags fd off : Z) : M Z := λ s,
  let (o, s) := next_outcome s in
  let c := Mmap addr len prot flags fd off in
  let failed e s := (Ret MAP_FAILED, log_call c MAP_FAILED (with_errno e s)) in
  match o with
  | Fails e => failed e s
  | Succeeds =>
      if len <=? 0 then failed EINVAL s else
      let place := if has_flag flags MAP_FIXED then addr else os_mmap_hint s in
      let s := if has_flag flags MAP_FIXED then s else with_hint (place + len) s in
      let done back :=
        (Ret place, log_call c place (with_vm (cons (Mapped place len prot back ∅)) s)) in
      if has_flag flags MAP_ANONYMOUS then done Anon else
      match os_fds s !! fd with
      | None => failed EBADF s
      | Some ino =>
          if has_flag flags MAP_SHARED then done (FileShared ino off)
          else if has_flag flags MAP_PRIVATE then done (FilePrivate ino off)
          else failed EINVAL s
      end
  end.

(** [int munmap(void* addr, size_t len)]: the range is removed from the
    address space, whatever was mapped there. *)
Definition munmap (addr len : Z) : M Z := λ s,
  (Ret 0, log_call (Munmap addr len) 0 (with_vm (cons (Hole addr len)) s)).

(** [int close(int fd)].  As on Linux, the descriptor is released also when
    the call reports an error. *)
Definition close (fd : Z) : M Z := λ s,
  let (o, s) := next_outcome s in
  match os_fds s !! fd with
  | None => (Ret (-1), log_call (Close fd) (-1) (with_errno EBADF s))
  | Some _ =>
      let s := with_fds (delete fd) s in
      match o with
      | Fails e => (Ret (-1), log_call (Close fd) (-1) (with_errno e s))
      | Succeeds => (Ret 0, log_call (Close fd) 0 s)
      end
  end.

(** *** Loads and stores through the address space *)

Definition find_layer (vm : list layer) (a : Z) : option layer :=
  List.find (λ l, layer_covers l a) vm.

Definition file_byte (s : os_state) (ino : nat) (pos : Z) : option Z :=
  match os_inodes s !! ino with
  | Some i => if (0 <=? pos) && (pos <? i_size i)
              then Some (default 0 (i_data i !! pos)) else None
  | None => None
  end.

(** Reads one byte; [None] is a fault (SIGSEGV or SIGBUS). *)
Definition load (s : os_state) (a : Z) : option Z :=
  match find_layer (os_vm s) a with
  | Some (Mapped addr len prot back priv) =>
      if has_flag prot PROT_READ then
        match back with
        | Anon => Some (default 0 (priv !! a))
        | FileShared ino off => file_byte s ino (off + (a - addr))
        | FilePrivate ino off =>
            match priv !! a with
            | Some b => Some b
            | None => file_byte s ino (off + (a - addr))
            end
        end
      else None
  | _ => None
  end.

(** Writes into the first layer covering [a]. *)
Fixpoint store_layers (vm : list layer) (a b : Z) : list layer :=
  match vm with
  | [] => []
  | l :: vm' =>
      if layer_covers l a then
        match l with
        | Mapped addr len prot back priv =>
            Mapped addr len prot back (<[a:=b]> priv) :: vm'
        | Hole _ _ => vm
        end
      else l :: store_layers vm' a b
  end.

(** Writes one byte; [None] is a fault. *)
Definition store (s : os_state) (a b : Z) : option os_state :=
  match find_layer (os_vm s) a with
  | Some (Mapped addr len prot back priv) =>
      if has_flag prot PROT_WRITE then
        match back with
        | FileShared ino off =>
            match file_byte s ino (off + (a - addr)) with
            | Some _ =>
                Some (with_inodes
                        (alter (λ i, Inode (i_size i)
                                       (<[off + (a - addr) := b]> (i_data i))) ino) s)
            | None => None
            end
        | FilePrivate ino off =>
            match file_byte s ino (off + (a - addr)) with
            | Some _ => Some (with_vm (λ vm, store_layers vm a b) s)
            | None => None
            end
        | Anon => Some (with_vm (λ vm, store_layers vm a b) s)
        end
      else None
  | _ => None
  end.

(** *** [Os.cpp] *)

(** Modelled from the spec: [is_pow_of_two] is declared in
    [quill/detail/CommonUtilities.h], which is not among the sources; the
    spec only says "the capacity is a power of two".  [n] is a power of two
    when it is [2^k] for its own binary logarithm [k]. *)
Definition is_pow_of_two (n : Z) : bool :=
  (0 <? n) && (n =? 2 ^ Z.log2 n).

(** [size_t get_page_size() noexcept]: [sysconf(_SC_PAGESIZE)] stored in a
    [uint32_t]. *)
Definition get_page_size : M Z := λ s, (Ret (os_pagesize s mod 2 ^ 32), s).

(** [static_cast<off_t>(capacity)], [off_t] being a signed 64-bit integer *)
Definition to_off_t (n : Z) : Z := if n <? 2 ^ 63 then n else n - 2 ^ 64.

(** [2 * capacity] in [size_t] *)
Definition twice (capacity : Z) : Z := (2 * capacity) mod 2 ^ 64.

(** [std::pair<unsigned char*, void*> create_memory_mapped_files(size_t capacity)] *)
Definition create_memory_mapped_files (capacity : Z) : M (Z * Z) :=
  if negb (is_pow_of_two capacity)
  then throw (runtime_error "capacity needs to be power of two") else
  page_size ← get_page_size;
  if negb (capacity mod page_size =? 0)
  then throw (runtime_error "capacity needs to be multiple of page size") else
  let shm_path := "/dev/shm/quill-XXXXXX"%string in
  let tmp_path := "/tmp/quill-XXXXXX"%string in
  (* Try to open an fd by creating a unique file in one of the above locations *)
  '(fd, shm_path) ← mkstemp shm_path;
  '(fd, chosen_path) ←
     (if fd <? 0 then
        (* if we failed try the tmp path *)
        ('(fd, tmp_path) ← mkstemp tmp_path;
         if fd <? 0 then throw_errno else mret (fd, tmp_path))
      else mret (fd, shm_path));
  (* Delete the file as we only want the fd *)
  r ← unlink chosen_path;
  if r =? -1 then throw_errno else
  r ← ftruncate fd (to_off_t capacity);
  if r =? -1 then (close fd;; throw_errno) else
  (* ask mmap for a good address where we can put both virtual copies of the buffer *)
  address ← mmap nullptr (twice capacity) PROT_NONE MMAP_FLAGS (-1) 0;
  if address =? MAP_FAILED then (close fd;; throw_errno) else
  (* map first region *)
  other_address ← mmap address capacity (Z.lor PROT_READ PROT_WRITE)
                    (Z.lor MAP_FIXED MAP_PRIVATE) fd 0;
  if negb (other_address =? address)
  then (munmap address (twice capacity);; close fd;; throw_errno) else
  (* map second region *)
  other_address ← mmap (address + capacity) capacity (Z.lor PROT_READ PROT_WRITE)
                    (Z.lor MAP_FIXED MAP_PRIVATE) fd 0;
  if negb (other_address =? address + capacity)
  then (munmap address (twice capacity);; close fd;; throw_errno) else
  (* we don't need the fd any longer *)
  r ← close fd;
  if r =? -1 then (munmap address (twice capacity);; throw_errno) else
  (* All okay *)
  mret (address, nullptr).

(** [void destroy_memory_mapped_files(std::pair<unsigned char*, void*> pointer_pair,
    size_t capacity)] *)
Definition destroy_memory_mapped_files (pointer_pair : Z * Z) (capacity : Z) : M unit :=
  if pointer_pair.1 =? nullptr then mret tt else
  munmap pointer_pair.1 (twice capacity);; mret tt.

(** A process that has the three standard descriptors open and nothing
    mapped, on a machine with 4 KiB pages. *)
Definition boot (script : list outcome) : os_state :=
  OsState 4096 ∅ ∅ (<[0:=0%nat]> (<[1:=0%nat]> (<[2:=0%nat]> ∅)))
    [] 139637976727552 "a1B2c3" 0 script [].

(** *** Vocabulary of the statements *)

Definition power_of_two (n : Z) : Prop := ∃ k, 0 ≤ k ∧ n = 2 ^ k.

(** A computation that can only fail with [std::system_error]. *)
Definition only_system_errors {A} (m : M A) : Prop :=
  ∀ s what, (m s).1 ≠ Throw (runtime_error what).

(** Every system call returns to its caller; failure is a return value. *)
Definition returns {A} (m : M A) : Prop := ∀ s, ∃ a, (m s).1 = Ret a.

(** The state a successful [mkstemp] leaves. *)
Definition created (template : string) (s : os_state) : os_state :=
  let name := fill_template template (os_suffix s) in
  let ino := fresh_inode (os_inodes s) in
  let fd := lowest_free_fd (os_fds s) in
  log_call (Mkstemp template) fd
    (with_fds (insert fd ino)
       (with_dir (insert name ino)
          (with_inodes (insert ino (Inode 0 ∅)) (pop s)))).

(** *** The state a successful construction leaves *)

Definition rw : Z := Z.lor PROT_READ PROT_WRITE.
Definition fixed_private : Z := Z.lor MAP_FIXED MAP_PRIVATE.

Definition constructed (template : string) (capacity : Z) (s : os_state) : os_state :=
  let fd := lowest_free_fd (os_fds s) in
  let ino := fresh_inode (os_inodes s) in
  let name := fill_template template (os_suffix s) in
  let base := os_mmap_hint s in
  OsState (os_pagesize s)
    (delete name (<[name:=ino]> (os_dir s)))
    (alter (λ i, Inode (to_off_t capacity)
                   (filter (λ kv, kv.1 < to_off_t capacity) (i_data i))) ino
       (<[ino:=Inode 0 ∅]> (os_inodes s)))
    (delete fd (<[fd:=ino]> (os_fds s)))
    (Mapped (base + capacity) capacity rw (FilePrivate ino 0) ∅
       :: Mapped base capacity rw (FilePrivate ino 0) ∅
       :: Mapped base (twice capacity) PROT_NONE Anon ∅ :: os_vm s)
    (base + twice capacity) (os_suffix s) (os_errno s)
    (tail (tail (tail (tail (tail (tail (tail (os_script s))))))))
    (os_trace s ++
       [(Mkstemp template, fd); (Unlink name, 0);
        (Ftruncate fd (to_off_t capacity), 0);
        (Mmap nullptr (twice capacity) PROT_NONE MMAP_FLAGS (-1) 0, base);
        (Mmap base capacity rw fixed_private fd 0, base);
        (Mmap (base + capacity) capacity rw fixed_private fd 0, base + capacity);
        (Close fd, 0)]).

(** An address is mapped when the first layer that covers it is a mapping. *)
Definition mapped (s : os_state) (a : Z) : bool :=
  match find_layer (os_vm s) a with
  | Some (Mapped _ _ _ _ _) => true
  | _ => false
  end.

Definition shm_template : string := "/dev/shm/quill-XXXXXX".
Definition tmp_template : string := "/tmp/quill-XXXXXX".

(** The address the kernel gives [boot] for its first mapping. *)
Definition boot_base : Z := 139637976727552.

(** The double mapping alone, with the sharing flag left open: a file is
    mapped at both halves of a reserved range, [MAP_FIXED | flags]. *)
Definition map_twice (flags capacity : Z) : M Z :=
  '(fd, _) ← mkstemp shm_template;
  ftruncate fd capacity;;
  address ← mmap nullptr (twice capacity) PROT_NONE MMAP_FLAGS (-1) 0;
  mmap address capacity rw (Z.lor MAP_FIXED flags) fd 0;;
  mmap (address + capacity) capacity rw (Z.lor MAP_FIXED flags) fd 0;;
  mret address.

(** *** The calls a computation adds to the trace *)

Definition is_mkstemp (c : call) : bool :=
  match c with Mkstemp _ => true | _ => false end.

(** [m] only adds calls to the trace, none of them a [mkstemp]. *)
Definition appends {A} (m : M A) : Prop :=
  ∀ s, ∃ calls, os_trace (m s).2 = os_trace s ++ calls ∧
                Forall (λ c, is_mkstemp c.1 = false) calls.

(** The temporary file is asked for under /dev/shm first, under /tmp only
    when that failed, and unlinked by the very next call. *)
Definition creation_order (s : os_state) (calls : list (call * Z)) : Prop :=
  calls = [] ∨ calls = [(Mkstemp shm_template, -1); (Mkstemp tmp_template, -1)] ∨
  ∃ attempt template fd res rest,
    (attempt = [] ∧ template = shm_template
     ∨ attempt = [(Mkstemp shm_template, -1)] ∧ template = tmp_template) ∧
    0 ≤ fd ∧
    calls = attempt ++ (Mkstemp template, fd)
              :: (Unlink (fill_template template (os_suffix s)), res) :: rest ∧
    Forall (λ c, is_mkstemp c.1 = false) rest.

Definition EACCES : Z := 13.
Definition ENOMEM : Z := 12.
Definition EINTR : Z := 4.

(** The calls of a construction that succeeds, from the [mkstemp] that
    made the file on. *)
Definition construction_calls (template : string) (fd : Z) (name : string)
    (capacity base : Z) : list (call * Z) :=
  [(Mkstemp template, fd); (Unlink name, 0); (Ftruncate fd capacity, 0);
   (Mmap nullptr (2 * capacity) PROT_NONE MMAP_FLAGS (-1) 0, base);
   (Mmap base capacity rw fixed_private fd 0, base);
   (Mmap (base + capacity) capacity rw fixed_private fd 0, base + capacity);
   (Close fd, 0)].

(** "Only the file descriptor persists", read on a successful
    construction: a descriptor that was not open before is open after it. *)
Definition descriptor_persists (capacity : Z) (s : os_state) : Prop :=
  ∀ base p s', create_memory_mapped_files capacity s = (Ret (base, p), s') →
    ∃ fd, os_fds s !! fd = None ∧ is_Some (os_fds s' !! fd).

(** *** The error branches *)

(** A run released what it had taken: the descriptors open are those open
    before, and no address is mapped. *)
Definition released (s s' : os_state) : Prop :=
  os_fds s' = os_fds s ∧ ∀ a, mapped s' a = false.

(** *** Vocabulary of the further statements *)

(** The layer lies inside the range of [len] bytes from [addr]. *)
Definition within (addr len : Z) (l : layer) : Prop :=
  match l with
  | Mapped a n _ _ _ | Hole a n => addr ≤ a ∧ a + n ≤ addr + len
  end.

(** [vm] is [vm0] with layers inside the range put on top. *)
Definition stacked (addr len : Z) (vm vm0 : list layer) : Prop :=
  ∃ layers, vm = layers ++ vm0 ∧ Forall (within addr len) layers.

Definition EIO : Z := 5.

(** A process for which [sysconf(_SC_PAGESIZE)] fails. *)
Definition boot_without_page_size : os_state :=
  OsState (-1) ∅ ∅ (<[0:=0%nat]> (<[1:=0%nat]> (<[2:=0%nat]> ∅)))
    [] 139637976727552 "a1B2c3" 0 [] [].

End Os.

(** ** [LogManager.cpp]: the flush barrier and the start of the backend *)

Module LogManager.

Close Scope Z_scope.

(** The thread that called [flush], and the backend worker thread. *)
Inductive thread := Caller | Backend.

(** What lies on a ring.  A command record carries the callback of the
    [flush] that made it; the callbacks are told apart by the thread whose
    [flush] it was. *)
Inductive record :=
| LogRecord (payload : nat)
| CommandRecord (owner : nat).

#[global] Instance record_eq_dec : EqDecision record.
Proof. solve_decision. Defined.

Inductive queue_full_policy := Block | Drop.

(** Where the caller is in [LogManager::flush]. *)
Inductive flush_pc :=
| Entry      (* if (!_backend_worker.is_running()) *)
| Lock       (* std::unique_lock<std::mutex> lock(mtx) *)
| Push       (* pushed = ...try_emplace<log_record_t>(notify_callback) *)
| Wait       (* cond.wait(lock, [&] { return done; }): the test, lock held *)
| Asleep     (* cond.wait: lock released, blocked on cond *)
| Awake      (* cond.wait: unblocked, taking the lock again *)
| Returned.

(** Where the backend is in [notify_callback]. *)
Inductive backend_pc :=
| Poll       (* between two records *)
| Invoke     (* std::lock_guard<std::mutex> const lock{mtx} *)
| Locked     (* done = true *)
| Unlock     (* end of the block: the guard releases mtx *)
| Notify.    (* cond.notify_one() *)

Inductive event :=
| Pushed (tid : nat)                    (* try_emplace returned true *)
| Slept                                 (* the caller blocked on cond *)
| Reached (owner : nat)                 (* the backend flushed the sinks and is
                                           about to invoke the callback of owner *)
| DoneSet (holder : option thread)      (* done = true, and who held mtx *)
| Notified
| Return.

Record state := State {
  is_running : bool;                    (* _backend_worker.is_running() *)
  worker_threads : nat;                 (* backend worker threads alive *)
  policy : queue_full_policy;           (* _config *)
  self : nat;                           (* the calling thread *)
  queues : gmap nat (list record);      (* one ring per thread, front first *)
  capacity : nat;                       (* records a ring holds *)
  mtx : option thread;                  (* owner of mtx *)
  done : bool;
  caller : flush_pc;
  backend : backend_pc;
  sink : list nat;                      (* payloads written by the backend *)
  events : list event
}.

Definition with_queues (q : gmap nat (list record)) (s : state) : state :=
  State (is_running s) (worker_threads s) (policy s) (self s) q (capacity s)
    (mtx s) (done s) (caller s) (backend s) (sink s) (events s).
Definition with_mtx (m : option thread) (s : state) : state :=
  State (is_running s) (worker_threads s) (policy s) (self s) (queues s) (capacity s)
    m (done s) (caller s) (backend s) (sink s) (events s).
Definition with_done (d : bool) (s : state) : state :=
  State (is_running s) (worker_threads s) (policy s) (self s) (queues s) (capacity s)
    (mtx s) d (caller s) (backend s) (sink s) (events s).
Definition with_caller (c : flush_pc) (s : state) : state :=
  State (is_running s) (worker_threads s) (policy s) (self s) (queues s) (capacity s)
    (mtx s) (done s) c (backend s) (sink s) (events s).
Definition with_backend (b : backend_pc) (s : state) : state :=
  State (is_running s) (worker_threads s) (policy s) (self s) (queues s) (capacity s)
    (mtx s) (done s) (caller s) b (sink s) (events s).
Definition with_sink (k : list nat) (s : state) : state :=
  State (is_running s) (worker_threads s) (policy s) (self s) (queues s) (capacity s)
    (mtx s) (done s) (caller s) (backend s) k (events s).
Definition with_policy (p : queue_full_policy) (s : state) : state :=
  State (is_running s) (worker_threads s) p (self s) (queues s) (capacity s)
    (mtx s) (done s) (caller s) (backend s) (sink s) (events s).
Definition emit (e : event) (s : state) : state :=
  State (is_running s) (worker_threads s) (policy s) (self s) (queues s) (capacity s)
    (mtx s) (done s) (caller s) (backend s) (sink s) (events s ++ [e]).

(** The ring of a thread ([_thread_context_collection.local_thread_context()
    ->spsc_queue()] for the calling thread). *)
Definition spsc_queue (s : state) (tid : nat) : list record :=
  default [] (queues s !! tid).

(** Modelled from the spec: [try_emplace] is a member of the ring
    ([BoundedSPSCQueue.h]), which is not among the sources.  The spec: the
    ring is bounded; a write succeeds when there is room for it and
    otherwise reports [Full], leaving the ring as it was. *)
Definition try_emplace (r : record) (cap : nat) (q : list record)
    : option (list record) :=
  if decide (length q < cap) then Some (q ++ [r]) else None.

(** One step of the thread that runs [LogManager::flush]; [None] when the
    thread cannot move (it is blocked, or has returned). *)
Definition flush_step (s : state) : option state :=
  match caller s with
  | Entry =>
      if negb (is_running s)
      then (* Backend worker needs to be running, otherwise we are stuck
              for ever waiting *)
        Some (emit Return (with_caller Returned s))
      else (* std::mutex mtx; std::condition_variable cond; bool done = false; *)
        Some (with_caller Lock (with_done false (with_mtx None s)))
  | Lock =>
      match mtx s with
      | None => Some (with_caller Push (with_mtx (Some Caller) s))
      | Some _ => None
      end
  | Push =>
      match try_emplace (CommandRecord (self s)) (capacity s)
              (spsc_queue s (self s)) with
      | Some q =>
          (* pushed: leave the loop *)
          Some (emit (Pushed (self s))
                  (with_caller Wait (with_queues (<[self s := q]> (queues s)) s)))
      | None =>
          (* unlikely case if the queue gets full we will wait until we can log *)
          Some s
      end
  | Wait =>
      if done s
      then Some (emit Return (with_caller Returned (with_mtx None s)))
      else Some (emit Slept (with_caller Asleep (with_mtx None s)))
  | Asleep => None
  | Awake =>
      match mtx s with
      | None => Some (with_caller Wait (with_mtx (Some Caller) s))
      | Some _ => None
      end
  | Returned => None
  end.

(** Modelled from the spec: the backend worker ([BackendWorker.h]) is not
    among the sources.  The spec: records of one ring are processed in the
    order they were written; for a flush-acknowledge command record the
    backend flushes the sinks and then invokes the record's callback.  The
    backend takes the record at the front of the ring of [tid]. *)
Definition backend_pop (tid : nat) (s : state) : option state :=
  if is_running s then
    match backend s, queues s !! tid with
    | Poll, Some (r :: q) =>
        let s := with_queues (<[tid := q]> (queues s)) s in
        match r with
        | LogRecord n => Some (with_sink (sink s ++ [n]) s)
        | CommandRecord owner =>
            if decide (owner = self s)
            then Some (with_backend Invoke (emit (Reached owner) s))
            else Some (emit (Reached owner) s)
        end
    | _, _ => None
    end
  else None.

(** One step of the backend inside [notify_callback], the lambda of
    [flush]:
    [{ std::lock_guard<std::mutex> const lock{mtx}; done = true; }
     cond.notify_one();] *)
Definition callback_step (s : state) : option state :=
  match backend s with
  | Poll => None
  | Invoke =>
      match mtx s with
      | None => Some (with_backend Locked (with_mtx (Some Backend) s))
      | Some _ => None
      end
  | Locked => Some (emit (DoneSet (mtx s)) (with_backend Unlock (with_done true s)))
  | Unlock => Some (with_backend Notify (with_mtx None s))
  | Notify =>
      Some (emit Notified
              (with_backend Poll
                 (with_caller (match caller s with Asleep => Awake | c => c end) s)))
  end.

(** A wake-up of the waiting thread that nobody asked for. *)
Definition spurious (s : state) : option state :=
  match caller s with
  | Asleep => Some (with_caller Awake s)
  | _ => None
  end.

(** Another thread writes onto its own ring: a log record, or the command
    record of a [flush] of its own. *)
Definition produce (tid : nat) (r : record) (s : state) : option state :=
  if decide (tid = self s) then None else
  match r with
  | CommandRecord owner => if decide (owner = tid) then Some tt else None
  | LogRecord _ => Some tt
  end ≫= λ _,
  q ← try_emplace r (capacity s) (spsc_queue s tid);
  Some (with_queues (<[tid := q]> (queues s)) s).

Inductive action :=
| CallerStep
| BackendPop (tid : nat)
| CallbackStep
| Spurious
| Produce (tid : nat) (r : record).

Definition step (a : action) (s : state) : option state :=
  match a with
  | CallerStep => flush_step s
  | BackendPop tid => backend_pop tid s
  | CallbackStep => callback_step s
  | Spurious => spurious s
  | Produce tid r => produce tid r s
  end.

(** A schedule is run action by action; an action that cannot be taken
    where it stands is passed over. *)
Fixpoint run (sched : list action) (s : state) : state :=
  match sched with
  | [] => s
  | a :: sched => run sched (default s (step a s))
  end.

(** [flush] is about to be called: its callback exists nowhere yet. *)
Definition at_entry (s : state) : Prop :=
  caller s = Entry ∧ backend s = Poll ∧ events s = [] ∧
  ∀ tid q, queues s !! tid = Some q → CommandRecord (self s) ∉ q.

(** Modelled from the spec: [BackendWorker::run] ([BackendWorker.h]) is not
    among the sources.  The spec: "[backend_start(config)] — idempotent;
    starts the worker thread": a worker that is running is left alone,
    otherwise the worker thread is started. *)
Definition BackendWorker_run (s : state) : state :=
  if is_running s then s
  else State true (S (worker_threads s)) (policy s) (self s) (queues s)
         (capacity s) (mtx s) (done s) (caller s) (backend s) (sink s) (events s).

(** [void LogManager::start_backend_worker() { _backend_worker.run(); }] *)
Definition start_backend_worker (s : state) : state := BackendWorker_run s.

(** A process in which thread 7 has logged three events and now calls
    [flush]; the rings hold four records. *)
Definition example (running : bool) (p : queue_full_policy) : state :=
  State running (if running then 1 else 0) p 7
    {[ 7 := [LogRecord 1; LogRecord 2; LogRecord 3] ]} 4
    None false Entry Poll [] [].

(** *** Invariants of the barrier *)

Definition early (c : flush_pc) : bool :=
  match c with Entry | Lock | Push => true | _ => false end.

Definition holds_lock (c : flush_pc) : bool :=
  match c with Push | Wait => true | _ => false end.

(** The command record of this [flush] lies on some ring. *)
Definition has_command (me : nat) (qs : gmap nat (list record)) : Prop :=
  ∃ tid q, qs !! tid = Some q ∧ CommandRecord me ∈ q.
Definition pending (s : state) : Prop := has_command (self s) (queues s).

#[global] Instance thread_eq_dec : EqDecision thread.
Proof. solve_decision. Defined.
#[global] Instance event_eq_dec : EqDecision event.
Proof. solve_decision. Defined.

(** How often the caller has pushed its command record. *)
Definition pushes (s : state) : nat :=
  length (filter (λ e, e = Pushed (self s)) (events s)).

Record inv (s : state) : Prop := Inv {
  inv_running : is_running s = true;
  inv_early : early (caller s) = true →
              backend s = Poll ∧ ¬ pending s ∧ pushes s = 0;
  inv_late : early (caller s) = false → pushes s = 1;
  inv_caller_lock : holds_lock (caller s) = true → mtx s = Some Caller;
  inv_backend_lock : backend s = Locked ∨ backend s = Unlock → mtx s = Some Backend;
  inv_callback : backend s ≠ Poll →
                 [Pushed (self s); Reached (self s)] `sublist_of` events s;
  inv_pending : pending s → Pushed (self s) ∈ events s;
  inv_done : caller s ≠ Entry → done s = true →
             [Pushed (self s); Reached (self s); DoneSet (Some Backend)]
               `sublist_of` events s;
  inv_returned : caller s = Returned →
                 [Pushed (self s); Reached (self s); DoneSet (Some Backend); Return]
                   `sublist_of` events s;
  inv_pushed : early (caller s) = false → Pushed (self s) ∈ events s;
  inv_asleep : early (caller s) = false → holds_lock (caller s) = false →
               [Pushed (self s); Slept] `sublist_of` events s;
  inv_in_callback : backend s = Locked ∨ backend s = Unlock ∨ backend s = Notify →
                    [Pushed (self s); Slept] `sublist_of` events s;
  inv_done_slept : caller s ≠ Entry → done s = true →
                   [Pushed (self s); Slept; DoneSet (Some Backend)]
                     `sublist_of` events s;
  inv_returned_slept : caller s = Returned →
                       [Pushed (self s); Slept; DoneSet (Some Backend); Return]
                         `sublist_of` events s;
  inv_own : ∀ tid, Pushed tid ∈ events s → tid = self s;
  inv_kept : early (caller s) = false →
             pending s ∨ Reached (self s) ∈ events s
}.

(** *** The barrier *)

(** A schedule that takes [flush] through: the backend writes the three
    events logged before, reaches the command record, runs the callback;
    the caller, which went to sleep, is notified and returns. *)
Definition through : list action :=
  [CallerStep; CallerStep; BackendPop 7; CallerStep; CallerStep;
   BackendPop 7; BackendPop 7; BackendPop 7;
   CallbackStep; CallbackStep; CallbackStep; CallbackStep;
   CallerStep; CallerStep].

(** *** Without a backend *)

(** What holds of every state that follows a call made without a
    backend. *)
Definition idle (s t : state) : Prop :=
  (caller t = Entry ∨ caller t = Returned) ∧ is_running t = false ∧
  backend t = Poll ∧ self t = self s ∧
  queues t !! self s = queues s !! self s ∧ sink t = sink s ∧
  ∀ e, e ∈ events t → e ∈ events s ∨ e = Return.

(** A ring that is full when [flush] comes to push: thread 7 has logged
    four events, and the rings hold four records. *)
Definition crowded (p : queue_full_policy) : state :=
  State true 1 p 7 {[ 7 := [LogRecord 1; LogRecord 2; LogRecord 3; LogRecord 4] ]} 4
    None false Entry Poll [] [].

(** *** Starting the backend *)

(** The worker thread count agrees with the flag of the worker. *)
Definition workers_ok (s : state) : Prop :=
  worker_threads s = if is_running s then 1 else 0.

(** *** The caller and the backend around [done] *)

(** The backend is inside the block of the callback that holds [mtx]. *)
Definition in_block (b : backend_pc) : bool :=
  match b with Locked | Unlock => true | _ => false end.

(** What holds between the caller and the backend besides [inv], from a
    call of [flush] on. *)
Record live (s : state) : Prop := Live {
  live_lock : caller s = Lock → mtx s = None;
  live_fresh : caller s = Lock ∨ caller s = Push → done s = false;
  live_free : caller s = Asleep ∨ caller s = Awake →
              in_block (backend s) = false → mtx s = None;
  live_own : early (caller s) = false → backend s = Poll → done s = false →
             CommandRecord (self s) ∈ spsc_queue s (self s);
  live_others : ∀ tid q, tid ≠ self s → queues s !! tid = Some q →
                CommandRecord (self s) ∉ q;
  live_notify : backend s = Unlock ∨ backend s = Notify → done s = true;
  live_wakeup : caller s = Asleep → done s = true →
                backend s = Unlock ∨ backend s = Notify;
  live_returned : caller s = Returned → done s = true
}.

(** *** What the backend has written when [flush] returns *)

(** What the backend writes to the sinks for a record. *)
Definition payload (r : record) : option nat :=
  match r with
  | LogRecord n => Some n
  | CommandRecord _ => None
  end.

(** The command record of this [flush] is on the ring of the caller. *)
Definition on_ring (s : state) : bool :=
  negb (early (caller s))
  && match backend s with Poll => true | _ => false end
  && negb (done s).

(** The ring of the caller, against what it held when [flush] was called
    ([me], [init], [sink0]): the backend has taken [k] of those records
    and written them out in their order. *)
Definition fifo (me : nat) (init : list record) (sink0 : list nat) (s : state) : Prop :=
  ∃ k extra,
    sink s = sink0 ++ extra ∧
    omap payload (take k init) `sublist_of` extra ∧
    spsc_queue s me
    = drop k init ++ (if on_ring s then [CommandRecord me] else []) ∧
    (early (caller s) = false → on_ring s = false → length init ≤ k).

(** A history that has the caller asleep and the backend between the end
    of the block and [cond.notify_one()]. *)
Definition before_notify : list action :=
  [CallerStep; CallerStep; BackendPop 7; CallerStep; CallerStep;
   BackendPop 7; BackendPop 7; BackendPop 7;
   CallbackStep; CallbackStep; CallbackStep].

(** *** The return and the signal *)




End LogManager.

(** ** [JsonFileLoggingTest.cpp]: six threads, two sinks *)

Module JsonFileLoggingTest.

Close Scope Z_scope.
Open Scope string_scope.

(** [static constexpr] of the test case *)
Definition number_of_messages : nat := 500.
Definition number_of_threads : nat := 6.
Definition logger_name_prefix : string := "logger_".

(** [std::to_string] of a [size_t] *)
Definition to_string (n : nat) : string := pretty n.


(** [operator<<(std::ostream&, UserDefinedType const&)] *)
Definition UserDefinedType_print (i : option nat) (s : option string) : string :=
  match i, s with
  | Some i, Some s => "i: " +:+ to_string i +:+ ", s: " +:+ s
  | _, _ => ""
  end.

(** [fmtquill::format("{}", UserDefinedType{j, std::to_string(j)})] *)
Definition custom (j : nat) : string :=
  UserDefinedType_print (Some j) (Some (to_string j)).



(** [expected_string] of the test *)
Definition expected_string (i j : nat) : string :=
  logger_name_prefix +:+ to_string i +:+ "     Hello from thread " +:+ to_string i
  +:+ " this is message " +:+ to_string j.

(** Modelled from the spec: [quill::testing::file_contains]
    ([misc/TestUtilities.h]) is not among the sources; "both contain the
    expected rendering": some line of the file has the string in it. *)
Definition file_contains (file : list string) (search : string) : Prop :=
  ∃ line before after, line ∈ file ∧ line = before +:+ search +:+ after.

(** An event on a ring: the [LOG_INFO] number [message_num] of thread
    [thread_index], made through the logger of that thread. *)
Record log_event := LogEvent { thread_index : nat; message_num : nat }.

Section Rendering.

(** What the sinks put around the part of a line that the test looks for
    (time stamp, thread id, source location): the test does not fix it. *)
Variable json_head text_head : log_event → string.


Definition text_line (e : log_event) : string :=
  text_head e +:+ expected_string (thread_index e) (message_num e)
  +:+ " [" +:+ custom (message_num e) +:+ "]".

End Rendering.

Close Scope string_scope.

Inductive sink_id := JsonFileSink | FileSink.

(** The sinks the test gives every logger:
    [{std::move(json_file_sink), std::move(file_sink)}] *)
Definition logger_sinks : list sink_id := [JsonFileSink; FileSink].

Inductive queue_full_policy := Block | Drop.

(** Where a logging thread is in its lambda. *)
Inductive thread_pc :=
| Unborn                 (* not constructed yet *)
| Setup                  (* create_or_get_sink twice, create_or_get_logger *)
| Logging (j : nat)      (* at the test [j < number_of_messages] of the loop *)
| Finished.

(** Where the main thread is in the test case. *)
Inductive main_pc :=
| Start                  (* Backend::start() *)
| Spawn (i : nat)        (* threads.emplace_back(...) *)
| Join (i : nat)         (* elem.join() *)
| Flush (k : nat)        (* logger->flush_log(): the command is posted *)
| FlushWait (k : nat)    (* logger->flush_log(): waiting; then remove_logger *)
| Stop                   (* Backend::stop(): shutdown is signalled *)
| StopJoin               (* Backend::stop(): joining the worker *)
| Check.                 (* the files are read and checked *)

Inductive backend_state := NotStarted | Running | Stopping | Exited.

Record state := State {
  policy : queue_full_policy;
  capacity : nat;                       (* events a ring holds *)
  main : main_pc;
  threads : list thread_pc;
  rings : list (list log_event);        (* the ring of each thread *)
  main_ring : list nat;                 (* flush commands of the main thread *)
  backend : backend_state;
  json_sink : list log_event;           (* events written through each sink *)
  file_sink : list log_event;
  dropped : nat
}.

Definition with_main (m : main_pc) (s : state) : state :=
  State (policy s) (capacity s) m (threads s) (rings s) (main_ring s)
    (backend s) (json_sink s) (file_sink s) (dropped s).
Definition with_threads (t : list thread_pc) (s : state) : state :=
  State (policy s) (capacity s) (main s) t (rings s) (main_ring s)
    (backend s) (json_sink s) (file_sink s) (dropped s).
Definition with_rings (r : list (list log_event)) (s : state) : state :=
  State (policy s) (capacity s) (main s) (threads s) r (main_ring s)
    (backend s) (json_sink s) (file_sink s) (dropped s).
Definition with_main_ring (r : list nat) (s : state) : state :=
  State (policy s) (capacity s) (main s) (threads s) (rings s) r
    (backend s) (json_sink s) (file_sink s) (dropped s).
Definition with_backend (b : backend_state) (s : state) : state :=
  State (policy s) (capacity s) (main s) (threads s) (rings s) (main_ring s)
    b (json_sink s) (file_sink s) (dropped s).
Definition with_dropped (d : nat) (s : state) : state :=
  State (policy s) (capacity s) (main s) (threads s) (rings s) (main_ring s)
    (backend s) (json_sink s) (file_sink s) d.

(** Modelled from the spec: the sinks are not among the sources.  A sink
    takes the formatted line of every event written through it. *)
Definition write (e : log_event) (k : sink_id) (s : state) : state :=
  match k with
  | JsonFileSink =>
      State (policy s) (capacity s) (main s) (threads s) (rings s) (main_ring s)
        (backend s) (json_sink s ++ [e]) (file_sink s) (dropped s)
  | FileSink =>
      State (policy s) (capacity s) (main s) (threads s) (rings s) (main_ring s)
        (backend s) (json_sink s) (file_sink s ++ [e]) (dropped s)
  end.

(** One step of logging thread [i]:
    [for (size_t j = 0; j < number_of_messages; ++j) LOG_INFO(logger, ...)].
    Modelled from the spec: [LOG_INFO] and the ring are not among the
    sources; the event goes onto the ring of the thread if there is room;
    if not, the thread retries under the block policy, and discards the
    event, counting it, under the drop policy. *)
Definition thread_step (i : nat) (s : state) : option state :=
  match threads s !! i with
  | Some Setup => Some (with_threads (<[i := Logging 0]> (threads s)) s)
  | Some (Logging j) =>
      if decide (j < number_of_messages) then
        let q := default [] (rings s !! i) in
        if decide (length q < capacity s) then
          Some (with_rings (<[i := q ++ [LogEvent i j]]> (rings s))
                  (with_threads (<[i := Logging (S j)]> (threads s)) s))
        else
          match policy s with
          | Block => None
          | Drop => Some (with_dropped (S (dropped s))
                            (with_threads (<[i := Logging (S j)]> (threads s)) s))
          end
      else Some (with_threads (<[i := Finished]> (threads s)) s)
  | _ => None
  end.

(** One step of the main thread, the body of [TEST_CASE("json_file_logging")]. *)
Definition main_step (s : state) : option state :=
  match main s with
  | Start =>
      Some (with_main (Spawn 0)
              (with_backend (match backend s with NotStarted => Running | b => b end) s))
  | Spawn i =>
      if decide (i < number_of_threads)
      then Some (with_main (Spawn (S i)) (with_threads (<[i := Setup]> (threads s)) s))
      else Some (with_main (Join 0) s)
  | Join i =>
      if decide (i < number_of_threads) then
        match threads s !! i with
        | Some Finished => Some (with_main (Join (S i)) s)
        | _ => None
        end
      else Some (with_main (Flush 0) s)
  | Flush k =>
      if decide (k < number_of_threads)
      then Some (with_main (FlushWait k) (with_main_ring (main_ring s ++ [k]) s))
      else Some (with_main Stop s)
  | FlushWait k =>
      if decide (k ∈ main_ring s) then None else Some (with_main (Flush (S k)) s)
  | Stop =>
      Some (with_main StopJoin
              (with_backend (match backend s with Running => Stopping | b => b end) s))
  | StopJoin =>
      match backend s with
      | Exited | NotStarted => Some (with_main Check s)
      | _ => None
      end
  | Check => None
  end.

Definition working (b : backend_state) : bool :=
  match b with Running | Stopping => true | _ => false end.

(** Modelled from the spec: the backend worker is not among the sources.
    It takes the event at the front of a ring, formats it and writes it
    through every sink of the event's logger. *)
Definition drain (i : nat) (s : state) : option state :=
  if working (backend s) then
    match rings s !! i with
    | Some (e :: q) =>
        Some (foldl (λ s k, write e k s) (with_rings (<[i := q]> (rings s)) s)
                logger_sinks)
    | _ => None
    end
  else None.

(** The backend processes a flush command of the main thread. *)
Definition drain_main (s : state) : option state :=
  if working (backend s) then
    match main_ring s with
    | _ :: q => Some (with_main_ring q s)
    | [] => None
    end
  else None.

(** Modelled from the spec: "Stopping — shutdown signalled; drains until
    every ring is empty, then exits." *)
Definition exit (s : state) : option state :=
  match backend s with
  | Stopping =>
      if decide (Forall (λ q, q = []) (rings s) ∧ main_ring s = [])
      then Some (with_backend Exited s) else None
  | _ => None
  end.

Inductive action := Main | Thread (i : nat) | Drain (i : nat) | DrainMain | Exit.

Definition step (a : action) (s : state) : option state :=
  match a with
  | Main => main_step s
  | Thread i => thread_step i s
  | Drain i => drain i s
  | DrainMain => drain_main s
  | Exit => exit s
  end.

Fixpoint run (sched : list action) (s : state) : state :=
  match sched with
  | [] => s
  | a :: sched => run sched (default s (step a s))
  end.

(** The process at the start of the test case.  Nothing in the test asks
    for events to be dropped. *)
Definition start (cap : nat) : state :=
  State Block cap Start (replicate number_of_threads Unborn)
    (replicate number_of_threads []) [] NotStarted [] [] 0.



(** *** What has been logged, and where it is *)

(** How many events a thread has logged. *)
Definition logged (pc : thread_pc) : nat :=
  match pc with
  | Logging j => j
  | Finished => number_of_messages
  | _ => 0
  end.

Definition sent (i : nat) (pc : thread_pc) : list log_event :=
  LogEvent i <$> seq 0 (logged pc).

(** The events logged by the threads [k], [k + 1], ... *)
Fixpoint sent_from (k : nat) (ts : list thread_pc) : list log_event :=
  match ts with
  | [] => []
  | pc :: ts => sent k pc ++ sent_from (S k) ts
  end.

Definition past_join (m : main_pc) : bool :=
  match m with Flush _ | FlushWait _ | Stop | StopJoin | Check => true | _ => false end.

Definition stopping (b : backend_state) : bool :=
  match b with Stopping | Exited => true | _ => false end.

Definition joining (m : main_pc) : bool :=
  match m with StopJoin | Check => true | _ => false end.

Record inv (s : state) : Prop := Inv {
  inv_policy : policy s = Block;
  inv_threads : length (threads s) = number_of_threads;
  inv_rings : length (rings s) = number_of_threads;
  inv_same : json_sink s = file_sink s;
  inv_perm : json_sink s ++ mjoin (rings s) ≡ₚ sent_from 0 (threads s);
  inv_bound : ∀ i j, threads s !! i = Some (Logging j) → j ≤ number_of_messages;
  inv_start : main s = Start →
              backend s = NotStarted ∧
              ∀ i pc, threads s !! i = Some pc → pc = Unborn;
  inv_started : main s ≠ Start → backend s ≠ NotStarted;
  inv_spawn : ∀ k, main s = Spawn k →
              ∀ i pc, k ≤ i → threads s !! i = Some pc → pc = Unborn;
  inv_join : ∀ k, main s = Join k →
             ∀ i pc, i < k → threads s !! i = Some pc → pc = Finished;
  inv_joined : past_join (main s) = true →
               ∀ i pc, threads s !! i = Some pc → pc = Finished;
  inv_stop : stopping (backend s) = true → joining (main s) = true;
  inv_exit : backend s = Exited → Forall (.= []) (rings s);
  inv_check : main s = Check → backend s = Exited
}.

Definition sample_text_head (e : log_event) : string :=
  ("[" +:+ to_string (thread_index e) +:+ "] LOG_INFO ")%string.

(** Under the drop policy the count need not be reached: with rings of one
    event and a backend that only starts to drain when the threads are
    through, each thread gets one event out of five hundred to the sinks. *)
Definition dropping : state :=
  State Drop 1 Start (replicate number_of_threads Unborn)
    (replicate number_of_threads []) [] NotStarted [] [] 0.

Definition late_backend : list action :=
  replicate 8 Main
  ++ mjoin ((λ i, replicate (S (S number_of_messages)) (Thread i))
            <$> seq 0 number_of_threads)
  ++ replicate 7 Main
  ++ (Drain <$> seq 0 number_of_threads)
  ++ mjoin (replicate number_of_threads [Main; DrainMain; Main])
  ++ [Main; Main; Exit; Main].

(** *** Progress of the test case *)

(** What the main thread can rely on besides [inv]: the threads it has
    constructed exist, and a backend it has told to stop is stopping. *)
Record alive (s : state) : Prop := Alive {
  alive_spawned : ∀ k, main s = Spawn k →
                  ∀ i pc, i < k → threads s !! i = Some pc → pc ≠ Unborn;
  alive_all : main s ≠ Start → (∀ k, main s ≠ Spawn k) →
              ∀ i pc, threads s !! i = Some pc → pc ≠ Unborn;
  alive_stop : joining (main s) = true → stopping (backend s) = true
}.

(** Steps the main thread has to make to reach the check, the posted flush
    commands not counted. *)
Definition main_work (m : main_pc) : nat :=
  match m with
  | Start => 3 * number_of_threads + 2 * number_of_threads + 9
  | Spawn k => 3 * number_of_threads + number_of_threads + 6 + (number_of_threads - k)
  | Join k => 3 * number_of_threads + 4 + (number_of_threads - k)
  | Flush k => 3 + 3 * (number_of_threads - k)
  | FlushWait k => 4 + 3 * (number_of_threads - S k)
  | Stop => 2
  | StopJoin => 1
  | Check => 0
  end.

(** Steps a logging thread has to make, twice over for the events that
    have yet to go through a ring. *)
Definition thread_work (pc : thread_pc) : nat :=
  match pc with
  | Unborn => 2 * number_of_messages + 3
  | Setup => 2 * number_of_messages + 2
  | Logging j => 2 * (number_of_messages - j) + 1
  | Finished => 0
  end.

Definition backend_work (b : backend_state) : nat :=
  match b with
  | NotStarted | Running => 2
  | Stopping => 1
  | Exited => 0
  end.

Definition work (s : state) : nat :=
  main_work (main s) + sum_list (thread_work <$> threads s)
  + sum_list (length <$> rings s) + length (main_ring s)
  + backend_work (backend s).

End JsonFileLoggingTest.

(** ** The calling thread seen by [Os.cpp] *)

Module OsThread.

(** [CPU_SETSIZE] of [<sched.h>]: the CPUs a [cpu_set_t] has a bit for *)
Definition CPU_SETSIZE : nat := 1024.

(** [TASK_COMM_LEN] of the kernel: the bytes of a thread name, the
    terminating NUL included *)
Definition TASK_COMM_LEN : nat := 16.

Definition EFAULT : Z := 14.
Definition EINVAL : Z := 22.

(** [std::generic_category()], [std::system_category()] *)
Inductive error_category := generic_category | system_category.

Inductive exn :=
| runtime_error (what : string)
| system_error (errno : Z) (category : error_category).

Inductive result (A : Type) :=
| Ret (a : A)
| Throw (e : exn).
Arguments Ret {A} a.
Arguments Throw {A} e.

(** What the kernel keeps for the calling thread. *)
Record thread_state := ThreadState {
  allowed : gset nat;       (* CPUs that are online and open to the thread *)
  affinity : gset nat;      (* CPUs the thread is scheduled on *)
  comm : string;            (* its name *)
  tid : Z;                  (* gettid() *)
  errno : Z
}.

(** [cpu_set_t], with the macros [CPU_ZERO] and [CPU_SET] of glibc; [CPU_SET]
    leaves the set alone when it has no bit for the CPU. *)
Definition CPU_ZERO : gset nat := ∅.
Definition CPU_SET (cpu : nat) (cpuset : gset nat) : gset nat :=
  if decide (cpu < CPU_SETSIZE)%nat then {[cpu]} ∪ cpuset else cpuset.

(** [int sched_setaffinity(0, sizeof(cpu_set_t), mask)]: the thread is moved
    to the CPUs of the mask that are open to it; a mask with none of them is
    [EINVAL]. *)
Definition sched_setaffinity (mask : gset nat) (s : thread_state)
    : Z * thread_state :=
  if decide (mask ∩ allowed s = ∅)
  then (-1, ThreadState (allowed s) (affinity s) (comm s) (tid s) EINVAL)
  else (0, ThreadState (allowed s) (mask ∩ allowed s) (comm s) (tid s) (errno s)).

(** [void set_cpu_affinity(uint16_t cpu_id)] *)
Definition set_cpu_affinity (cpu_id : nat) (s : thread_state)
    : result unit * thread_state :=
  let cpuset := CPU_ZERO in
  let cpuset := CPU_SET cpu_id cpuset in
  let '(err, s) := sched_setaffinity cpuset s in
  if err =? -1
  then (Throw (system_error (errno s) generic_category), s)
  else (Ret tt, s).

(** [int prctl(PR_SET_NAME, name, 0, 0, 0)]: the name is cut to the 15 bytes
    that fit; a pointer that cannot be read ([None]) is [EFAULT]. *)
Definition prctl_set_name (name : option string) (s : thread_state)
    : Z * thread_state :=
  match name with
  | None => (-1, ThreadState (allowed s) (affinity s) (comm s) (tid s) EFAULT)
  | Some name =>
      (0, ThreadState (allowed s) (affinity s)
            (String.substring 0 (TASK_COMM_LEN - 1) name) (tid s) (errno s))
  end.

(** [void set_thread_name(char const* name)] *)
Definition set_thread_name (name : option string) (s : thread_state)
    : result unit * thread_state :=
  let '(err, s) := prctl_set_name name s in
  if err =? -1
  then (Throw (system_error (errno s) generic_category), s)
  else (Ret tt, s).

(** [uint32_t get_thread_id() noexcept]:
    [static_cast<uint32_t>(::syscall(SYS_gettid))] *)
Definition get_thread_id (s : thread_state) : Z := tid s mod 2 ^ 32.

(** A thread of a machine with eight CPUs, the last two closed to it. *)
Definition worker : thread_state :=
  ThreadState (list_to_set (seq 0 6)) (list_to_set (seq 0 6)) "quill_test" 4711 0.

End OsThread.

(** ** The heap seen by [Os.cpp] *)

Module OsAlloc.

Import OsThread.

Definition ENOMEM : Z := 12.
Definition nullptr : Z := 0.

(** [sizeof(void* )] *)
Definition sizeof_pointer : Z := 8.

(** What the allocator decides for one request: that there is no memory, or
    where it looks for room first.  Any place that is free can be the one
    it looks at, so the requests can be served from memory that was given
    back as well as from memory that was never used. *)
Inductive offer :=
| NoMemory
| TryAt (hint : Z).

(** The blocks handed out and not given back (address and length), and what
    the allocator decides for the coming requests. *)
Record heap := Heap {
  blocks : gmap Z Z;
  supply : list offer
}.

(** The bytes a block of [n] bytes keeps to itself: a block of no bytes has
    an address of its own all the same (as with glibc; a null pointer is
    allowed there too). *)
Definition extent (n : Z) : Z := Z.max n 1.

(** A block of [size] bytes at [p] and one of [n] bytes at [q] share no
    byte. *)
Definition apart (p size q n : Z) : Prop :=
  p + extent size ≤ q ∨ q + extent n ≤ p.

(** A block of [size] bytes at [p] shares no byte with a block of the heap. *)
Definition room (blocks : gmap Z Z) (p size : Z) : bool :=
  bool_decide (map_Forall (λ q n, apart p size q n) blocks).

(** The first multiple of [alignment] from [a] on. *)
Definition round_up (a alignment : Z) : Z :=
  (a + alignment - 1) / alignment * alignment.

(** An address past every block of the heap. *)
Definition past (blocks : gmap Z Z) : Z :=
  map_fold (λ q n acc, Z.max acc (q + extent n)) 1 blocks.

(** Where the allocator puts a block: at the first multiple of the
    alignment from the place it looks at, when the block has room there,
    and past every block otherwise. *)
Definition place (blocks : gmap Z Z) (hint alignment size : Z) : Z :=
  let p := round_up (Z.max hint 1) alignment in
  if room blocks p size then p else round_up (past blocks) alignment.

(** [int posix_memalign(void** memptr, size_t alignment, size_t size)]: the
    result and what [*memptr] holds afterwards.  The alignment has to be a
    power of two and a multiple of [sizeof(void* )]. *)
Definition posix_memalign (memptr alignment size : Z) (h : heap) : Z * Z * heap :=
  if negb (Os.is_pow_of_two alignment) || negb (alignment mod sizeof_pointer =? 0)
  then (EINVAL, memptr, h)
  else
    match hd (TryAt 0) (supply h) with
    | NoMemory => (ENOMEM, memptr, Heap (blocks h) (tail (supply h)))
    | TryAt hint =>
        let p := place (blocks h) hint alignment size in
        (0, p, Heap (<[p:=size]> (blocks h)) (tail (supply h)))
    end.

(** [void free(void* ptr)]; [None] where the behaviour is undefined (a
    pointer that is not a block of the heap). *)
Definition free (ptr : Z) (h : heap) : option heap :=
  if ptr =? nullptr then Some h else
  match blocks h !! ptr with
  | Some _ => Some (Heap (delete ptr (blocks h)) (supply h))
  | None => None
  end.

(** [void* aligned_alloc(size_t alignment, size_t size)] *)
Definition aligned_alloc (alignment size : Z) (h : heap) : result Z * heap :=
  let ret := nullptr in
  let '(res, ret, h) := posix_memalign ret alignment size h in
  if (res =? EINVAL) || (res =? ENOMEM)
  then (Throw (system_error res system_category), h)
  else (Ret ret, h).

(** [void aligned_free(void* ptr) noexcept] *)
Definition aligned_free (ptr : Z) (h : heap) : option heap := free ptr h.

(** A heap with two blocks and a gap between them, left by a block that
    was given back: the allocator looks for room there first. *)
Definition small_heap : heap :=
  Heap {[ 4096 := 100; 8192 := 100 ]} [TryAt 4197].

End OsAlloc.

(** ** [Os.cpp] on Windows: the [_WIN32] branches *)

Module OsWindows.

(** *** Constants of [<windows.h>] *)

Definition NULL : Z := 0.
Definition INVALID_HANDLE_VALUE : Z := -1.
Definition PAGE_READWRITE : Z := 4.
Definition FILE_MAP_WRITE : Z := 2.
Definition FILE_MAP_ALL_ACCESS : Z := 983071.

Definition ERROR_ACCESS_DENIED : Z := 5.
Definition ERROR_INVALID_HANDLE : Z := 6.
Definition ERROR_NOT_ENOUGH_MEMORY : Z := 8.
Definition ERROR_INVALID_PARAMETER : Z := 87.
Definition ERROR_INVALID_ADDRESS : Z := 487.
Definition ERROR_MAPPED_ALIGNMENT : Z := 1132.

(** *** File mappings and views *)

(** A file mapping object backed by the paging file: its size and its
    bytes (an absent offset reads 0). *)
Record section := Section { sec_size : Z; sec_data : gmap Z Z }.

(** A view of a file mapping: [len] bytes of the object from offset 0 on,
    seen at [base]. *)
Record view := View { v_base : Z; v_len : Z; v_handle : Z }.

Definition view_covers (v : view) (a : Z) : bool :=
  (v_base v <=? a) && (a <? v_base v + v_len v).

Definition overlaps (base len : Z) (v : view) : bool :=
  (base <? v_base v + v_len v) && (v_base v <? base + len).

Inductive call :=
| CreateFileMapping (hFile protect size_high size_low : Z)
| MapViewOfFile (h access bytes : Z)
| MapViewOfFileEx (h access bytes base : Z)
| UnmapViewOfFile (base : Z)
| CloseHandle (h : Z).

(** What the environment decides for one call: nothing, or that the call
    fails with an error code (other threads of the process take memory and
    address space at any time). *)
Inductive outcome :=
| Succeeds
| Fails (error : Z).

Record win_state := WinState {
  w_page_size : Z;                 (* SYSTEM_INFO::dwPageSize *)
  w_granularity : Z;               (* SYSTEM_INFO::dwAllocationGranularity *)
  w_sections : gmap Z section;     (* open handles *)
  w_views : list view;
  w_next : Z;                      (* where the system places the next view *)
  w_last_error : Z;
  w_script : list outcome;
  w_trace : list (call * Z)
}.

Definition with_sections (f : gmap Z section → gmap Z section) (s : win_state) :=
  WinState (w_page_size s) (w_granularity s) (f (w_sections s)) (w_views s)
    (w_next s) (w_last_error s) (w_script s) (w_trace s).
Definition with_views (f : list view → list view) (s : win_state) :=
  WinState (w_page_size s) (w_granularity s) (w_sections s) (f (w_views s))
    (w_next s) (w_last_error s) (w_script s) (w_trace s).
Definition with_next (n : Z) (s : win_state) :=
  WinState (w_page_size s) (w_granularity s) (w_sections s) (w_views s)
    n (w_last_error s) (w_script s) (w_trace s).
Definition with_last_error (e : Z) (s : win_state) :=
  WinState (w_page_size s) (w_granularity s) (w_sections s) (w_views s)
    (w_next s) e (w_script s) (w_trace s).
Definition pop (s : win_state) :=
  WinState (w_page_size s) (w_granularity s) (w_sections s) (w_views s)
    (w_next s) (w_last_error s) (tail (w_script s)) (w_trace s).
Definition log_call (c : call) (r : Z) (s : win_state) :=
  WinState (w_page_size s) (w_granularity s) (w_sections s) (w_views s)
    (w_next s) (w_last_error s) (w_script s) (w_trace s ++ [(c, r)]).

(** *** The monad of the embedding: state, exceptions, and a loop that may
    not have ended when the fuel is spent *)

Inductive result (A : Type) :=
| Ret (a : A)
| Throw (e : Os.exn)
| Spinning.
Arguments Ret {A} a.
Arguments Throw {A} e.
Arguments Spinning {A}.

Definition M (A : Type) : Type := win_state → result A * win_state.

#[global] Instance M_ret : MRet M := λ A a s, (Ret a, s).
#[global] Instance M_bind : MBind M := λ A B k m s,
  match m s with
  | (Ret a, s') => k a s'
  | (Throw e, s') => (Throw e, s')
  | (Spinning, s') => (Spinning, s')
  end.

Definition throw {A} (e : Os.exn) : M A := λ s, (Throw e, s).
Definition spinning {A} : M A := λ s, (Spinning, s).

(** *** The calls *)

(** The lowest handle that is not open (handles are multiples of 4). *)
Definition fresh_handle (sections : gmap Z section) : Z :=
  match List.find (λ h, bool_decide (sections !! h = None))
                  ((λ n, 4 * Z.of_nat n) <$> seq 1 (S (size sections))) with
  | Some h => h
  | None => 4 * Z.of_nat (S (size sections))
  end.

(** [CreateFileMapping(INVALID_HANDLE_VALUE, NULL, PAGE_READWRITE, high,
    low, NULL)]: a mapping object of [high * 2^32 + low] bytes backed by the
    paging file; a size of 0 is refused. *)
Definition create_file_mapping (hFile protect size_high size_low : Z) : M Z := λ s,
  let c := CreateFileMapping hFile protect size_high size_low in
  let failed e s := (Ret NULL, log_call c NULL (with_last_error e s)) in
  let o := hd Succeeds (w_script s) in
  let s := pop s in
  match o with
  | Fails e => failed e s
  | Succeeds =>
      let size := size_high * 2 ^ 32 + size_low in
      if size <=? 0 then failed ERROR_INVALID_PARAMETER s else
      let h := fresh_handle (w_sections s) in
      (Ret h, log_call c h (with_sections (insert h (Section size ∅)) s))
  end.

(** The first multiple of the allocation granularity from [a] on. *)
Definition align_up (a granularity : Z) : Z :=
  (a + granularity - 1) / granularity * granularity.

(** Maps [bytes] bytes of the object (all of it when [bytes] is 0) at
    [base], when the range is free. *)
Definition place_view (c : call) (h bytes base : Z) (s : win_state)
    : result Z * win_state :=
  let failed e s := (Ret NULL, log_call c NULL (with_last_error e s)) in
  match w_sections s !! h with
  | None => failed ERROR_INVALID_HANDLE s
  | Some sec =>
      let len := if bytes =? 0 then sec_size sec else bytes in
      if (len <=? 0) || (sec_size sec <? len) then failed ERROR_ACCESS_DENIED s
      else if negb (base mod w_granularity s =? 0) then failed ERROR_MAPPED_ALIGNMENT s
      else if (base <=? 0) || existsb (overlaps base len) (w_views s)
      then failed ERROR_INVALID_ADDRESS s
      else (Ret base, log_call c base (with_views (cons (View base len h)) s))
  end.

(** [MapViewOfFile(h, access, 0, 0, bytes)]: the system chooses the place. *)
Definition map_view_of_file (h access bytes : Z) : M Z := λ s,
  let c := MapViewOfFile h access bytes in
  let o := hd Succeeds (w_script s) in
  let s := pop s in
  match o with
  | Fails e => (Ret NULL, log_call c NULL (with_last_error e s))
  | Succeeds =>
      let base := align_up (w_next s) (w_granularity s) in
      place_view c h bytes base (with_next (base + bytes) s)
  end.

(** [MapViewOfFileEx(h, access, 0, 0, bytes, base)] *)
Definition map_view_of_file_ex (h access bytes base : Z) : M Z := λ s,
  let c := MapViewOfFileEx h access bytes base in
  let o := hd Succeeds (w_script s) in
  let s := pop s in
  match o with
  | Fails e => (Ret NULL, log_call c NULL (with_last_error e s))
  | Succeeds => place_view c h bytes base s
  end.

(** [UnmapViewOfFile(base)]: the view that begins at [base] goes. *)
Definition unmap_view_of_file (base : Z) : M Z := λ s,
  if existsb (λ v, v_base v =? base) (w_views s)
  then (Ret 1, log_call (UnmapViewOfFile base) 1
                 (with_views (filter (λ v, v_base v ≠ base)) s))
  else (Ret 0, log_call (UnmapViewOfFile base) 0
                 (with_last_error ERROR_INVALID_ADDRESS s)).

(** [CloseHandle(h)] *)
Definition close_handle (h : Z) : M Z := λ s,
  match w_sections s !! h with
  | Some _ => (Ret 1, log_call (CloseHandle h) 1 (with_sections (delete h) s))
  | None => (Ret 0, log_call (CloseHandle h) 0 (with_last_error ERROR_INVALID_HANDLE s))
  end.

(** [GetLastError()] *)
Definition get_last_error : M Z := λ s, (Ret (w_last_error s), s).

(** *** Loads and stores through the views *)

Definition find_view (views : list view) (a : Z) : option view :=
  List.find (λ v, view_covers v a) views.

Definition load (s : win_state) (a : Z) : option Z :=
  match find_view (w_views s) a with
  | Some v =>
      match w_sections s !! v_handle v with
      | Some sec => Some (default 0 (sec_data sec !! (a - v_base v)))
      | None => None
      end
  | None => None
  end.

Definition store (s : win_state) (a b : Z) : option win_state :=
  match find_view (w_views s) a with
  | Some v =>
      match w_sections s !! v_handle v with
      | Some sec =>
          Some (with_sections
                  (insert (v_handle v)
                     (Section (sec_size sec) (<[a - v_base v := b]> (sec_data sec))))
                  s)
      | None => None
      end
  | None => None
  end.

(** *** [Os.cpp] *)

(** [size_t get_page_size() noexcept]:
    [std::max(system_info.dwPageSize, system_info.dwAllocationGranularity)]
    in a [uint32_t] *)
Definition get_page_size : M Z := λ s,
  (Ret (Z.max (w_page_size s) (w_granularity s) mod 2 ^ 32), s).

(** [static_cast<DWORD>(capacity * 2)] *)
Definition to_DWORD (n : Z) : Z := n mod 2 ^ 32.

Definition could_not_create : Os.exn :=
  Os.runtime_error "Could not create file mapping".

(** The [for (;;)] of [create_memory_mapped_files], with the turns it may
    take. *)
Fixpoint map_twice (fuel : nat) (hMapFile capacity : Z) : M (Z * Z) :=
  match fuel with
  | O => spinning
  | S fuel =>
      (* find a free address space with the correct size *)
      address ← map_view_of_file hMapFile FILE_MAP_ALL_ACCESS (Os.twice capacity);
      if address =? NULL then (close_handle hMapFile;; throw could_not_create) else
      (* found a big enough address space. hopefully it will remain free
         while we map to it. if not, we'll try again. *)
      unmap_view_of_file address;;
      addr1 ← map_view_of_file_ex hMapFile FILE_MAP_ALL_ACCESS capacity address;
      if negb (addr1 =? address) then
        (* Try again if it did not remain free *)
        err ← get_last_error;
        if err =? ERROR_INVALID_ADDRESS then map_twice fuel hMapFile capacity
        else (close_handle hMapFile;; throw could_not_create)
      else
      addr2 ← map_view_of_file_ex hMapFile FILE_MAP_WRITE capacity (address + capacity);
      if negb (addr2 =? address + capacity) then
        (* We will try again but first unmap the previous mapped file *)
        unmap_view_of_file addr1;;
        err ← get_last_error;
        if err =? ERROR_INVALID_ADDRESS then map_twice fuel hMapFile capacity
        else (close_handle hMapFile;; throw could_not_create)
      else
      (* All okay *)
      mret (address, hMapFile)
  end.

(** [std::pair<unsigned char*, void*> create_memory_mapped_files(size_t capacity)] *)
Definition create_memory_mapped_files (fuel : nat) (capacity : Z) : M (Z * Z) :=
  if negb (Os.is_pow_of_two capacity)
  then throw (Os.runtime_error "capacity needs to be power of two") else
  page_size ← get_page_size;
  if negb (capacity mod page_size =? 0)
  then throw (Os.runtime_error "capacity needs to be multiple of page size") else
  hMapFile ← create_file_mapping INVALID_HANDLE_VALUE PAGE_READWRITE 0
                (to_DWORD (Os.twice capacity));
  if hMapFile =? NULL then throw could_not_create else
  map_twice fuel hMapFile capacity.

(** [void destroy_memory_mapped_files(std::pair<unsigned char*, void*> pointer_pair,
    size_t capacity)] *)
Definition destroy_memory_mapped_files (pointer_pair : Z * Z) (capacity : Z) : M unit :=
  if pointer_pair.1 =? NULL then mret tt else
  unmap_view_of_file pointer_pair.1;;
  unmap_view_of_file (pointer_pair.1 + capacity);;
  close_handle pointer_pair.2;;
  mret tt.

(** Every view has bytes. *)
Definition views_ok (s : win_state) : Prop :=
  Forall (λ v, 0 < v_len v) (w_views s).

(** A process on a machine with 4 KiB pages and an allocation granularity
    of 64 KiB, with nothing mapped. *)
Definition boot (script : list outcome) : win_state :=
  WinState 4096 65536 ∅ [] 8791798054912 0 script [].

End OsWindows.

(** ** Facts about [Os.cpp] *)

Module OsFacts.

Import Os.
Open Scope Z_scope.

Lemma is_pow_of_two_spec n : is_pow_of_two n = true ↔ power_of_two n.
Proof.
  unfold is_pow_of_two, power_of_two. rewrite andb_true_iff, Z.ltb_lt, Z.eqb_eq.
  split.
  - intros [Hpos Heq]. exists (Z.log2 n). split; [apply Z.log2_nonneg | exact Heq].
  - intros (k & Hk & ->). split; [apply Z.pow_pos_nonneg; lia |].
    by rewrite Z.log2_pow2.
Qed.

Lemma is_pow_of_two_false n : is_pow_of_two n = false ↔ ¬ power_of_two n.
Proof. rewrite <- is_pow_of_two_spec. destruct (is_pow_of_two n); naive_solver. Qed.

Lemma ose_bind {A B} (m : M A) (k : A → M B) :
  only_system_errors m → (∀ a, only_system_errors (k a)) →
  only_system_errors (m ≫= k).
Proof.
  intros Hm Hk s what. unfold mbind, M_bind.
  specialize (Hm s what). destruct (m s) as [[a|e] s']; simpl in *.
  - apply Hk.
  - intros [= ->]. by apply Hm.
Qed.

Lemma ose_ret {A} (a : A) : only_system_errors (mret a).
Proof. by intros s what. Qed.

Lemma ose_throw_errno {A} : only_system_errors (@throw_errno A).
Proof. by intros s what. Qed.

Lemma ose_if {A} (b : bool) (m1 m2 : M A) :
  only_system_errors m1 → only_system_errors m2 →
  only_system_errors (if b then m1 else m2).
Proof. by destruct b. Qed.

Lemma returns_ose {A} (m : M A) : returns m → only_system_errors m.
Proof. intros H s what. destruct (H s) as [a ->]. done. Qed.

Lemma mkstemp_returns t : returns (mkstemp t).
Proof.
  intros s. unfold mkstemp. destruct (next_outcome s) as [[|e] s']; eauto.
Qed.

Lemma unlink_returns p : returns (unlink p).
Proof.
  intros s. unfold unlink. destruct (next_outcome s) as [[|e] s']; eauto.
  destruct (os_dir s' !! p); eauto.
Qed.

Lemma ftruncate_returns fd len : returns (ftruncate fd len).
Proof.
  intros s. unfold ftruncate. destruct (next_outcome s) as [[|e] s']; eauto.
  destruct (os_fds s' !! fd); eauto. destruct (len <? 0); eauto.
Qed.

Lemma mmap_returns addr len prot flags fd off :
  returns (mmap addr len prot flags fd off).
Proof.
  intros s. unfold mmap. destruct (next_outcome s) as [[|e] s']; eauto.
  repeat (case_match; eauto).
Qed.

Lemma munmap_returns addr len : returns (munmap addr len).
Proof. intros s. by exists 0. Qed.

Lemma close_returns fd : returns (close fd).
Proof.
  intros s. unfold close. destruct (next_outcome s) as [o s'].
  destruct (os_fds s' !! fd); eauto. destruct o; eauto.
Qed.

Lemma get_page_size_returns : returns get_page_size.
Proof. intros s. by eexists. Qed.

Create HintDb ose.
#[local] Hint Resolve ose_ret ose_throw_errno mkstemp_returns unlink_returns
  ftruncate_returns mmap_returns munmap_returns close_returns returns_ose : ose.

Ltac ose :=
  repeat first
    [ apply ose_bind; [ | intros ? ]
    | apply ose_if
    | match goal with |- only_system_errors (match ?x with _ => _ end) => destruct x end
    | solve [ auto with ose ] ].

(** The part of [create_memory_mapped_files] that follows the capacity
    checks makes system calls only, and fails with their errors only. *)
Lemma create_throws_invalid_only_at_checks capacity s what :
  is_pow_of_two capacity = true →
  (capacity mod (os_pagesize s mod 2 ^ 32) =? 0) = true →
  (create_memory_mapped_files capacity s).1 ≠ Throw (runtime_error what).
Proof.
  intros Hp Hm. unfold create_memory_mapped_files.
  rewrite Hp. cbn [negb].
  unfold mbind at 1, M_bind at 1, get_page_size at 1. cbv beta iota.
  rewrite Hm. cbn [negb].
  revert s what Hm.
  match goal with
  | |- ∀ s what, _ → (?m s).1 ≠ _ =>
      intros s what _; revert s what; change (only_system_errors m)
  end.
  ose.
Qed.

(** *** What a system call did, from what it returned *)

Ltac fields :=
  cbn [os_pagesize os_dir os_inodes os_fds os_vm os_mmap_hint os_suffix os_errno
       os_script os_trace with_dir with_inodes with_fds with_vm with_hint
       with_errno with_script log_call pop fst snd] in *.

Lemma os_state_eq s1 s2 :
  os_pagesize s1 = os_pagesize s2 → os_dir s1 = os_dir s2 →
  os_inodes s1 = os_inodes s2 → os_fds s1 = os_fds s2 → os_vm s1 = os_vm s2 →
  os_mmap_hint s1 = os_mmap_hint s2 → os_suffix s1 = os_suffix s2 →
  os_errno s1 = os_errno s2 → os_script s1 = os_script s2 →
  os_trace s1 = os_trace s2 → s1 = s2.
Proof. destruct s1, s2; simpl; intros; subst; reflexivity. Qed.

Lemma bind_ret_inv {A B} (m : M A) (k : A → M B) s b s' :
  (m ≫= k) s = (Ret b, s') → ∃ a s1, m s = (Ret a, s1) ∧ k a s1 = (Ret b, s').
Proof.
  unfold mbind, M_bind. destruct (m s) as [[a|e] s1]; [eauto | discriminate].
Qed.

Lemma bind_throw_inv {A B} (m : M A) (k : A → M B) s e s' :
  (m ≫= k) s = (Throw e, s') →
  m s = (Throw e, s') ∨ ∃ a s1, m s = (Ret a, s1) ∧ k a s1 = (Throw e, s').
Proof.
  unfold mbind, M_bind. destruct (m s) as [[a|e'] s1]; [eauto |].
  intros [= -> ->]. by left.
Qed.

Lemma lowest_free_fd_nonneg fds : 0 ≤ lowest_free_fd fds.
Proof.
  unfold lowest_free_fd. destruct (find _ _) as [n|] eqn:E; [|lia].
  apply find_some in E as [Hin _].
  apply list_elem_of_In, list_elem_of_fmap in Hin as (m & -> & _). lia.
Qed.

Lemma mkstemp_inv template s fd name s1 :
  mkstemp template s = (Ret (fd, name), s1) →
  (0 ≤ fd ∧ hd Succeeds (os_script s) = Succeeds ∧
   fd = lowest_free_fd (os_fds s) ∧
   name = fill_template template (os_suffix s) ∧ s1 = created template s)
  ∨ (fd = -1 ∧ name = template ∧ ∃ e, hd Succeeds (os_script s) = Fails e ∧
     s1 = log_call (Mkstemp template) (-1) (with_errno e (pop s))).
Proof.
  unfold mkstemp, next_outcome, created.
  destruct (hd Succeeds (os_script s)) as [|e]; intros [= <- <- <-].
  - left. split; [apply lowest_free_fd_nonneg | done].
  - right. eauto.
Qed.

Lemma unlink_inv path s r s1 :
  unlink path s = (Ret r, s1) → r ≠ -1 →
  r = 0 ∧ hd Succeeds (os_script s) = Succeeds ∧ is_Some (os_dir s !! path) ∧
  s1 = log_call (Unlink path) 0 (with_dir (delete path) (pop s)).
Proof.
  unfold unlink, next_outcome.
  destruct (hd Succeeds (os_script s)) as [|e]; fields.
  - destruct (os_dir s !! path) eqn:E; intros [= <- <-]; naive_solver.
  - intros [= <- <-]; done.
Qed.

Lemma ftruncate_inv fd len s r s1 :
  ftruncate fd len s = (Ret r, s1) → r ≠ -1 →
  r = 0 ∧ hd Succeeds (os_script s) = Succeeds ∧ 0 ≤ len ∧
  ∃ ino, os_fds s !! fd = Some ino ∧
    s1 = log_call (Ftruncate fd len) 0
           (with_inodes
              (alter (λ i, Inode len (filter (λ kv, kv.1 < len) (i_data i))) ino)
              (pop s)).
Proof.
  unfold ftruncate, next_outcome.
  destruct (hd Succeeds (os_script s)) as [|e]; fields.
  - destruct (os_fds s !! fd) eqn:E; [|intros [= <- <-]; done].
    destruct (len <? 0) eqn:El; intros [= <- <-]; [done|].
    apply Z.ltb_ge in El. naive_solver.
  - intros [= <- <-]; done.
Qed.

Lemma mmap_reserve_inv len s r s1 :
  mmap nullptr len PROT_NONE MMAP_FLAGS (-1) 0 s = (Ret r, s1) → r ≠ MAP_FAILED →
  r = os_mmap_hint s ∧ hd Succeeds (os_script s) = Succeeds ∧ 0 < len ∧
  s1 = log_call (Mmap nullptr len PROT_NONE MMAP_FLAGS (-1) 0) r
         (with_vm (cons (Mapped r len PROT_NONE Anon ∅))
            (with_hint (r + len) (pop s))).
Proof.
  unfold mmap, next_outcome.
  destruct (hd Succeeds (os_script s)) as [|e]; fields.
  - destruct (len <=? 0) eqn:El; [intros [= <- <-]; done|].
    apply Z.leb_gt in El.
    change (has_flag MMAP_FLAGS MAP_FIXED) with false.
    change (has_flag MMAP_FLAGS MAP_ANONYMOUS) with true. cbv iota. fields.
    intros [= <- <-]. done.
  - intros [= <- <-]; done.
Qed.

Lemma mmap_file_inv addr len fd s r s1 :
  mmap addr len (Z.lor PROT_READ PROT_WRITE) (Z.lor MAP_FIXED MAP_PRIVATE) fd 0 s
    = (Ret r, s1) →
  r ≠ MAP_FAILED →
  r = addr ∧ hd Succeeds (os_script s) = Succeeds ∧ 0 < len ∧
  ∃ ino, os_fds s !! fd = Some ino ∧
    s1 = log_call (Mmap addr len (Z.lor PROT_READ PROT_WRITE)
                     (Z.lor MAP_FIXED MAP_PRIVATE) fd 0) addr
           (with_vm (cons (Mapped addr len (Z.lor PROT_READ PROT_WRITE)
                             (FilePrivate ino 0) ∅)) (pop s)).
Proof.
  unfold mmap, next_outcome.
  destruct (hd Succeeds (os_script s)) as [|e]; fields.
  - destruct (len <=? 0) eqn:El; [intros [= <- <-]; done|].
    apply Z.leb_gt in El.
    change (has_flag (Z.lor MAP_FIXED MAP_PRIVATE) MAP_FIXED) with true.
    change (has_flag (Z.lor MAP_FIXED MAP_PRIVATE) MAP_ANONYMOUS) with false.
    change (has_flag (Z.lor MAP_FIXED MAP_PRIVATE) MAP_SHARED) with false.
    change (has_flag (Z.lor MAP_FIXED MAP_PRIVATE) MAP_PRIVATE) with true.
    cbv iota. fields.
    destruct (os_fds s !! fd) eqn:E; intros [= <- <-]; [|done]. naive_solver.
  - intros [= <- <-]; done.
Qed.

Lemma close_inv fd s r s1 :
  close fd s = (Ret r, s1) → r ≠ -1 →
  r = 0 ∧ hd Succeeds (os_script s) = Succeeds ∧ is_Some (os_fds s !! fd) ∧
  s1 = log_call (Close fd) 0 (with_fds (delete fd) (pop s)).
Proof.
  unfold close, next_outcome. fields.
  destruct (os_fds s !! fd) eqn:E; [|intros [= <- <-]; done].
  destruct (hd Succeeds (os_script s)) as [|e]; intros [= <- <-]; naive_solver.
Qed.

Lemma construction_after_mkstemp template capacity s0 s3 r3 s4 r4 s5 address s6 s7 s8 r8 :
  let fd := lowest_free_fd (os_fds s0) in
  let name := fill_template template (os_suffix s0) in
  0 ≤ os_mmap_hint s0 →
  unlink name (created template s0) = (Ret r3, s3) → r3 ≠ -1 →
  ftruncate fd (to_off_t capacity) s3 = (Ret r4, s4) → r4 ≠ -1 →
  mmap nullptr (twice capacity) PROT_NONE MMAP_FLAGS (-1) 0 s4 = (Ret address, s5) →
  address ≠ MAP_FAILED →
  mmap address capacity rw fixed_private fd 0 s5 = (Ret address, s6) →
  mmap (address + capacity) capacity rw fixed_private fd 0 s6
    = (Ret (address + capacity), s7) →
  close fd s7 = (Ret r8, s8) → r8 ≠ -1 →
  address = os_mmap_hint s0 ∧ s8 = constructed template capacity s0 ∧
  0 < capacity ∧ 0 ≤ to_off_t capacity ∧
  hd Succeeds (tail (os_script s0)) = Succeeds.
Proof.
  intros fd name Hh H3 E3 H4 E4 H5 E5 H6 H7 H8 E8.
  apply unlink_inv in H3 as (_ & O3 & _ & ->); [|done].
  apply ftruncate_inv in H4 as (_ & O4 & L4 & ino4 & F4 & ->); [|done].
  apply mmap_reserve_inv in H5 as (-> & O5 & L5 & ->); [|done].
  apply mmap_file_inv in H6 as (_ & O6 & L6 & ino6 & F6 & ->); [|done].
  apply mmap_file_inv in H7 as (_ & O7 & L7 & ino7 & F7 & ->);
    [|unfold created, MAP_FAILED in *; fields; lia].
  apply close_inv in H8 as (_ & O8 & _ & ->); [|done].
  unfold created in *. fields.
  rewrite lookup_insert_eq in F4, F6, F7. simplify_eq.
  split; [reflexivity|]. split; [|split_and!; assumption].
  apply os_state_eq; unfold constructed; fields; try reflexivity.
  rewrite <- !app_assoc. reflexivity.
Qed.

(** A construction that returns has taken the one path on which every call
    succeeded, but for a first [mkstemp] that may have failed. *)
Lemma create_success_inv capacity s base p s' :
  0 ≤ os_mmap_hint s →
  create_memory_mapped_files capacity s = (Ret (base, p), s') →
  ∃ template s0,
    ((template = "/dev/shm/quill-XXXXXX"%string ∧ s0 = s ∧
      hd Succeeds (os_script s) = Succeeds)
     ∨ (template = "/tmp/quill-XXXXXX"%string ∧
        ∃ e, hd Succeeds (os_script s) = Fails e ∧
             s0 = log_call (Mkstemp "/dev/shm/quill-XXXXXX") (-1) (with_errno e (pop s)))) ∧
    base = os_mmap_hint s0 ∧ p = nullptr ∧ s' = constructed template capacity s0 ∧
    0 < capacity ∧ 0 ≤ to_off_t capacity ∧
    hd Succeeds (os_script s0) = Succeeds ∧
    hd Succeeds (tail (os_script s0)) = Succeeds.
Proof.
  unfold create_memory_mapped_files.
  destruct (is_pow_of_two capacity) eqn:Hp; cbn [negb]; [|discriminate].
  unfold mbind at 1, M_bind at 1, get_page_size at 1. cbv beta iota.
  intros Hh.
  destruct (capacity mod _ =? 0) eqn:Hm; cbn [negb]; [|discriminate].
  intros H.
  apply bind_ret_inv in H as ([fd1 name1] & s1 & H1 & H).
  apply bind_ret_inv in H as ([fd name] & s2 & H2 & H).
  apply bind_ret_inv in H as (r3 & s3 & H3 & H).
  destruct (r3 =? -1) eqn:E3; [discriminate|]. apply Z.eqb_neq in E3.
  apply bind_ret_inv in H as (r4 & s4 & H4 & H).
  destruct (r4 =? -1) eqn:E4.
  { apply bind_ret_inv in H as (? & ? & _ & ?). discriminate. }
  apply Z.eqb_neq in E4.
  apply bind_ret_inv in H as (address & s5 & H5 & H).
  destruct (address =? MAP_FAILED) eqn:E5.
  { apply bind_ret_inv in H as (? & ? & _ & ?). discriminate. }
  apply Z.eqb_neq in E5.
  apply bind_ret_inv in H as (a6 & s6 & H6 & H).
  destruct (a6 =? address) eqn:E6; cbn [negb] in H; cycle 1.
  { apply bind_ret_inv in H as (? & ? & _ & H).
    apply bind_ret_inv in H as (? & ? & _ & ?). discriminate. }
  apply Z.eqb_eq in E6. subst a6.
  apply bind_ret_inv in H as (a7 & s7 & H7 & H).
  destruct (a7 =? address + capacity) eqn:E7; cbn [negb] in H; cycle 1.
  { apply bind_ret_inv in H as (? & ? & _ & H).
    apply bind_ret_inv in H as (? & ? & _ & ?). discriminate. }
  apply Z.eqb_eq in E7. subst a7.
  apply bind_ret_inv in H as (r8 & s8 & H8 & H).
  destruct (r8 =? -1) eqn:E8.
  { apply bind_ret_inv in H as (? & ? & _ & ?). discriminate. }
  apply Z.eqb_neq in E8.
  injection H as <- <- <-.
  assert (∀ template s0, mkstemp template s0 = (Ret (fd, name), s2) → 0 ≤ fd →
            0 ≤ os_mmap_hint s0 →
            address = os_mmap_hint s0 ∧ s8 = constructed template capacity s0 ∧
            0 < capacity ∧ 0 ≤ to_off_t capacity ∧
            hd Succeeds (os_script s0) = Succeeds ∧
            hd Succeeds (tail (os_script s0)) = Succeeds) as Hgo.
  { intros template s0 Hmk Hfd Hh0.
    apply mkstemp_inv in Hmk as [(_ & O1 & -> & -> & ->)|(-> & _)]; [|lia].
    pose proof (construction_after_mkstemp _ _ _ _ _ _ _ _ _ _ _ _ _
                  Hh0 H3 E3 H4 E4 H5 E5 H6 H7 H8 E8) as (? & ? & ? & ? & ?).
    split_and!; done. }
  destruct (fd1 <? 0) eqn:Efd.
  - apply Z.ltb_lt in Efd.
    apply bind_ret_inv in H2 as ([fd2 name2] & s2' & H2 & H).
    destruct (fd2 <? 0) eqn:Efd2; [discriminate|]. apply Z.ltb_ge in Efd2.
    injection H as -> -> ->.
    apply mkstemp_inv in H1 as [(? & _)|(_ & _ & e & He & ->)]; [lia|].
    exists "/tmp/quill-XXXXXX"%string, (log_call (Mkstemp "/dev/shm/quill-XXXXXX") (-1) (with_errno e (pop s))).
    destruct (Hgo _ _ H2 Efd2 Hh) as (-> & -> & ? & ? & ? & ?).
    split; [right; eauto | split_and!; done].
  - apply Z.ltb_ge in Efd. injection H2 as -> -> ->.
    exists "/dev/shm/quill-XXXXXX"%string, s.
    destruct (Hgo _ _ H1 Efd Hh) as (-> & -> & ? & ? & ? & ?).
    split; [left; split_and!; done | split_and!; done].
Qed.

(** *** Reading and writing the two halves *)

Lemma find_layer_hit l vm a :
  layer_covers l a = true → find_layer (l :: vm) a = Some l.
Proof. intros H. unfold find_layer. simpl. by rewrite H. Qed.

Lemma find_layer_miss l vm a :
  layer_covers l a = false → find_layer (l :: vm) a = find_layer vm a.
Proof. intros H. unfold find_layer. simpl. by rewrite H. Qed.

Lemma covers_iff l a :
  layer_covers l a = true ↔
  match l with
  | Mapped addr len _ _ _ | Hole addr len => addr ≤ a < addr + len
  end.
Proof. destruct l; simpl; rewrite andb_true_iff, Z.leb_le, Z.ltb_lt; done. Qed.

Lemma not_covers_iff l a :
  layer_covers l a = false ↔
  match l with
  | Mapped addr len _ _ _ | Hole addr len => ¬ (addr ≤ a < addr + len)
  end.
Proof.
  destruct l; simpl; rewrite andb_false_iff, Z.leb_gt, Z.ltb_ge; lia.
Qed.

Lemma size_t_capacity capacity :
  0 < capacity < 2 ^ 64 → 0 ≤ to_off_t capacity →
  capacity < 2 ^ 63 ∧ to_off_t capacity = capacity ∧ twice capacity = 2 * capacity.
Proof.
  unfold to_off_t, twice. intros Hc.
  destruct (Z.ltb_spec capacity (2 ^ 63)); [|lia].
  intros _. split_and!; [done..|]. apply Z.mod_small. lia.
Qed.

(** The file behind a ring that has been constructed. *)
Lemma constructed_inode template capacity s :
  os_inodes (constructed template capacity s) !! fresh_inode (os_inodes s)
  = Some (Inode (to_off_t capacity) ∅).
Proof.
  unfold constructed; fields.
  rewrite lookup_alter_eq, lookup_insert_eq. simpl.
  by rewrite map_filter_empty.
Qed.

(** What a store into a private mapping does to the layers. *)
Lemma store_layers_hit addr len prot back priv vm a b :
  addr ≤ a < addr + len →
  store_layers (Mapped addr len prot back priv :: vm) a b
  = Mapped addr len prot back (<[a:=b]> priv) :: vm.
Proof.
  intros H. simpl.
  replace ((addr <=? a) && (a <? addr + len)) with true; [done|].
  symmetry. apply andb_true_iff. rewrite Z.leb_le, Z.ltb_lt. done.
Qed.

Lemma store_layers_miss l vm a b :
  layer_covers l a = false → store_layers (l :: vm) a b = l :: store_layers vm a b.
Proof. intros H. simpl. by rewrite H. Qed.

Lemma has_flag_rw_read : has_flag rw PROT_READ = true.
Proof. reflexivity. Qed.
Lemma has_flag_rw_write : has_flag rw PROT_WRITE = true.
Proof. reflexivity. Qed.

(** Two private mappings of one file, side by side: each keeps what is
    written to it for itself, and the other goes on reading the file. *)
Lemma private_halves s base capacity ino rest o b :
  os_vm s = Mapped (base + capacity) capacity rw (FilePrivate ino 0) ∅
              :: Mapped base capacity rw (FilePrivate ino 0) ∅ :: rest →
  os_inodes s !! ino = Some (Inode capacity ∅) →
  0 ≤ o < capacity →
  (∃ s1, store s (base + o) b = Some s1 ∧
         load s1 (base + o) = Some b ∧ load s1 (base + capacity + o) = Some 0)
  ∧ (∃ s2, store s (base + capacity + o) b = Some s2 ∧
           load s2 (base + capacity + o) = Some b ∧ load s2 (base + o) = Some 0).
Proof.
  intros Hvm Hino Ho.
  assert (Hfile : ∀ f pos, 0 ≤ pos < capacity → file_byte (with_vm f s) ino pos = Some 0).
  { intros f pos Hpos. unfold file_byte. fields. rewrite Hino. cbn [i_size i_data].
    rewrite lookup_empty. cbn [default].
    destruct (Z.leb_spec 0 pos), (Z.ltb_spec pos capacity); try lia. reflexivity. }
  assert (Hfile0 : ∀ pos, 0 ≤ pos < capacity → file_byte s ino pos = Some 0).
  { intros pos Hpos. apply (Hfile id pos Hpos). }
  split.
  - exists (with_vm (λ vm, store_layers vm (base + o) b) s). split_and!.
    + unfold store. rewrite Hvm.
      rewrite find_layer_miss by (apply not_covers_iff; lia).
      rewrite find_layer_hit by (apply covers_iff; lia).
      rewrite has_flag_rw_write, Hfile0 by lia. reflexivity.
    + unfold load. fields. rewrite Hvm.
      rewrite store_layers_miss by (apply not_covers_iff; lia).
      rewrite store_layers_hit by lia.
      rewrite find_layer_miss by (apply not_covers_iff; lia).
      rewrite find_layer_hit by (apply covers_iff; lia).
      rewrite has_flag_rw_read, lookup_insert_eq. reflexivity.
    + unfold load. fields. rewrite Hvm.
      rewrite store_layers_miss by (apply not_covers_iff; lia).
      rewrite store_layers_hit by lia.
      rewrite find_layer_hit by (apply covers_iff; lia).
      rewrite has_flag_rw_read, lookup_empty. apply Hfile. lia.
  - exists (with_vm (λ vm, store_layers vm (base + capacity + o) b) s). split_and!.
    + unfold store. rewrite Hvm.
      rewrite find_layer_hit by (apply covers_iff; lia).
      rewrite has_flag_rw_write, Hfile0 by lia. reflexivity.
    + unfold load. fields. rewrite Hvm.
      rewrite store_layers_hit by lia.
      rewrite find_layer_hit by (apply covers_iff; lia).
      rewrite has_flag_rw_read, lookup_insert_eq. reflexivity.
    + unfold load. fields. rewrite Hvm.
      rewrite store_layers_hit by lia.
      rewrite find_layer_miss by (apply not_covers_iff; lia).
      rewrite find_layer_hit by (apply covers_iff; lia).
      rewrite has_flag_rw_read, lookup_empty. apply Hfile. lia.
Qed.

Lemma halves_are_private template capacity s o b :
  0 < capacity < 2 ^ 64 → 0 ≤ to_off_t capacity → 0 ≤ o < capacity →
  (∃ s1, store (constructed template capacity s) (os_mmap_hint s + o) b = Some s1 ∧
         load s1 (os_mmap_hint s + o) = Some b ∧
         load s1 (os_mmap_hint s + capacity + o) = Some 0)
  ∧ (∃ s2, store (constructed template capacity s) (os_mmap_hint s + capacity + o) b
           = Some s2 ∧
           load s2 (os_mmap_hint s + capacity + o) = Some b ∧
           load s2 (os_mmap_hint s + o) = Some 0).
Proof.
  intros Hc Hoff Ho.
  destruct (size_t_capacity capacity Hc Hoff) as (_ & Hsz & _).
  eapply private_halves; [reflexivity | | done].
  rewrite constructed_inode, Hsz. reflexivity.
Qed.

(** C1. With the ring of 4096 bytes constructed in a fresh process (every
    system call succeeding), a byte stored at [base] is read back at
    [base], but [base + capacity] still reads the file's 0; and the other
    way round.  The two halves are private copy-on-write mappings
    ([MAP_PRIVATE]), not two views of the same pages. *)
Theorem create_halves_do_not_mirror :
  ∃ s', create_memory_mapped_files 4096 (boot []) = (Ret (boot_base, nullptr), s') ∧
    (∃ s1, store s' boot_base 171 = Some s1 ∧
           load s1 boot_base = Some 171 ∧ load s1 (boot_base + 4096) = Some 0) ∧
    (∃ s2, store s' (boot_base + 4096) 171 = Some s2 ∧
           load s2 (boot_base + 4096) = Some 171 ∧ load s2 boot_base = Some 0).
Proof.
  eexists. split; [vm_compute; reflexivity|].
  split; eexists; (split; [vm_compute; reflexivity|]); split; vm_compute; reflexivity.
Qed.

(** The same holds for every capacity, every state of the process and every
    offset: whenever the construction succeeds, neither half sees what is
    written through the other. *)
Lemma create_halves_private capacity s base p s' o b :
  0 ≤ os_mmap_hint s → 0 ≤ capacity < 2 ^ 64 →
  create_memory_mapped_files capacity s = (Ret (base, p), s') →
  0 ≤ o < capacity →
  (∃ s1, store s' (base + o) b = Some s1 ∧
         load s1 (base + o) = Some b ∧ load s1 (base + capacity + o) = Some 0)
  ∧ (∃ s2, store s' (base + capacity + o) b = Some s2 ∧
           load s2 (base + capacity + o) = Some b ∧ load s2 (base + o) = Some 0).
Proof.
  intros Hh Hc H Ho.
  apply create_success_inv in H as (template & s0 & Hs0 & -> & _ & -> & Hpos & Hoff & _);
    [|done].
  apply halves_are_private; [lia | done | done].
Qed.

Example shared_views_mirror :
  ∃ s', map_twice MAP_SHARED 4096 (boot []) = (Ret boot_base, s') ∧
    (∃ s1, store s' boot_base 171 = Some s1 ∧ load s1 (boot_base + 4096) = Some 171) ∧
    (∃ s2, store s' (boot_base + 4096 + 5) 171 = Some s2 ∧
           load s2 (boot_base + 5) = Some 171).
Proof.
  eexists. split; [vm_compute; reflexivity|].
  split; eexists; (split; [vm_compute; reflexivity|]); vm_compute; reflexivity.
Qed.

Example private_views_do_not_mirror :
  ∃ s', map_twice MAP_PRIVATE 4096 (boot []) = (Ret boot_base, s') ∧
    (∃ s1, store s' boot_base 171 = Some s1 ∧ load s1 (boot_base + 4096) = Some 0).
Proof.
  eexists. split; [vm_compute; reflexivity|].
  eexists; (split; [vm_compute; reflexivity|]); vm_compute; reflexivity.
Qed.

(** C2. A capacity that is not a power of two, or not a multiple of the
    page size, makes [create_memory_mapped_files] throw
    [std::runtime_error] with the process left as it was: no system call
    has been made, so no file and no mapping exists that did not before.
    A capacity that is both passes the two checks: whatever the function
    throws then is a [std::system_error] of a system call. *)
Theorem create_checks_capacity capacity s :
  let page_size := os_pagesize s mod 2 ^ 32 in
  0 < page_size →
  (¬ power_of_two capacity ∨ ¬ (page_size | capacity) →
   ∃ what, create_memory_mapped_files capacity s = (Throw (runtime_error what), s))
  ∧ (power_of_two capacity → (page_size | capacity) →
     ∀ what, (create_memory_mapped_files capacity s).1 ≠ Throw (runtime_error what)).
Proof.
  intros page_size Hpage. split.
  - intros Hbad. unfold create_memory_mapped_files.
    destruct (is_pow_of_two capacity) eqn:Hp; cbn [negb]; [|by eexists].
    unfold mbind at 1, M_bind at 1, get_page_size at 1. cbv beta iota.
    fold page_size.
    destruct (capacity mod page_size =? 0) eqn:Hm; cbn [negb]; [|by eexists].
    exfalso. apply Z.eqb_eq in Hm. apply is_pow_of_two_spec in Hp.
    destruct Hbad as [Hbad|Hbad]; [done|].
    apply Hbad, Z.mod_divide; [lia | done].
  - intros Hp Hdiv what.
    apply create_throws_invalid_only_at_checks.
    + by apply is_pow_of_two_spec.
    + apply Z.eqb_eq, Z.mod_divide; [fold page_size; lia | done].
Qed.

Lemma create_checks_capacity_witness :
  (∃ what, create_memory_mapped_files 1000 (boot [])
           = (Throw (runtime_error what), boot []))
  ∧ (∃ what, create_memory_mapped_files 1024 (boot [])
             = (Throw (runtime_error what), boot []))
  ∧ (∀ what, (create_memory_mapped_files 8192 (boot [])).1
             ≠ Throw (runtime_error what)).
Proof.
  split; [|split].
  - apply (create_checks_capacity 1000 (boot [])); [reflexivity|].
    left. apply is_pow_of_two_false. reflexivity.
  - apply (create_checks_capacity 1024 (boot [])); [reflexivity|].
    right. intros [q Hq]. change (1024 = q * 4096) in Hq. lia.
  - apply (create_checks_capacity 8192 (boot [])); [reflexivity| |].
    + exists 13. split; [lia | reflexivity].
    + exists 2. reflexivity.
Defined.

Lemma appends_bind {A B} (m : M A) (k : A → M B) :
  appends m → (∀ a, appends (k a)) → appends (m ≫= k).
Proof.
  intros Hm Hk s. unfold mbind, M_bind.
  destruct (Hm s) as (c1 & E1 & F1). destruct (m s) as [[a|e] s1]; simpl in *.
  - destruct (Hk a s1) as (c2 & E2 & F2). exists (c1 ++ c2).
    rewrite E2, E1, app_assoc. split; [done | by apply Forall_app].
  - eauto.
Qed.

Lemma appends_pure {A} (m : M A) : (∀ s, (m s).2 = s) → appends m.
Proof. intros H s. exists []. rewrite H, app_nil_r. by split. Qed.

Lemma appends_if {A} (b : bool) (m1 m2 : M A) :
  appends m1 → appends m2 → appends (if b then m1 else m2).
Proof. by destruct b. Qed.

Lemma appends_one {A} (m : M A) c :
  is_mkstemp c = false →
  (∀ s, ∃ r, os_trace (m s).2 = os_trace s ++ [(c, r)]) → appends m.
Proof.
  intros Hc H s. destruct (H s) as [r ->]. eexists. split; [done|].
  by apply Forall_singleton.
Qed.

Lemma unlink_trace path s :
  ∃ r, os_trace (unlink path s).2 = os_trace s ++ [(Unlink path, r)] ∧
       (unlink path s).1 = Ret r.
Proof.
  unfold unlink, next_outcome.
  destruct (hd Succeeds (os_script s)); [destruct (os_dir (pop s) !! path)|];
    eexists; split; reflexivity.
Qed.

Lemma ftruncate_trace fd len s :
  ∃ r, os_trace (ftruncate fd len s).2 = os_trace s ++ [(Ftruncate fd len, r)].
Proof.
  unfold ftruncate, next_outcome.
  destruct (hd Succeeds (os_script s));
    [destruct (os_fds (pop s) !! fd); [destruct (len <? 0)|]|];
    eexists; reflexivity.
Qed.

Lemma mmap_trace addr len prot flags fd off s :
  ∃ r, os_trace (mmap addr len prot flags fd off s).2
       = os_trace s ++ [(Mmap addr len prot flags fd off, r)].
Proof.
  unfold mmap, next_outcome.
  destruct (hd Succeeds (os_script s)); [|eexists; reflexivity].
  destruct (len <=? 0); [eexists; reflexivity|].
  destruct (has_flag flags MAP_FIXED), (has_flag flags MAP_ANONYMOUS);
    try (eexists; reflexivity).
  all: fields; destruct (os_fds s !! fd); [|eexists; reflexivity].
  all: destruct (has_flag flags MAP_SHARED), (has_flag flags MAP_PRIVATE);
    eexists; reflexivity.
Qed.

Lemma munmap_trace addr len s :
  ∃ r, os_trace (munmap addr len s).2 = os_trace s ++ [(Munmap addr len, r)].
Proof. eexists; reflexivity. Qed.

Lemma close_trace fd s :
  ∃ r, os_trace (close fd s).2 = os_trace s ++ [(Close fd, r)].
Proof.
  unfold close, next_outcome.
  destruct (os_fds (pop s) !! fd); [destruct (hd Succeeds (os_script s))|];
    eexists; reflexivity.
Qed.

Lemma ftruncate_appends fd len : appends (ftruncate fd len).
Proof. eapply appends_one; [|apply ftruncate_trace]; reflexivity. Qed.

Lemma mmap_appends addr len prot flags fd off :
  appends (mmap addr len prot flags fd off).
Proof. eapply appends_one; [|apply mmap_trace]; reflexivity. Qed.

Lemma munmap_appends addr len : appends (munmap addr len).
Proof. eapply appends_one; [|apply munmap_trace]; reflexivity. Qed.

Lemma close_appends fd : appends (close fd).
Proof. eapply appends_one; [|apply close_trace]; reflexivity. Qed.

Ltac appends :=
  repeat first
    [ apply appends_bind; [ | intros ? ]
    | apply appends_if
    | apply ftruncate_appends | apply mmap_appends
    | apply munmap_appends | apply close_appends
    | apply appends_pure; reflexivity ].

(** *** The order in which the backing file is made *)

Lemma created_trace template s :
  os_trace (created template s)
  = os_trace s ++ [(Mkstemp template, lowest_free_fd (os_fds s))].
Proof. unfold created. fields. reflexivity. Qed.

Lemma after_creation_trace {A} (k : Z → M A) template s :
  (∀ r, appends (k r)) →
  ∃ res rest,
    os_trace ((unlink (fill_template template (os_suffix s)) ≫= k) (created template s)).2
    = os_trace s ++ (Mkstemp template, lowest_free_fd (os_fds s))
        :: (Unlink (fill_template template (os_suffix s)), res) :: rest ∧
    Forall (λ c, is_mkstemp c.1 = false) rest.
Proof.
  intros Hk. unfold mbind, M_bind.
  destruct (unlink_trace (fill_template template (os_suffix s)) (created template s))
    as (res & T & R).
  destruct (unlink _ _) as [r3 s3]. cbn [fst snd] in *. subst r3.
  destruct (Hk res s3) as (rest & T' & F).
  exists res, rest. rewrite T', T, created_trace, <- !app_assoc. done.
Qed.

Lemma create_trace_shape capacity s :
  ∃ calls, os_trace (create_memory_mapped_files capacity s).2 = os_trace s ++ calls ∧
           creation_order s calls.
Proof.
  unfold create_memory_mapped_files.
  destruct (is_pow_of_two capacity); cbn [negb]; cycle 1.
  { exists []. rewrite app_nil_r. split; [reflexivity | by left]. }
  unfold mbind at 1, M_bind at 1, get_page_size at 1. cbv beta iota.
  destruct (capacity mod _ =? 0); cbn [negb]; cycle 1.
  { exists []. rewrite app_nil_r. split; [reflexivity | by left]. }
  unfold mbind at 1, M_bind at 1.
  fold shm_template tmp_template.
  destruct (mkstemp shm_template s) as [[[fd1 name1]|e] s1] eqn:H1; cycle 1.
  { destruct (mkstemp_returns shm_template s) as [a Ha]. rewrite H1 in Ha. done. }
  match goal with |- context [mbind ?K (if _ then _ else _)] => set (K' := K) end.
  assert (HK : ∀ fd template s0, ∃ res rest,
            os_trace (K' (fd, fill_template template (os_suffix s0))
                         (created template s0)).2
            = os_trace s0 ++ (Mkstemp template, lowest_free_fd (os_fds s0))
                :: (Unlink (fill_template template (os_suffix s0)), res) :: rest ∧
            Forall (λ c, is_mkstemp c.1 = false) rest).
  { intros fd template s0. subst K'. cbv beta iota.
    apply after_creation_trace. intros r. appends. }
  clearbody K'.
  apply mkstemp_inv in H1 as [(Hfd & O1 & -> & -> & ->) | (-> & -> & e & O1 & ->)].
  - destruct (Z.ltb_spec (lowest_free_fd (os_fds s)) 0) as [|_]; [lia|].
    unfold mbind, M_bind, mret, M_ret.
    destruct (HK (lowest_free_fd (os_fds s)) shm_template s) as (res & rest & T & F).
    eexists. split; [exact T|]. right; right.
    exists [], shm_template, (lowest_free_fd (os_fds s)), res, rest.
    split_and!; [by left | done | reflexivity | done].
  - change (-1 <? 0) with true. cbv iota.
    set (s1 := log_call (Mkstemp shm_template) (-1) (with_errno e (pop s))).
    assert (os_trace s1 = os_trace s ++ [(Mkstemp shm_template, -1)]) as T1
      by reflexivity.
    assert (os_suffix s1 = os_suffix s) as Hsuf by reflexivity.
    assert (os_fds s1 = os_fds s) as Hfds by reflexivity.
    clearbody s1.
    unfold mbind at 1, M_bind at 1. unfold mbind at 1, M_bind at 1.
    destruct (mkstemp tmp_template s1) as [[[fd2 name2]|e2] s2] eqn:H2; cycle 1.
    { destruct (mkstemp_returns tmp_template s1) as [a Ha]. rewrite H2 in Ha. done. }
    apply mkstemp_inv in H2 as [(Hfd & O2 & -> & -> & ->) | (-> & -> & e2 & O2 & ->)].
    + destruct (Z.ltb_spec (lowest_free_fd (os_fds s1)) 0) as [|_]; [lia|].
      unfold mret, M_ret.
      destruct (HK (lowest_free_fd (os_fds s1)) tmp_template s1) as (res & rest & T & F).
      eexists. split; [rewrite T, T1, <- app_assoc; reflexivity|]. right; right.
      exists [(Mkstemp shm_template, -1)], tmp_template,
        (lowest_free_fd (os_fds s1)), res, rest.
      rewrite Hsuf. split_and!; [by right | done | reflexivity | done].
    + change (-1 <? 0) with true. cbv iota. unfold throw_errno. fields.
      exists [(Mkstemp shm_template, -1); (Mkstemp tmp_template, -1)].
      split; [|by right; left]. rewrite T1, <- app_assoc. reflexivity.
Qed.

(** *** What is left after the construction *)

(** C4, as stated, fails: constructing a ring of 4096 bytes in a fresh
    process succeeds and leaves exactly the descriptors that were open
    before; the one of the backing file has been closed. *)
Lemma descriptor_does_not_persist : ¬ descriptor_persists 4096 (boot []).
Proof.
  intros H.
  assert (create_memory_mapped_files 4096 (boot [])
          = (Ret (boot_base, nullptr), (create_memory_mapped_files 4096 (boot [])).2))
    as E by (vm_compute; reflexivity).
  destruct (H _ _ _ E) as (fd & Hclosed & Hopen).
  assert (os_fds (create_memory_mapped_files 4096 (boot [])).2 = os_fds (boot []))
    as Hfds by (vm_compute; reflexivity).
  rewrite Hfds, Hclosed in Hopen. by destruct Hopen.
Qed.

(** C4, amended.  The calls [create_memory_mapped_files] makes begin with
    [mkstemp] under /dev/shm; [mkstemp] under /tmp is called only after
    that one failed; the call after the [mkstemp] that made the file is the
    [unlink] of that file.  After a construction that succeeds the file has
    no name and no descriptor: the descriptor has been closed, and what
    persists are the two mappings of the file (whose length is the
    capacity). *)
Theorem create_backing_file capacity s r s' :
  0 ≤ os_mmap_hint s → 0 ≤ capacity < 2 ^ 64 →
  create_memory_mapped_files capacity s = (r, s') →
  (∃ calls, os_trace s' = os_trace s ++ calls ∧ creation_order s calls)
  ∧ ∀ base p, r = Ret (base, p) →
      ∃ attempt template fd ino,
        let name := fill_template template (os_suffix s) in
        (attempt = [] ∧ template = shm_template
         ∨ attempt = [(Mkstemp shm_template, -1)] ∧ template = tmp_template) ∧
        os_trace s' = os_trace s ++ attempt
                        ++ construction_calls template fd name capacity base ∧
        os_dir s' !! name = None ∧
        os_fds s' !! fd = None ∧
        os_inodes s' !! ino = Some (Inode capacity ∅) ∧
        (∀ a, base ≤ a < base + capacity →
           find_layer (os_vm s') a
           = Some (Mapped base capacity rw (FilePrivate ino 0) ∅)) ∧
        (∀ a, base + capacity ≤ a < base + 2 * capacity →
           find_layer (os_vm s') a
           = Some (Mapped (base + capacity) capacity rw (FilePrivate ino 0) ∅)).
Proof.
  intros Hh Hc H. split.
  { destruct (create_trace_shape capacity s) as (calls & T & O).
    rewrite H in T. eauto. }
  intros base p ->.
  apply create_success_inv in H
    as (template & s0 & Hs0 & -> & _ & -> & Hpos & Hoff & _); [|done].
  destruct (size_t_capacity capacity) as (_ & Hsz & Htw); [lia | done |].
  assert (∃ attempt,
            (attempt = [] ∧ template = shm_template
             ∨ attempt = [(Mkstemp shm_template, -1)] ∧ template = tmp_template) ∧
            os_trace s0 = os_trace s ++ attempt ∧ os_suffix s0 = os_suffix s)
    as (attempt & Hatt & T0 & Hsuf).
  { destruct Hs0 as [(-> & -> & _)|(-> & e & _ & ->)].
    - exists []. rewrite app_nil_r. split_and!; [by left | done..].
    - exists [(Mkstemp shm_template, -1)]. split_and!; [by right | done..]. }
  exists attempt, template, (lowest_free_fd (os_fds s0)), (fresh_inode (os_inodes s0)).
  cbv zeta. rewrite <- Hsuf. split_and!.
  - exact Hatt.
  - unfold constructed, construction_calls; fields.
    rewrite T0, Hsz, Htw, <- app_assoc. reflexivity.
  - unfold constructed; fields. apply lookup_delete_eq.
  - unfold constructed; fields. apply lookup_delete_eq.
  - rewrite constructed_inode, Hsz. reflexivity.
  - intros a Ha. unfold constructed; fields.
    rewrite find_layer_miss by (apply not_covers_iff; lia).
    apply find_layer_hit, covers_iff. lia.
  - intros a Ha. unfold constructed; fields.
    apply find_layer_hit, covers_iff. lia.
Qed.

Lemma create_backing_file_witness :
  (∃ calls, os_trace (create_memory_mapped_files 4096 (boot [Fails EACCES])).2
            = os_trace (boot [Fails EACCES]) ++ calls ∧
            creation_order (boot [Fails EACCES]) calls)
  ∧ ∃ attempt template fd ino,
      (attempt = [] ∧ template = shm_template
       ∨ attempt = [(Mkstemp shm_template, -1)] ∧ template = tmp_template) ∧
      os_trace (create_memory_mapped_files 4096 (boot [Fails EACCES])).2
      = os_trace (boot [Fails EACCES]) ++ attempt
          ++ construction_calls template fd
               (fill_template template (os_suffix (boot [Fails EACCES])))
               4096 boot_base ∧
      os_dir (create_memory_mapped_files 4096 (boot [Fails EACCES])).2
        !! fill_template template (os_suffix (boot [Fails EACCES])) = None ∧
      os_fds (create_memory_mapped_files 4096 (boot [Fails EACCES])).2 !! fd = None ∧
      os_inodes (create_memory_mapped_files 4096 (boot [Fails EACCES])).2 !! ino
      = Some (Inode 4096 ∅) ∧
      (∀ a, boot_base ≤ a < boot_base + 4096 →
         find_layer (os_vm (create_memory_mapped_files 4096 (boot [Fails EACCES])).2) a
         = Some (Mapped boot_base 4096 rw (FilePrivate ino 0) ∅)) ∧
      (∀ a, boot_base + 4096 ≤ a < boot_base + 2 * 4096 →
         find_layer (os_vm (create_memory_mapped_files 4096 (boot [Fails EACCES])).2) a
         = Some (Mapped (boot_base + 4096) 4096 rw (FilePrivate ino 0) ∅)).
Proof.
  destruct (create_backing_file 4096 (boot [Fails EACCES])
              (Ret (boot_base, nullptr))
              (create_memory_mapped_files 4096 (boot [Fails EACCES])).2)
    as [Horder Hleft].
  - vm_compute. discriminate.
  - split; [vm_compute; discriminate | reflexivity].
  - vm_compute. reflexivity.
  - split; [exact Horder | exact (Hleft boot_base nullptr eq_refl)].
Defined.

Ltac nothing_mapped :=
  let a := fresh "a" in
  intros a; unfold mapped, find_layer; cbn [os_vm find layer_covers];
  repeat match goal with
  | |- context [?x <=? ?y] => destruct (Z.leb_spec x y); cbn [andb]; try lia
  | |- context [?x <? ?y] => destruct (Z.ltb_spec x y); cbn [andb]; try lia
  end; reflexivity.

(** C3. In a fresh process in which [mkstemp] succeeds and [unlink] then
    fails, [create_memory_mapped_files] throws the error of [unlink] after
    two system calls: descriptor 3, which [mkstemp] returned, is still
    open, and [close] has not been called. *)
Theorem create_leaks_descriptor_when_unlink_fails :
  ∃ s', create_memory_mapped_files 4096 (boot [Succeeds; Fails EACCES])
        = (Throw (system_error EACCES), s') ∧
    os_trace s' = [(Mkstemp shm_template, 3); (Unlink "/dev/shm/quill-a1B2c3", -1)] ∧
    os_fds (boot [Succeeds; Fails EACCES]) !! 3 = None ∧
    os_fds s' !! 3 = Some 0%nat.
Proof.
  eexists. split; [vm_compute; reflexivity|].
  split_and!; vm_compute; reflexivity.
Qed.

(** The branches next to it do release what they took. *)
Example ftruncate_fails_released :
  ∃ s', create_memory_mapped_files 4096 (boot [Succeeds; Succeeds; Fails EINTR])
        = (Throw (system_error EINTR), s') ∧
        released (boot [Succeeds; Succeeds; Fails EINTR]) s'.
Proof.
  eexists. split; [vm_compute; reflexivity|].
  split; [vm_compute; reflexivity | nothing_mapped].
Qed.

Example reserve_fails_released :
  ∃ s', create_memory_mapped_files 4096
          (boot [Succeeds; Succeeds; Succeeds; Fails ENOMEM])
        = (Throw (system_error ENOMEM), s') ∧
        released (boot [Succeeds; Succeeds; Succeeds; Fails ENOMEM]) s'.
Proof.
  eexists. split; [vm_compute; reflexivity|].
  split; [vm_compute; reflexivity | nothing_mapped].
Qed.

Example first_mapping_fails_released :
  ∃ s', create_memory_mapped_files 4096
          (boot [Succeeds; Succeeds; Succeeds; Succeeds; Fails ENOMEM])
        = (Throw (system_error ENOMEM), s') ∧
        released (boot [Succeeds; Succeeds; Succeeds; Succeeds; Fails ENOMEM]) s'.
Proof.
  eexists. split; [vm_compute; reflexivity|].
  split; [vm_compute; reflexivity | nothing_mapped].
Qed.

Example second_mapping_fails_released :
  ∃ s', create_memory_mapped_files 4096
          (boot [Succeeds; Succeeds; Succeeds; Succeeds; Succeeds; Fails ENOMEM])
        = (Throw (system_error ENOMEM), s') ∧
        released
          (boot [Succeeds; Succeeds; Succeeds; Succeeds; Succeeds; Fails ENOMEM]) s'.
Proof.
  eexists. split; [vm_compute; reflexivity|].
  split; [vm_compute; reflexivity | nothing_mapped].
Qed.

Example close_fails_released :
  ∃ s', create_memory_mapped_files 4096
          (boot [Succeeds; Succeeds; Succeeds; Succeeds; Succeeds; Succeeds;
                 Fails EINTR])
        = (Throw (system_error EINTR), s') ∧
        released
          (boot [Succeeds; Succeeds; Succeeds; Succeeds; Succeeds; Succeeds;
                 Fails EINTR]) s'.
Proof.
  eexists. split; [vm_compute; reflexivity|].
  split; [vm_compute; reflexivity | nothing_mapped].
Qed.

(** *** Destruction *)

(** C10. With a null base address [destroy_memory_mapped_files] does
    nothing at all.  Otherwise it makes one system call, [munmap] of the
    [2 * capacity] bytes from the base address: after it no address of
    either half is mapped, every other address is as before, and so are the
    descriptors. *)
Theorem destroy_unmaps_once pointer_pair capacity s :
  0 ≤ capacity < 2 ^ 63 →
  (pointer_pair.1 = nullptr →
   destroy_memory_mapped_files pointer_pair capacity s = (Ret tt, s))
  ∧ (pointer_pair.1 ≠ nullptr →
     ∃ s', destroy_memory_mapped_files pointer_pair capacity s = (Ret tt, s') ∧
       os_trace s' = os_trace s ++ [(Munmap pointer_pair.1 (2 * capacity), 0)] ∧
       (∀ a, pointer_pair.1 ≤ a < pointer_pair.1 + capacity → mapped s' a = false) ∧
       (∀ a, pointer_pair.1 + capacity ≤ a < pointer_pair.1 + 2 * capacity →
          mapped s' a = false) ∧
       (∀ a, ¬ (pointer_pair.1 ≤ a < pointer_pair.1 + 2 * capacity) →
          mapped s' a = mapped s a) ∧
       os_fds s' = os_fds s ∧ os_dir s' = os_dir s ∧ os_inodes s' = os_inodes s).
Proof.
  intros Hc. unfold destroy_memory_mapped_files.
  assert (twice capacity = 2 * capacity) as ->.
  { unfold twice. apply Z.mod_small. lia. }
  split.
  - intros ->. reflexivity.
  - intros Hbase. apply Z.eqb_neq in Hbase. rewrite Hbase.
    eexists. split; [reflexivity|]. cbn [fst snd].
    split_and!; try reflexivity.
    + intros a Ha. unfold mapped. fields.
      rewrite find_layer_hit; [done | apply covers_iff; lia].
    + intros a Ha. unfold mapped. fields.
      rewrite find_layer_hit; [done | apply covers_iff; lia].
    + intros a Ha. unfold mapped. fields.
      rewrite find_layer_miss; [done | by apply not_covers_iff].
Qed.

Lemma destroy_unmaps_once_witness :
  destroy_memory_mapped_files (nullptr, nullptr) 4096
    (create_memory_mapped_files 4096 (boot [])).2
  = (Ret tt, (create_memory_mapped_files 4096 (boot [])).2)
  ∧ ∃ s', destroy_memory_mapped_files (boot_base, nullptr) 4096
            (create_memory_mapped_files 4096 (boot [])).2 = (Ret tt, s') ∧
      os_trace s' = os_trace (create_memory_mapped_files 4096 (boot [])).2
                      ++ [(Munmap boot_base (2 * 4096), 0)] ∧
      (∀ a, boot_base ≤ a < boot_base + 4096 → mapped s' a = false) ∧
      (∀ a, boot_base + 4096 ≤ a < boot_base + 2 * 4096 → mapped s' a = false) ∧
      (∀ a, ¬ (boot_base ≤ a < boot_base + 2 * 4096) →
         mapped s' a = mapped (create_memory_mapped_files 4096 (boot [])).2 a) ∧
      os_fds s' = os_fds (create_memory_mapped_files 4096 (boot [])).2 ∧
      os_dir s' = os_dir (create_memory_mapped_files 4096 (boot [])).2 ∧
      os_inodes s' = os_inodes (create_memory_mapped_files 4096 (boot [])).2.
Proof.
  split.
  - apply (destroy_unmaps_once (nullptr, nullptr) 4096); [lia | reflexivity].
  - apply (destroy_unmaps_once (boot_base, nullptr) 4096); [lia | discriminate].
Defined.

(** A ring that was constructed and then destroyed leaves nothing mapped. *)
Example create_then_destroy :
  ∃ s1 s2,
    create_memory_mapped_files 4096 (boot []) = (Ret (boot_base, nullptr), s1) ∧
    destroy_memory_mapped_files (boot_base, nullptr) 4096 s1 = (Ret tt, s2) ∧
    released (boot []) s2.
Proof.
  eexists _, _. split; [vm_compute; reflexivity|].
  split; [vm_compute; reflexivity|].
  split; [vm_compute; reflexivity | nothing_mapped].
Qed.

(** *** The capacities that pass the checks *)

(** X1. On a machine whose page size is a power of two, the capacities
    that pass the two checks are the powers of two from the page size up.
    A capacity that is not a power of two is refused with "capacity needs to
    be power of two" (also when it is a multiple of the page size), a power
    of two below the page size with "capacity needs to be multiple of page
    size"; either way the process is left as it was. *)
Theorem create_accepts_powers_of_two_from_page_size capacity s :
  let page_size := os_pagesize s mod 2 ^ 32 in
  power_of_two page_size →
  (¬ power_of_two capacity →
   create_memory_mapped_files capacity s
   = (Throw (runtime_error "capacity needs to be power of two"), s))
  ∧ (power_of_two capacity → capacity < page_size →
     create_memory_mapped_files capacity s
     = (Throw (runtime_error "capacity needs to be multiple of page size"), s))
  ∧ (power_of_two capacity → page_size ≤ capacity →
     ∀ what, (create_memory_mapped_files capacity s).1 ≠ Throw (runtime_error what)).
Proof.
  intros page_size (m & Hm & Hpage). split_and!.
  - intros Hn. apply is_pow_of_two_false in Hn.
    unfold create_memory_mapped_files. rewrite Hn. reflexivity.
  - intros Hp Hlt. pose proof Hp as (k & Hk & ->).
    apply is_pow_of_two_spec in Hp.
    unfold create_memory_mapped_files. rewrite Hp. cbn [negb].
    unfold mbind at 1, M_bind at 1, get_page_size at 1. cbv beta iota.
    fold page_size. rewrite Hpage in *.
    rewrite Z.mod_small; cycle 1.
    { split; [apply Z.pow_nonneg; lia | done]. }
    assert (0 < 2 ^ k) by (apply Z.pow_pos_nonneg; lia).
    destruct (Z.eqb_spec (2 ^ k) 0); [lia | reflexivity].
  - intros Hp Hle what. pose proof Hp as (k & Hk & ->).
    apply create_throws_invalid_only_at_checks; [by apply is_pow_of_two_spec|].
    fold page_size. rewrite Hpage in *. apply Z.eqb_eq.
    assert (m ≤ k) by (apply (Z.pow_le_mono_r_iff 2); lia).
    replace k with ((k - m) + m) by lia. rewrite Z.pow_add_r by lia.
    apply Z.mod_mul. apply Z.pow_nonzero; lia.
Qed.

Lemma create_accepts_powers_of_two_from_page_size_witness :
  create_memory_mapped_files 12288 (boot [])
  = (Throw (runtime_error "capacity needs to be power of two"), boot [])
  ∧ create_memory_mapped_files 2048 (boot [])
    = (Throw (runtime_error "capacity needs to be multiple of page size"), boot [])
  ∧ ∀ what, (create_memory_mapped_files 4096 (boot [])).1 ≠ Throw (runtime_error what).
Proof.
  destruct (create_accepts_powers_of_two_from_page_size 12288 (boot []))
    as (H1 & _ & _); [exists 12; split; [lia | reflexivity]|].
  destruct (create_accepts_powers_of_two_from_page_size 2048 (boot []))
    as (_ & H2 & _); [exists 12; split; [lia | reflexivity]|].
  destruct (create_accepts_powers_of_two_from_page_size 4096 (boot []))
    as (_ & _ & H3); [exists 12; split; [lia | reflexivity]|].
  split_and!.
  - apply H1. apply is_pow_of_two_false. reflexivity.
  - apply H2; [exists 11; split; [lia | reflexivity] | reflexivity].
  - apply H3; [exists 12; split; [lia | reflexivity] | discriminate].
Defined.

Lemma pow2_not_multiple_of_max_uint32 k :
  0 ≤ k < 64 → 2 ^ k mod 4294967295 ≠ 0.
Proof.
  intros Hk.
  assert (forallb (λ n, negb (2 ^ Z.of_nat n mod 4294967295 =? 0)) (seq 0 64) = true)
    as Hall by (vm_compute; reflexivity).
  rewrite forallb_forall in Hall.
  specialize (Hall (Z.to_nat k)). rewrite Z2Nat.id in Hall by lia.
  apply negb_true_iff, Z.eqb_neq in Hall; [done|].
  apply in_seq. lia.
Qed.

(** X2. [get_page_size] stores what [sysconf] returns in a [uint32_t]: when
    [sysconf] fails with -1 the page size is [2^32 - 1], of which no power
    of two is a multiple, and [create_memory_mapped_files] refuses every
    capacity before it makes a system call. *)
Theorem create_refuses_all_when_sysconf_fails capacity s :
  os_pagesize s = -1 → 0 ≤ capacity < 2 ^ 64 →
  ∃ what, create_memory_mapped_files capacity s = (Throw (runtime_error what), s).
Proof.
  intros Hps Hc. unfold create_memory_mapped_files.
  destruct (is_pow_of_two capacity) eqn:Hp; cbn [negb]; [|by eexists].
  unfold mbind at 1, M_bind at 1, get_page_size at 1. cbv beta iota.
  rewrite Hps. change (-1 mod 2 ^ 32) with 4294967295.
  apply is_pow_of_two_spec in Hp as (k & Hk & ->).
  assert (k < 64) by (apply (Z.pow_lt_mono_r_iff 2); lia).
  destruct (Z.eqb_spec (2 ^ k mod 4294967295) 0) as [E|_]; cbn [negb]; [|by eexists].
  by apply pow2_not_multiple_of_max_uint32 in E.
Qed.

Lemma create_refuses_all_when_sysconf_fails_witness :
  ∃ what, create_memory_mapped_files 4096 boot_without_page_size
          = (Throw (runtime_error what), boot_without_page_size).
Proof.
  apply (create_refuses_all_when_sysconf_fails 4096 boot_without_page_size).
  - reflexivity.
  - lia.
Defined.

(** *** What a failed construction leaves behind *)

Lemma lowest_free_fd_free (fds : gmap Z nat) : fds !! lowest_free_fd fds = None.
Proof.
  unfold lowest_free_fd.
  destruct (find _ _) as [n|] eqn:E.
  - apply find_some in E as [_ E]. by apply bool_decide_eq_true in E.
  - exfalso.
    assert (list_to_set (Z.of_nat <$> seq 0 (S (size fds))) ⊆ dom fds) as Hsub.
    { intros k Hk. apply elem_of_list_to_set in Hk.
      apply elem_of_dom. destruct (fds !! k) eqn:Ek; [eauto|].
      apply list_elem_of_In in Hk.
      pose proof (find_none _ _ E k Hk) as Hn. simpl in Hn.
      apply bool_decide_eq_false in Hn. done. }
    apply subseteq_size in Hsub. rewrite size_dom in Hsub.
    rewrite size_list_to_set in Hsub.
    + rewrite length_fmap, length_seq in Hsub. lia.
    + apply NoDup_fmap; [apply _ | apply NoDup_seq].
Qed.

Lemma stacked_refl addr len vm : stacked addr len vm vm.
Proof. by exists []. Qed.

Lemma stacked_cons addr len l vm vm0 :
  within addr len l → stacked addr len vm vm0 → stacked addr len (l :: vm) vm0.
Proof. intros Hl (ls & -> & Hls). exists (l :: ls). by split; [|constructor]. Qed.

Lemma mapped_vm s s' a : os_vm s' = os_vm s → mapped s' a = mapped s a.
Proof. unfold mapped. by intros ->. Qed.

Lemma find_layer_stacked addr len vm vm0 a :
  stacked addr len vm vm0 → ¬ (addr ≤ a < addr + len) →
  find_layer vm a = find_layer vm0 a.
Proof.
  intros (ls & -> & Hls) Ha. induction Hls as [|l ls Hl _ IH]; [done|].
  rewrite <- app_comm_cons, find_layer_miss; [done|].
  apply not_covers_iff. destruct l; simpl in Hl; lia.
Qed.

(** What is mapped after a range has been unmapped over layers that lay
    inside it was mapped before them. *)
Lemma mapped_under_hole s s' addr len vm a :
  os_vm s' = Hole addr len :: vm → stacked addr len vm (os_vm s) →
  mapped s' a = true → mapped s a = true.
Proof.
  intros Hvm Hst. unfold mapped. rewrite Hvm.
  destruct (decide (addr ≤ a < addr + len)) as [Hin|Hout].
  - rewrite find_layer_hit by (apply covers_iff; done). done.
  - rewrite find_layer_miss by (apply not_covers_iff; done).
    by rewrite (find_layer_stacked _ _ _ _ _ Hst Hout).
Qed.

Lemma unlink_frame path s r s1 :
  unlink path s = (Ret r, s1) →
  os_fds s1 = os_fds s ∧ os_vm s1 = os_vm s ∧ os_mmap_hint s1 = os_mmap_hint s ∧
  os_trace s1 = os_trace s ++ [(Unlink path, r)].
Proof.
  unfold unlink, next_outcome.
  destruct (hd Succeeds (os_script s)); [destruct (os_dir (pop s) !! path)|];
    intros [= <- <-]; done.
Qed.

Lemma ftruncate_frame fd len s r s1 :
  ftruncate fd len s = (Ret r, s1) →
  os_fds s1 = os_fds s ∧ os_vm s1 = os_vm s ∧ os_mmap_hint s1 = os_mmap_hint s ∧
  (r ≠ -1 → 0 ≤ len).
Proof.
  unfold ftruncate, next_outcome.
  destruct (hd Succeeds (os_script s));
    [destruct (os_fds (pop s) !! fd); [destruct (len <? 0) eqn:E|]|];
    intros [= <- <-]; split_and!; try done.
  intros _. by apply Z.ltb_ge in E.
Qed.

(** [mmap] leaves the descriptors alone; it fails and maps nothing, or maps
    [len] bytes where it says: at [addr] under [MAP_FIXED], at the kernel's
    choice otherwise. *)
Lemma mmap_frame addr len prot flags fd off s r s1 :
  mmap addr len prot flags fd off s = (Ret r, s1) →
  os_fds s1 = os_fds s ∧
  ((r = MAP_FAILED ∧ os_vm s1 = os_vm s)
   ∨ (0 < len ∧ r = (if has_flag flags MAP_FIXED then addr else os_mmap_hint s) ∧
      ∃ back, os_vm s1 = Mapped r len prot back ∅ :: os_vm s)).
Proof.
  unfold mmap, next_outcome.
  destruct (hd Succeeds (os_script s)); [|intros [= <- <-]; split; [done | by left]].
  destruct (len <=? 0) eqn:El; [intros [= <- <-]; split; [done | by left]|].
  apply Z.leb_gt in El.
  destruct (has_flag flags MAP_FIXED), (has_flag flags MAP_ANONYMOUS);
    try (intros [= <- <-]; split; [done | right; split_and!; [done | done | by eexists]]).
  all: fields; destruct (os_fds s !! fd);
    [|intros [= <- <-]; split; [done | by left]].
  all: destruct (has_flag flags MAP_SHARED), (has_flag flags MAP_PRIVATE);
    intros [= <- <-]; split; try done;
    first [by left | right; split_and!; [done | done | by eexists]].
Qed.

Lemma munmap_frame addr len s r s1 :
  munmap addr len s = (Ret r, s1) →
  os_fds s1 = os_fds s ∧ os_vm s1 = Hole addr len :: os_vm s.
Proof. by intros [= <- <-]. Qed.

Lemma close_frame fd s r s1 :
  close fd s = (Ret r, s1) →
  os_fds s1 = delete fd (os_fds s) ∧ os_vm s1 = os_vm s.
Proof.
  unfold close, next_outcome. fields.
  destruct (os_fds s !! fd) eqn:E.
  - destruct (hd Succeeds (os_script s)); intros [= <- <-]; done.
  - intros [= <- <-]. fields. by rewrite delete_id.
Qed.

Lemma returns_not_throw {A} (m : M A) s e s' : returns m → m s ≠ (Throw e, s').
Proof. intros H E. destruct (H s) as [a Ha]. rewrite E in Ha. done. Qed.

Ltac call H r s1 Hr :=
  apply bind_throw_inv in H as [H | (r & s1 & Hr & H)];
  [exfalso; revert H; apply returns_not_throw; auto with ose|].

Ltac thrown H := unfold throw_errno in H; injection H as <- <-.

(** The descriptor table after [mkstemp] (and the fallback) made the file. *)
Lemma temporary_file_opened s fd1 n1 s1 fd name s2 :
  mkstemp "/dev/shm/quill-XXXXXX" s = (Ret (fd1, n1), s1) →
  (if fd1 <? 0
   then '(fd, tmp_path) ← mkstemp "/tmp/quill-XXXXXX";
        if fd <? 0 then throw_errno else mret (fd, tmp_path)
   else mret (fd1, n1)) s1 = (Ret (fd, name), s2) →
  os_fds s !! fd = None ∧ os_vm s2 = os_vm s ∧ os_mmap_hint s2 = os_mmap_hint s ∧
  ∃ ino, os_fds s2 = <[fd:=ino]> (os_fds s).
Proof.
  intros H1 H2. destruct (fd1 <? 0) eqn:E1.
  - apply Z.ltb_lt in E1.
    apply mkstemp_inv in H1 as [(? & _)|(_ & _ & e & _ & ->)]; [lia|].
    apply bind_ret_inv in H2 as ([fd2 n2] & s2' & H2 & H).
    destruct (fd2 <? 0) eqn:E2; [discriminate|]. apply Z.ltb_ge in E2.
    injection H as -> -> ->.
    apply mkstemp_inv in H2 as [(_ & _ & -> & _ & ->)|(? & _)]; [|lia].
    unfold created. fields. split_and!; [apply lowest_free_fd_free | done | done | by eexists].
  - apply Z.ltb_ge in E1. injection H2 as -> -> ->.
    apply mkstemp_inv in H1 as [(_ & _ & -> & _ & ->)|(? & _)]; [|lia].
    unfold created. fields. split_and!; [apply lowest_free_fd_free | done | done | by eexists].
Qed.

(** X3. Whatever the system calls do, a construction that throws leaves
    nothing mapped that was not mapped before; and it leaves the descriptors
    that were open before and no other, unless the last call it made was the
    [unlink] that failed. *)
Theorem create_failure_releases capacity s e s' :
  0 ≤ capacity < 2 ^ 64 → 0 ≤ os_mmap_hint s →
  create_memory_mapped_files capacity s = (Throw e, s') →
  (∀ a, mapped s' a = true → mapped s a = true)
  ∧ (os_fds s' = os_fds s ∨ ∃ path, last (os_trace s') = Some (Unlink path, -1)).
Proof.
  intros Hc Hhint. unfold create_memory_mapped_files.
  destruct (is_pow_of_two capacity) eqn:Hp; cbn [negb];
    [|intros [= <- <-]; split; [done | by left]].
  unfold mbind at 1, M_bind at 1, get_page_size at 1. cbv beta iota.
  destruct (capacity mod _ =? 0) eqn:Hm; cbn [negb];
    [|intros [= <- <-]; split; [done | by left]].
  assert (0 < capacity) as Hpos.
  { unfold is_pow_of_two in Hp. apply andb_true_iff in Hp as [Hp _]. by apply Z.ltb_lt. }
  intros H.
  call H p1 s1 H1. destruct p1 as [fd1 n1].
  apply bind_throw_inv in H as [H | ([fd name] & s2 & H2 & H)].
  { (* neither directory gave a file *)
    destruct (fd1 <? 0) eqn:E1; [|discriminate]. apply Z.ltb_lt in E1.
    apply mkstemp_inv in H1 as [(? & _)|(_ & _ & e1 & _ & ->)]; [lia|].
    call H p2 s2 H2. destruct p2 as [fd2 n2].
    destruct (fd2 <? 0) eqn:E2; [|discriminate]. apply Z.ltb_lt in E2.
    thrown H.
    apply mkstemp_inv in H2 as [(? & _)|(_ & _ & e2 & _ & ->)]; [lia|].
    split; [intros a; by rewrite (mapped_vm s) | by left]. }
  destruct (temporary_file_opened _ _ _ _ _ _ _ H1 H2)
    as (Hfree & Hvm2 & Hh2 & ino & Hfds2).
  clear H1 H2.
  call H r3 s3 H3. apply unlink_frame in H3 as (Hfds3 & Hvm3 & Hh3 & Ht3).
  destruct (r3 =? -1) eqn:E3.
  { thrown H. apply Z.eqb_eq in E3. subst r3. split.
    - intros a. rewrite (mapped_vm s); [done | congruence].
    - right. eexists. rewrite Ht3. apply last_snoc. }
  assert (∀ s5 s6 r, close fd s5 = (Ret r, s6) → os_fds s5 = os_fds s3 →
            os_fds s6 = os_fds s) as Hclose.
  { intros s5 s6 r Hcl Hsame. apply close_frame in Hcl as [-> _].
    rewrite Hsame, Hfds3, Hfds2. by apply delete_insert_id. }
  call H r4 s4 H4. apply ftruncate_frame in H4 as (Hfds4 & Hvm4 & Hh4 & Hlen).
  destruct (r4 =? -1) eqn:E4.
  { call H r5 s5 H5. thrown H. split.
    - intros a. rewrite (mapped_vm s); [done|].
      apply close_frame in H5 as [_ ->]. congruence.
    - left. by eapply Hclose. }
  apply Z.eqb_neq in E4. specialize (Hlen E4).
  assert (capacity < 2 ^ 63) as Hsmall.
  { unfold to_off_t in Hlen. destruct (Z.ltb_spec capacity (2 ^ 63)); lia. }
  assert (twice capacity = 2 * capacity) as Htw.
  { unfold twice. apply Z.mod_small. lia. }
  rewrite Htw in H.
  call H address s5 H5. apply mmap_frame in H5 as (Hfds5 & Hvm5).
  change (has_flag MMAP_FLAGS MAP_FIXED) with false in Hvm5. cbv iota in Hvm5.
  destruct (address =? MAP_FAILED) eqn:E5.
  { call H r6 s6 H6. thrown H. apply Z.eqb_eq in E5. split.
    - intros a. apply close_frame in H6 as [_ Hvm6].
      destruct Hvm5 as [[_ Hvm5]|(_ & Ha & _)]; [|unfold MAP_FAILED in E5; lia].
      rewrite (mapped_vm s); [done | congruence].
    - left. eapply Hclose; [done | congruence]. }
  apply Z.eqb_neq in E5.
  destruct Hvm5 as [[? _]|(_ & _ & back5 & Hvm5)]; [done|].
  assert (stacked address (2 * capacity) (os_vm s5) (os_vm s)) as Hst5.
  { rewrite Hvm5, Hvm4, Hvm3, Hvm2.
    apply stacked_cons; [simpl; lia | apply stacked_refl]. }
  clear Hvm5 Hvm4 Hvm3 Hvm2.
  assert (∀ s8 s9 r, munmap address (2 * capacity) s8 = (Ret r, s9) →
            stacked address (2 * capacity) (os_vm s8) (os_vm s) →
            ∀ s', os_vm s' = os_vm s9 →
            ∀ a, mapped s' a = true → mapped s a = true) as Hmunmap.
  { intros s8 s9 r Hmu Hst t Ht a. apply munmap_frame in Hmu as [_ Hvm9].
    eapply mapped_under_hole; [|exact Hst]. congruence. }
  call H a6 s6 H6. apply mmap_frame in H6 as (Hfds6 & Hvm6).
  change (has_flag (Z.lor MAP_FIXED MAP_PRIVATE) MAP_FIXED) with true in Hvm6.
  cbv iota in Hvm6.
  assert (stacked address (2 * capacity) (os_vm s6) (os_vm s)) as Hst6.
  { destruct Hvm6 as [[_ ->]|(_ & -> & back6 & ->)]; [done|].
    apply stacked_cons; [simpl; lia | done]. }
  destruct (a6 =? address) eqn:E6; cbn [negb] in H; cycle 1.
  { call H r7 s7 H7. call H r8 s8 H8. thrown H. split.
    - apply close_frame in H8 as [_ Hvm8]. by eapply Hmunmap.
    - left. eapply Hclose; [done|].
      apply munmap_frame in H7 as [-> _]. congruence. }
  clear Hvm6.
  call H a7 s7 H7. apply mmap_frame in H7 as (Hfds7 & Hvm7).
  change (has_flag (Z.lor MAP_FIXED MAP_PRIVATE) MAP_FIXED) with true in Hvm7.
  cbv iota in Hvm7.
  assert (stacked address (2 * capacity) (os_vm s7) (os_vm s)) as Hst7.
  { destruct Hvm7 as [[_ ->]|(_ & -> & back7 & ->)]; [done|].
    apply stacked_cons; [simpl; lia | done]. }
  clear Hvm7.
  destruct (a7 =? address + capacity) eqn:E7; cbn [negb] in H; cycle 1.
  { call H r8 s8 H8. call H r9 s9 H9. thrown H. split.
    - apply close_frame in H9 as [_ Hvm9]. by eapply Hmunmap.
    - left. eapply Hclose; [done|].
      apply munmap_frame in H8 as [-> _]. congruence. }
  call H r8 s8 H8.
  destruct (r8 =? -1) eqn:E8; [|discriminate].
  call H r9 s9 H9. thrown H. split.
  - eapply Hmunmap; [done | | done].
    apply close_frame in H8 as [_ ->]. done.
  - left. apply munmap_frame in H9 as [-> _].
    eapply Hclose; [done | congruence].
Qed.

Lemma create_failure_releases_witness :
  let s := boot [Succeeds; Succeeds; Succeeds; Succeeds; Fails ENOMEM] in
  let s' := (create_memory_mapped_files 4096 s).2 in
  (∀ a, mapped s' a = true → mapped s a = true)
  ∧ (os_fds s' = os_fds s ∨ ∃ path, last (os_trace s') = Some (Unlink path, -1)).
Proof.
  apply (create_failure_releases 4096
           (boot [Succeeds; Succeeds; Succeeds; Succeeds; Fails ENOMEM])
           (system_error ENOMEM)).
  - lia.
  - vm_compute. discriminate.
  - vm_compute. reflexivity.
Defined.

(** X4. The error code of the exception is [errno] as it is read after the
    clean-up calls.  When [ftruncate] fails, [close(fd)] comes before the
    throw: the exception carries the error of [ftruncate] if [close]
    succeeds, and the error of [close] if [close] fails too. *)
Theorem create_reports_errno_after_close capacity s e o rest :
  is_pow_of_two capacity = true →
  capacity mod (os_pagesize s mod 2 ^ 32) = 0 →
  os_script s = Succeeds :: Succeeds :: Fails e :: o :: rest →
  (create_memory_mapped_files capacity s).1
  = Throw (system_error (match o with Succeeds => e | Fails e' => e' end)).
Proof.
  intros Hp Hm Hscript. unfold create_memory_mapped_files.
  rewrite Hp. cbn [negb].
  unfold mbind at 1, M_bind at 1, get_page_size at 1. cbv beta iota.
  rewrite Hm. cbn [negb Z.eqb].
  destruct s as [ps dir inodes fds vm hint suffix errno script trace].
  cbn [os_script] in Hscript. subst script.
  unfold mbind, M_bind, mkstemp, next_outcome. fields. cbn [hd tail]. fields.
  destruct (Z.ltb_spec (lowest_free_fd fds) 0) as [Hneg|_].
  { pose proof (lowest_free_fd_nonneg fds). lia. }
  unfold mret, M_ret, unlink, next_outcome. fields. cbn [hd tail]. fields.
  rewrite lookup_insert_eq. cbn [Z.eqb].
  unfold ftruncate, next_outcome. fields. cbn [hd tail]. fields.
  change (-1 =? -1) with true. cbv iota.
  unfold close, next_outcome. fields. cbn [hd tail]. fields.
  rewrite lookup_insert_eq.
  destruct o; reflexivity.
Qed.

Lemma create_reports_errno_after_close_witness :
  (create_memory_mapped_files 4096 (boot [Succeeds; Succeeds; Fails EINTR; Fails EIO])).1
  = Throw (system_error EIO)
  ∧ (create_memory_mapped_files 4096 (boot [Succeeds; Succeeds; Fails EINTR; Succeeds])).1
    = Throw (system_error EINTR).
Proof.
  split.
  - apply (create_reports_errno_after_close 4096
             (boot [Succeeds; Succeeds; Fails EINTR; Fails EIO]) EINTR (Fails EIO) []);
      reflexivity.
  - apply (create_reports_errno_after_close 4096
             (boot [Succeeds; Succeeds; Fails EINTR; Succeeds]) EINTR Succeeds []);
      reflexivity.
Defined.


(** *** The ring after a construction that succeeded *)

Lemma constructed_reads_zero template capacity s a :
  0 < capacity < 2 ^ 64 → 0 ≤ to_off_t capacity →
  os_mmap_hint s ≤ a < os_mmap_hint s + 2 * capacity →
  load (constructed template capacity s) a = Some 0.
Proof.
  intros Hc Hoff Ha.
  destruct (size_t_capacity capacity Hc Hoff) as (_ & Hsz & _).
  assert (∀ pos, 0 ≤ pos < capacity →
            file_byte (constructed template capacity s) (fresh_inode (os_inodes s)) pos
            = Some 0) as Hfile.
  { intros pos Hpos. unfold file_byte. rewrite constructed_inode, Hsz.
    cbn [i_size i_data]. rewrite lookup_empty.
    destruct (Z.leb_spec 0 pos), (Z.ltb_spec pos capacity); try lia. reflexivity. }
  unfold load.
  change (os_vm (constructed template capacity s))
    with (Mapped (os_mmap_hint s + capacity) capacity rw
            (FilePrivate (fresh_inode (os_inodes s)) 0) ∅
          :: Mapped (os_mmap_hint s) capacity rw
               (FilePrivate (fresh_inode (os_inodes s)) 0) ∅
          :: Mapped (os_mmap_hint s) (twice capacity) PROT_NONE Anon ∅ :: os_vm s).
  destruct (decide (a < os_mmap_hint s + capacity)).
  - rewrite find_layer_miss by (apply not_covers_iff; lia).
    rewrite find_layer_hit by (apply covers_iff; lia).
    rewrite has_flag_rw_read, lookup_empty. apply Hfile. lia.
  - rewrite find_layer_hit by (apply covers_iff; lia).
    rewrite has_flag_rw_read, lookup_empty. apply Hfile. lia.
Qed.

(** X5. After a construction that succeeded every byte of the
    [2 * capacity] bytes from the base address reads 0, and can be written
    and read back. *)
Theorem create_ring_is_zeroed capacity s base p s' a b :
  0 ≤ os_mmap_hint s → 0 ≤ capacity < 2 ^ 64 →
  create_memory_mapped_files capacity s = (Ret (base, p), s') →
  base ≤ a < base + 2 * capacity →
  load s' a = Some 0 ∧ ∃ s1, store s' a b = Some s1 ∧ load s1 a = Some b.
Proof.
  intros Hh Hc H Ha.
  apply create_success_inv in H
    as (template & s0 & _ & -> & _ & -> & Hpos & Hoff & _); [|done].
  split; [apply constructed_reads_zero; [lia | done | done]|].
  destruct (decide (a < os_mmap_hint s0 + capacity)) as [Hlow|Hhigh].
  - destruct (halves_are_private template capacity s0 (a - os_mmap_hint s0) b)
      as [(s1 & Hst & Hld & _) _]; [lia | done | lia |].
    replace (os_mmap_hint s0 + (a - os_mmap_hint s0)) with a in * by lia. eauto.
  - destruct (halves_are_private template capacity s0
                (a - os_mmap_hint s0 - capacity) b)
      as [_ (s1 & Hst & Hld & _)]; [lia | done | lia |].
    replace (os_mmap_hint s0 + capacity + (a - os_mmap_hint s0 - capacity))
      with a in * by lia. eauto.
Qed.

Lemma create_ring_is_zeroed_witness :
  load (create_memory_mapped_files 4096 (boot [])).2 (boot_base + 5000) = Some 0
  ∧ ∃ s1, store (create_memory_mapped_files 4096 (boot [])).2 (boot_base + 5000) 171
          = Some s1 ∧ load s1 (boot_base + 5000) = Some 171.
Proof.
  apply (create_ring_is_zeroed 4096 (boot []) boot_base nullptr).
  - vm_compute. discriminate.
  - lia.
  - vm_compute. reflexivity.
  - unfold boot_base. lia.
Defined.

(** X6. A ring that was constructed and is then destroyed leaves the
    process with the descriptors it had, with nothing mapped that was not
    mapped before, and with no byte of the ring mapped (the kernel never
    places a mapping at address 0, which [destroy_memory_mapped_files]
    takes for "no ring"). *)
Theorem create_then_destroy_releases capacity s base p s1 :
  0 < os_mmap_hint s → 0 ≤ capacity < 2 ^ 64 →
  create_memory_mapped_files capacity s = (Ret (base, p), s1) →
  ∃ s2, destroy_memory_mapped_files (base, p) capacity s1 = (Ret tt, s2) ∧
    os_fds s2 = os_fds s ∧
    (∀ a, mapped s2 a = true → mapped s a = true) ∧
    (∀ a, base ≤ a < base + 2 * capacity → mapped s2 a = false).
Proof.
  intros Hh Hc H.
  apply create_success_inv in H
    as (template & s0 & Hs0 & -> & -> & -> & Hpos & Hoff & _); [|lia].
  destruct (size_t_capacity capacity) as (_ & Hsz & Htw); [lia | done |].
  assert (os_mmap_hint s0 = os_mmap_hint s ∧ os_fds s0 = os_fds s ∧
          os_vm s0 = os_vm s) as (Hh0 & Hfds0 & Hvm0).
  { destruct Hs0 as [(_ & -> & _)|(_ & e & _ & ->)]; split_and!; reflexivity. }
  clear Hs0.
  unfold destroy_memory_mapped_files. cbn [fst].
  destruct (Z.eqb_spec (os_mmap_hint s0) nullptr) as [E|_].
  { unfold nullptr in E. lia. }
  rewrite Htw.
  exists (log_call (Munmap (os_mmap_hint s0) (2 * capacity)) 0
            (with_vm (cons (Hole (os_mmap_hint s0) (2 * capacity)))
               (constructed template capacity s0))).
  split; [reflexivity|].
  split_and!.
  - unfold constructed. fields. rewrite Hfds0.
    apply delete_insert_id. rewrite <- Hfds0. apply lowest_free_fd_free.
  - intros a. eapply mapped_under_hole; [reflexivity|].
    unfold constructed. fields. rewrite <- Hvm0, Htw.
    repeat (apply stacked_cons; [simpl; lia|]). apply stacked_refl.
  - intros a Ha. unfold mapped. fields.
    rewrite find_layer_hit; [reflexivity | apply covers_iff; lia].
Qed.


Lemma create_then_destroy_releases_witness :
  ∃ s2, destroy_memory_mapped_files (boot_base, nullptr) 4096
          (create_memory_mapped_files 4096 (boot [Fails EACCES])).2 = (Ret tt, s2) ∧
    os_fds s2 = os_fds (boot [Fails EACCES]) ∧
    (∀ a, mapped s2 a = true → mapped (boot [Fails EACCES]) a = true) ∧
    (∀ a, boot_base ≤ a < boot_base + 2 * 4096 → mapped s2 a = false).
Proof.
  apply (create_then_destroy_releases 4096 (boot [Fails EACCES]) boot_base nullptr).
  - reflexivity.
  - lia.
  - vm_compute. reflexivity.
Defined.

End OsFacts.

(** ** Facts about [LogManager.cpp] *)

Module LogManagerFacts.

Import LogManager.
Close Scope Z_scope.

Lemma at_entry_inv s : at_entry s → is_running s = true → inv s.
Proof.
  intros (Hc & Hb & He & Hq) Hr.
  assert (¬ pending s) as Hnp.
  { intros (tid & q & Hl & Hin). by eapply Hq. }
  split; rewrite ?Hc, ?Hb; try done.
  - intros _. split_and!; [done | done | by unfold pushes; rewrite He].
  - intros [|]; done.
  - intros [|[|]]; done.
  - rewrite He. intros tid Hin. by apply elem_of_nil in Hin.
Qed.

Lemma pushes_emit e s :
  pushes (emit e s) = pushes s + (if decide (e = Pushed (self s)) then 1 else 0).
Proof.
  unfold pushes, emit. simpl. rewrite filter_app, length_app. f_equal.
  rewrite filter_cons, filter_nil. by destruct (decide _).
Qed.

Lemma sublist_snoc {A} (x y : A) l :
  x ∈ l → [x; y] `sublist_of` l ++ [y].
Proof.
  intros Hx. apply (sublist_app [x] l [y] [y]); [|done].
  by apply singleton_sublist_l.
Qed.

Lemma step_frame a s s' :
  step a s = Some s' →
  is_running s' = is_running s ∧ self s' = self s ∧ capacity s' = capacity s ∧
  policy s' = policy s ∧ worker_threads s' = worker_threads s.
Proof.
  destruct a; simpl.
  - unfold flush_step. repeat case_match; intros; simplify_eq; done.
  - unfold backend_pop. repeat case_match; intros; simplify_eq; done.
  - unfold callback_step. repeat case_match; intros; simplify_eq; done.
  - unfold spurious. repeat case_match; intros; simplify_eq; done.
  - unfold produce, try_emplace. repeat case_match; simpl; intros; simplify_eq.
    all: repeat case_match; simplify_eq; done.
Qed.

Lemma has_command_pop me qs tid r q :
  qs !! tid = Some (r :: q) → has_command me (<[tid:=q]> qs) → has_command me qs.
Proof.
  intros Hq (tid' & q' & Hl & Hin). destruct (decide (tid' = tid)) as [->|Hne].
  - rewrite lookup_insert_eq in Hl. injection Hl as <-.
    exists tid, (r :: q). split; [done | by apply elem_of_cons; right].
  - rewrite lookup_insert_ne in Hl by done. by exists tid', q'.
Qed.

Lemma has_command_front me qs tid q :
  qs !! tid = Some (CommandRecord me :: q) → has_command me qs.
Proof. intros Hq. exists tid, (CommandRecord me :: q). split; [done | by left]. Qed.

Lemma has_command_produce me qs tid r :
  r ≠ CommandRecord me →
  has_command me (<[tid := default [] (qs !! tid) ++ [r]]> qs) → has_command me qs.
Proof.
  intros Hr (tid' & q' & Hl & Hin). destruct (decide (tid' = tid)) as [->|Hne].
  - rewrite lookup_insert_eq in Hl. injection Hl as <-.
    apply elem_of_app in Hin as [Hin|Hin].
    + destruct (qs !! tid) as [q|] eqn:E; simpl in Hin.
      * by exists tid, q.
      * by apply elem_of_nil in Hin.
    + apply list_elem_of_singleton in Hin. congruence.
  - rewrite lookup_insert_ne in Hl by done. by exists tid', q'.
Qed.

Lemma has_command_pop_other me qs tid r q :
  qs !! tid = Some (r :: q) → r ≠ CommandRecord me →
  has_command me qs → has_command me (<[tid:=q]> qs).
Proof.
  intros Hq Hr (tid' & q' & Hl & Hin). destruct (decide (tid' = tid)) as [->|Hne].
  - exists tid, q. rewrite lookup_insert_eq. split; [done|].
    rewrite Hq in Hl. injection Hl as <-.
    apply elem_of_cons in Hin as [Hin|Hin]; [congruence | done].
  - exists tid', q'. by rewrite lookup_insert_ne.
Qed.

Lemma has_command_grow me qs tid r :
  has_command me qs → has_command me (<[tid := default [] (qs !! tid) ++ [r]]> qs).
Proof.
  intros (tid' & q' & Hl & Hin). destruct (decide (tid' = tid)) as [->|Hne].
  - eexists tid, _. rewrite lookup_insert_eq. split; [done|].
    rewrite Hl. simpl. apply elem_of_app. by left.
  - exists tid', q'. by rewrite lookup_insert_ne.
Qed.

Lemma has_command_own me qs q :
  has_command me (<[me := q ++ [CommandRecord me]]> qs).
Proof.
  eexists me, _. rewrite lookup_insert_eq. split; [done|].
  apply elem_of_app. right. by apply list_elem_of_singleton.
Qed.

Ltac unpack :=
  unfold pending, pushes, emit, with_caller, with_done, with_mtx, with_queues,
    with_backend, with_sink, spsc_queue in *;
  cbn [is_running worker_threads policy self queues capacity mtx done caller
       backend sink events early holds_lock negb] in *.

Lemma filter_snoc_other (x : event) (tid : nat) (l : list event) :
  x ≠ Pushed tid →
  length (filter (λ e, e = Pushed tid) (l ++ [x])) = length (filter (λ e, e = Pushed tid) l).
Proof.
  intros Hx. rewrite filter_app, length_app, filter_cons, filter_nil.
  destruct (decide _); [done | simpl; lia].
Qed.

Lemma filter_snoc_pushed (tid : nat) (l : list event) :
  length (filter (λ e, e = Pushed tid) (l ++ [Pushed tid]))
  = S (length (filter (λ e, e = Pushed tid) l)).
Proof.
  rewrite filter_app, length_app, filter_cons, filter_nil.
  destruct (decide _); [simpl; lia | done].
Qed.

Lemma sublist_snoc2 {A} (x y z : A) l :
  [x; y] `sublist_of` l → [x; y; z] `sublist_of` l ++ [z].
Proof. intros H. by apply (sublist_app [x; y] l [z] [z]). Qed.

Lemma sublist_drop_last {A} (x y z : A) l :
  [x; y; z] `sublist_of` l → [x; y] `sublist_of` l.
Proof.
  intros H. etrans; [|exact H]. apply (sublist_inserts_r [z] [x; y] [x; y]). done.
Qed.

Lemma sublist_snoc3 {A} (x y z w : A) l :
  [x; y; z] `sublist_of` l → [x; y; z; w] `sublist_of` l ++ [w].
Proof. intros H. by apply (sublist_app [x; y; z] l [w] [w]). Qed.

Lemma pushed_snoc (tid me : nat) (x : event) (l : list event) :
  (∀ tid, Pushed tid ∈ l → tid = me) →
  (x = Pushed me ∨ ∀ t, x ≠ Pushed t) →
  Pushed tid ∈ l ++ [x] → tid = me.
Proof.
  intros Hl Hx Hin. apply elem_of_app in Hin as [Hin|Hin]; [by apply Hl|].
  apply list_elem_of_singleton in Hin. destruct Hx as [->|Hx]; [congruence|].
  by destruct (Hx tid).
Qed.

(** Uses the premises that hold outright, drops those that cannot. *)
Ltac prep :=
  repeat match goal with
  | H : ?P → _ |- _ =>
      first
        [ let HP := fresh in
          assert (HP : P)
            by first [assumption
                     | clear;
                       first [reflexivity | discriminate | by left | by right
                             | by right; left | by right; right]];
          specialize (H HP); clear HP
        | let HP := fresh in
          assert (HP : P → False)
            by (clear; first [discriminate | by intros [|] | by intros [|[|]]]);
          clear H HP ]
  | H : _ ∧ _ |- _ => destruct H
  end.

Ltac saturate :=
  first
    [ done
    | congruence
    | solve [eauto]
    | solve [rewrite filter_snoc_other by done; eauto]
    | solve [rewrite filter_snoc_pushed; auto with lia]
    | solve [apply elem_of_app; left; eauto]
    | solve [apply elem_of_app; right; apply list_elem_of_singleton; reflexivity]
    | solve [apply sublist_inserts_r; eauto]
    | solve [apply sublist_snoc; eauto]
    | solve [apply sublist_snoc2; eauto]
    | solve [apply sublist_snoc3; eauto]
    | solve [apply sublist_inserts_r; eapply sublist_drop_last; eauto]
    | solve [eapply sublist_drop_last; eauto]
    | solve [left; apply has_command_own]
    | solve [right; apply elem_of_app; right; apply list_elem_of_singleton;
             reflexivity]
    | solve [match goal with
             | Hk : has_command _ _ ∨ _ |- _ ∨ _ =>
                 destruct Hk as [Hk|Hk];
                 [ left;
                   first [ exact Hk
                         | apply has_command_grow; exact Hk
                         | eapply has_command_pop_other;
                             [eassumption | congruence | exact Hk] ]
                 | right; first [exact Hk | apply elem_of_app; left; exact Hk] ]
             end]
    | solve [match goal with
             | Hin : Pushed _ ∈ _ ++ [_] |- _ =>
                 eapply pushed_snoc in Hin;
                   [exact Hin | eassumption | first [by left | by right]]
             end] ].

Ltac settle :=
  first
    [ done
    | congruence
    | solve [intros [|]; congruence]
    | solve [intros [|[|]]; congruence]
    | solve [intros; prep; subst; split_and?; saturate]
    | solve [let Hb := fresh in
             intros Hb;
             repeat match goal with H : _ → _ |- _ => specialize (H Hb) end;
             congruence] ].

Lemma inv_flush_step s s' : inv s → flush_step s = Some s' → inv s'.
Proof.
  intros [Hrun He Hl Hcl Hbl Hcb Hp Hd Hr Hpu Has Hic Hds Hrs Ho Hk] H.
  unfold flush_step in H.
  destruct s as [run wt pol me qs cap m d c b sk ev]. unpack. subst run.
  destruct c; unpack; prep; try done;
    [ | destruct m; [done|]
      | unfold try_emplace in H; destruct (decide _)
      | destruct d
      | destruct m; [done|] ];
    injection H as <-; split; unpack; try settle.
Qed.

Lemma inv_backend_pop tid s s' : inv s → backend_pop tid s = Some s' → inv s'.
Proof.
  intros [Hrun He Hl Hcl Hbl Hcb Hp Hd Hr Hpu Has Hic Hds Hrs Ho Hk] H.
  unfold backend_pop in H.
  destruct s as [run wt pol me qs cap m d c b sk ev]. unpack. subst run.
  destruct b; try done. destruct (qs !! tid) as [[|r q]|] eqn:Hq; try done.
  assert (has_command me (<[tid:=q]> qs) → has_command me qs) as Hpop
    by (by apply has_command_pop with r).
  destruct r as [n|owner]; [|destruct (decide (owner = me)) as [->|Hne]];
    injection H as <-.
  - split; unpack; prep; settle.
  - assert (Pushed me ∈ ev) as Hin.
    { apply Hp. by eapply has_command_front. }
    split; unpack; prep; try settle.
    intros Hc. destruct He as (_ & He & _); [done|].
    destruct He. by eapply has_command_front.
  - split; unpack; prep; settle.
Qed.

Lemma inv_callback_step s s' : inv s → callback_step s = Some s' → inv s'.
Proof.
  intros [Hrun He Hl Hcl Hbl Hcb Hp Hd Hr Hpu Has Hic Hds Hrs Ho Hk] H.
  unfold callback_step in H.
  destruct s as [run wt pol me qs cap m d c b sk ev]. unpack. subst run.
  destruct b; try done; [destruct m; [done|] | | | destruct c];
    injection H as <-.
  all: split; unpack; prep; try settle.
  intros _. destruct c; unpack; prep; try done; by apply Has.
Qed.

Lemma inv_spurious s s' : inv s → spurious s = Some s' → inv s'.
Proof.
  intros [Hrun He Hl Hcl Hbl Hcb Hp Hd Hr Hpu Has Hic Hds Hrs Ho Hk] H. unfold spurious in H.
  destruct s as [run wt pol me qs cap m d c b sk ev]. unpack. subst run.
  destruct c; try done. injection H as <-.
  split; unpack; prep; settle.
Qed.

Lemma produce_inv tid r s s' :
  produce tid r s = Some s' →
  tid ≠ self s ∧ r ≠ CommandRecord (self s) ∧
  length (spsc_queue s tid) < capacity s ∧
  s' = with_queues (<[tid := spsc_queue s tid ++ [r]]> (queues s)) s.
Proof.
  unfold produce, try_emplace. destruct (decide (tid = self s)) as [|Hne]; [done|].
  destruct r as [n|owner]; simpl.
  - destruct (decide (_ < _)) as [Hlt|]; [|done]. simpl. intros [= <-]. done.
  - destruct (decide (owner = tid)) as [->|]; [|done]. simpl.
    destruct (decide (_ < _)) as [Hlt|]; [|done]. simpl. intros [= <-].
    split_and!; [done | congruence | done | done].
Qed.

Lemma inv_produce tid r s s' : inv s → produce tid r s = Some s' → inv s'.
Proof.
  intros [Hrun He Hl Hcl Hbl Hcb Hp Hd Hr Hpu Has Hic Hds Hrs Ho Hk] H.
  apply produce_inv in H as (Hne & Hr' & _ & ->).
  destruct s as [run wt pol me qs cap m d c b sk ev]. unpack. subst run.
  assert (has_command me (<[tid:=default [] (qs !! tid) ++ [r]]> qs)
          → has_command me qs) as Hprod by (by apply has_command_produce).
  split; unpack; prep; settle.
Qed.

Lemma barrier_inv_step a s s' : inv s → step a s = Some s' → inv s'.
Proof.
  destruct a; simpl;
    eauto using inv_flush_step, inv_backend_pop, inv_callback_step,
      inv_spurious, inv_produce.
Qed.

Lemma barrier_inv_run sched s : inv s → inv (run sched s).
Proof.
  revert s. induction sched as [|a sched IH]; intros s Hs; [done|].
  simpl. apply IH. destruct (step a s) as [s'|] eqn:E; [|done].
  by eapply barrier_inv_step.
Qed.

Lemma run_frame sched s :
  is_running (run sched s) = is_running s ∧ self (run sched s) = self s ∧
  capacity (run sched s) = capacity s ∧ policy (run sched s) = policy s ∧
  worker_threads (run sched s) = worker_threads s.
Proof.
  revert s. induction sched as [|a sched IH]; intros s; [done|].
  simpl. destruct (step a s) as [s'|] eqn:E; simpl; [|apply IH].
  destruct (step_frame _ _ _ E) as (<- & <- & <- & <- & <-). apply IH.
Qed.

Example flush_returns :
  caller (run through (example true Block)) = Returned ∧
  sink (run through (example true Block)) = [1; 2; 3] ∧
  events (run through (example true Block))
  = [Pushed 7; Slept; Reached 7; DoneSet (Some Backend); Notified; Return].
Proof. split_and!; reflexivity. Qed.

Lemma example_at_entry running p : at_entry (example running p).
Proof.
  split_and!; [reflexivity..|].
  intros tid q Hl Hin. cbn [example queues] in Hl.
  apply lookup_singleton_Some in Hl as [_ <-].
  repeat (apply elem_of_cons in Hin as [Hin|Hin]; [discriminate|]).
  by apply elem_of_nil in Hin.
Defined.

Lemma idle_step a s t t' : idle s t → step a t = Some t' → idle s t'.
Proof.
  intros (Hc & Hr & Hb & Hs & Hq & Hk & He) E. destruct a; simpl in E.
  - unfold flush_step in E. destruct Hc as [Hc|Hc]; rewrite Hc in E; [|done].
    rewrite Hr in E. injection E as <-. split_and!; simpl; auto.
    intros e Hin. apply elem_of_app in Hin as [Hin|Hin]; [by apply He|].
    right. by apply list_elem_of_singleton in Hin.
  - unfold backend_pop in E. by rewrite Hr in E.
  - unfold callback_step in E. by rewrite Hb in E.
  - unfold spurious in E. destruct Hc as [Hc|Hc]; by rewrite Hc in E.
  - apply produce_inv in E as (Hne & _ & _ & ->).
    split_and!; simpl; auto. rewrite lookup_insert_ne by congruence. done.
Qed.

Lemma idle_run sched s t : idle s t → idle s (run sched t).
Proof.
  revert t. induction sched as [|a sched IH]; intros t Ht; [done|].
  simpl. apply IH. destruct (step a t) as [t'|] eqn:E; [|done].
  by eapply idle_step.
Qed.

(** C8.  Called while the backend worker is not running, [flush] returns
    at its first step: nothing is pushed, the mutex is not touched, no
    ring and no sink changes.  And however the threads interleave from
    there, the caller is never found waiting, its ring holds what it held
    (the events logged before are still on it), and nothing is written to
    or flushed through the sinks. *)
Theorem flush_without_backend s :
  caller s = Entry → is_running s = false → backend s = Poll →
  (∃ s', flush_step s = Some s' ∧ caller s' = Returned ∧
         queues s' = queues s ∧ sink s' = sink s ∧ mtx s' = mtx s ∧
         events s' = events s ++ [Return])
  ∧ ∀ sched,
      let s' := run sched s in
      (caller s' = Entry ∨ caller s' = Returned) ∧
      spsc_queue s' (self s) = spsc_queue s (self s) ∧
      sink s' = sink s ∧
      ∀ e, e ∈ events s' → e ∈ events s ∨ e = Return.
Proof.
  intros Hc Hrun Hb. split.
  { unfold flush_step. rewrite Hc, Hrun. by eexists. }
  intros sched s'.
  destruct (idle_run sched s s) as (Hc' & _ & _ & _ & Hq & Hk & He).
  { split_and!; auto. }
  fold s' in Hc', Hq, Hk, He. split_and!; auto.
  unfold spsc_queue. by rewrite Hq.
Qed.

Lemma flush_without_backend_witness :
  (∃ s', flush_step (example false Block) = Some s' ∧ caller s' = Returned ∧
         queues s' = queues (example false Block) ∧
         sink s' = sink (example false Block) ∧
         mtx s' = mtx (example false Block) ∧
         events s' = events (example false Block) ++ [Return])
  ∧ ∀ sched,
      let s' := run sched (example false Block) in
      (caller s' = Entry ∨ caller s' = Returned) ∧
      spsc_queue s' 7 = [LogRecord 1; LogRecord 2; LogRecord 3] ∧
      sink s' = [] ∧
      ∀ e, e ∈ events s' → e ∈ events (example false Block) ∨ e = Return.
Proof.
  apply (flush_without_backend (example false Block)); reflexivity.
Defined.

(** *** The loop that pushes the command record *)

Lemma step_policy a s p : step a (with_policy p s) = with_policy p <$> step a s.
Proof.
  destruct s as [run wt pol me qs cap m d c b sk ev].
  destruct a; simpl;
    unfold flush_step, backend_pop, callback_step, spurious, produce, try_emplace;
    unpack; simpl.
  - destruct c; simpl; repeat case_match; simplify_eq; done.
  - destruct run, b; simpl; repeat case_match; simplify_eq; done.
  - destruct b; simpl; repeat case_match; simplify_eq; done.
  - destruct c; done.
  - destruct r; simpl; repeat case_match; simplify_eq; done.
Qed.

Lemma run_policy sched s p : run sched (with_policy p s) = with_policy p (run sched s).
Proof.
  revert s. induction sched as [|a sched IH]; intros s; [done|].
  simpl. rewrite step_policy. destruct (step a s) as [s'|]; simpl; apply IH.
Qed.

(** Three attempts fail and change nothing; the backend takes a record off
    the ring; the fourth attempt pushes the command record. *)
Example full_ring_delays p :
  let s3 := run [CallerStep; CallerStep; CallerStep; CallerStep; CallerStep]
              (crowded p) in
  let s4 := run [BackendPop 7; CallerStep] s3 in
  caller s3 = Push ∧ events s3 = [] ∧
  spsc_queue s3 7 = [LogRecord 1; LogRecord 2; LogRecord 3; LogRecord 4] ∧
  caller s4 = Wait ∧ events s4 = [Pushed 7] ∧
  spsc_queue s4 7 = [LogRecord 2; LogRecord 3; LogRecord 4; CommandRecord 7].
Proof. destruct p; split_and!; reflexivity. Qed.

(** C9.  Take any interleaving from a call of [flush] made while the
    backend runs, under either queue-full policy; the policy makes no
    difference to the run.  In the loop, an attempt on a full ring leaves
    everything as it was, the caller still in the loop; an attempt on a
    ring with room puts the command record at the end of the caller's
    ring and leaves the loop.  Before the end of the loop the record has
    not been pushed; after it the record has been pushed exactly once, and
    it lies on a ring until the backend has reached it. *)
Theorem flush_command_never_dropped sched s0 p :
  at_entry s0 → is_running s0 = true →
  let s := run sched (with_policy p s0) in
  s = with_policy p (run sched s0)
  ∧ (caller s = Push → capacity s ≤ length (spsc_queue s (self s)) →
     flush_step s = Some s)
  ∧ (caller s = Push → length (spsc_queue s (self s)) < capacity s →
     ∃ s', flush_step s = Some s' ∧ caller s' = Wait ∧
           spsc_queue s' (self s)
           = spsc_queue s (self s) ++ [CommandRecord (self s)])
  ∧ (early (caller s) = true → pushes s = 0 ∧ ¬ pending s)
  ∧ (early (caller s) = false →
     pushes s = 1 ∧ (pending s ∨ Reached (self s) ∈ events s)).
Proof.
  intros Hentry Hrun s.
  assert (inv s) as Hinv.
  { apply barrier_inv_run, at_entry_inv; [|done].
    destruct Hentry as (? & ? & ? & ?). by split_and!. }
  split_and!.
  - apply run_policy.
  - intros Hc Hfull. unfold flush_step, try_emplace. rewrite Hc.
    destruct (decide _); [lia | done].
  - intros Hc Hroom. unfold flush_step, try_emplace. rewrite Hc.
    destruct (decide _); [|lia]. eexists. split_and!; [done..|].
    unfold spsc_queue. simpl. by rewrite lookup_insert_eq.
  - intros He. destruct (inv_early s Hinv He) as (_ & ? & ?). done.
  - intros He. split; [by apply (inv_late s Hinv) | by apply (inv_kept s Hinv)].
Qed.

Lemma flush_command_never_dropped_witness :
  let s := run [CallerStep; CallerStep; CallerStep] (with_policy Drop (crowded Block)) in
  s = with_policy Drop (run [CallerStep; CallerStep; CallerStep] (crowded Block))
  ∧ (caller s = Push → capacity s ≤ length (spsc_queue s (self s)) →
     flush_step s = Some s)
  ∧ (caller s = Push → length (spsc_queue s (self s)) < capacity s →
     ∃ s', flush_step s = Some s' ∧ caller s' = Wait ∧
           spsc_queue s' (self s)
           = spsc_queue s (self s) ++ [CommandRecord (self s)])
  ∧ (early (caller s) = true → pushes s = 0 ∧ ¬ pending s)
  ∧ (early (caller s) = false →
     pushes s = 1 ∧ (pending s ∨ Reached (self s) ∈ events s)).
Proof.
  apply (flush_command_never_dropped [CallerStep; CallerStep; CallerStep]
           (crowded Block) Drop).
  - split_and!; [reflexivity..|].
    intros tid q Hl Hin. cbn [crowded queues] in Hl.
    apply lookup_singleton_Some in Hl as [_ <-].
    repeat (apply elem_of_cons in Hin as [Hin|Hin]; [discriminate|]).
    by apply elem_of_nil in Hin.
  - reflexivity.
Defined.

(** C7.  Started twice, the backend is as it is when started once: one
    worker thread runs. *)
Theorem start_backend_worker_idempotent s :
  workers_ok s →
  start_backend_worker (start_backend_worker s) = start_backend_worker s
  ∧ worker_threads (start_backend_worker (start_backend_worker s)) = 1
  ∧ worker_threads (start_backend_worker s) = 1
  ∧ is_running (start_backend_worker (start_backend_worker s)) = true.
Proof.
  unfold workers_ok, start_backend_worker, BackendWorker_run. intros Hw.
  destruct (is_running s) eqn:Hr; simpl; rewrite ?Hr; simpl; rewrite ?Hw; done.
Qed.

Lemma start_backend_worker_idempotent_witness :
  start_backend_worker (start_backend_worker (example false Block))
  = start_backend_worker (example false Block)
  ∧ worker_threads (start_backend_worker (start_backend_worker (example false Block))) = 1
  ∧ worker_threads (start_backend_worker (example false Block)) = 1
  ∧ is_running (start_backend_worker (start_backend_worker (example false Block))) = true.
Proof.
  apply (start_backend_worker_idempotent (example false Block)). reflexivity.
Defined.

(** *** The mutex around [done] *)

(** X7. In every interleaving [done] is written and read under [mtx], and
    never both at once: while the backend is at [done = true] it holds the
    mutex and the caller is outside its locked region; while the caller
    tests [done] in [cond.wait] it holds the mutex and the backend is
    outside the block of the callback. *)
Theorem done_is_guarded_by_mtx sched s0 :
  at_entry s0 → is_running s0 = true →
  let s := run sched s0 in
  (backend s = Locked → mtx s = Some Backend ∧ holds_lock (caller s) = false)
  ∧ (caller s = Wait → mtx s = Some Caller ∧ in_block (backend s) = false).
Proof.
  intros Hentry Hrun s.
  pose proof (barrier_inv_run sched s0 (at_entry_inv s0 Hentry Hrun)) as Hi.
  fold s in Hi. destruct Hi as [_ _ _ Hcl Hbl _ _ _ _ _ _ _ _ _ _ _].
  split.
  - intros Hb. assert (mtx s = Some Backend) as Hm by (apply Hbl; by left).
    split; [done|].
    destruct (holds_lock (caller s)) eqn:E; [|done].
    rewrite Hcl in Hm by done. discriminate.
  - intros Hc. assert (mtx s = Some Caller) as Hm by (apply Hcl; by rewrite Hc).
    split; [done|].
    destruct (backend s) eqn:Hb; try done.
    + rewrite Hbl in Hm by (by left). discriminate.
    + rewrite Hbl in Hm by (by right). discriminate.
Qed.

Lemma done_is_guarded_by_mtx_witness :
  let s := run [CallerStep; CallerStep; BackendPop 7; CallerStep]
             (example true Block) in
  (backend s = Locked → mtx s = Some Backend ∧ holds_lock (caller s) = false)
  ∧ (caller s = Wait → mtx s = Some Caller ∧ in_block (backend s) = false).
Proof.
  apply (done_is_guarded_by_mtx [CallerStep; CallerStep; BackendPop 7; CallerStep]
           (example true Block)).
  - apply example_at_entry.
  - reflexivity.
Defined.

(** *** The caller asleep, the backend in the callback *)

Lemma at_entry_live s : at_entry s → live s.
Proof.
  intros (Hc & Hb & He & Hq).
  split; rewrite ?Hc, ?Hb; try done.
  - intros [|]; done.
  - intros [|]; done.
  - intros tid q _ Hl. by eapply Hq.
  - intros [|]; done.
Qed.

(** [unpack], also through [in_block]. *)
Ltac unpack' :=
  unpack; cbn [in_block orb] in *.

Ltac clash :=
  intros;
  repeat match goal with H : _ ∨ _ |- _ => destruct H end;
  subst; unpack'; prep;
  first [ done | congruence
        | match goal with H : _ ∨ _ |- _ => destruct H; congruence end ].

Lemma live_flush_step s s' : inv s → live s → flush_step s = Some s' → live s'.
Proof.
  intros [Hrun He Hl Hcl Hbl Hcb Hp Hd Hr Hpu Has Hic Hds Hrs Ho Hk]
         [Llock Lfresh Lfree Lown Loth Lnot Lwake Lret] H.
  unfold flush_step in H.
  destruct s as [run wt pol me qs cap m d c b sk ev]. unpack'. subst run.
  destruct c; unpack'; prep; try done;
    [ | destruct m; [done|]
      | unfold try_emplace in H; destruct (decide _)
      | destruct d
      | destruct m; [done|] ];
    injection H as <-; split; unpack'; try settle.
  all: try (intros [|]; done).
  all: try (intros [|]; intros; prep; congruence).
  - intros _ _ _. rewrite lookup_insert_eq. simpl.
    apply elem_of_app. right. by apply list_elem_of_singleton.
  - intros tid q Hne. rewrite lookup_insert_ne by done. by apply Loth.
Qed.

Lemma own_after_pop me (qs : gmap nat (list record)) tid r q :
  r ≠ CommandRecord me → qs !! tid = Some (r :: q) →
  CommandRecord me ∈ default [] (qs !! me) →
  CommandRecord me ∈ default [] (<[tid:=q]> qs !! me).
Proof.
  intros Hr Hq Hin. destruct (decide (tid = me)) as [->|Hne].
  - rewrite lookup_insert_eq. rewrite Hq in Hin. simpl in *.
    apply elem_of_cons in Hin as [Hin|Hin]; [congruence | done].
  - by rewrite lookup_insert_ne.
Qed.

Lemma others_after_pop me (qs : gmap nat (list record)) tid r q :
  (∀ tid q, tid ≠ me → qs !! tid = Some q → CommandRecord me ∉ q) →
  qs !! tid = Some (r :: q) →
  ∀ tid0 q0, tid0 ≠ me → <[tid:=q]> qs !! tid0 = Some q0 → CommandRecord me ∉ q0.
Proof.
  intros Hall Hq tid0 q0 Hne Hl. destruct (decide (tid0 = tid)) as [->|Hne'].
  - rewrite lookup_insert_eq in Hl. injection Hl as <-.
    intros Hin. apply (Hall tid (r :: q)); [done | done |]. by right.
  - rewrite lookup_insert_ne in Hl by done. by eapply Hall.
Qed.

Lemma live_backend_pop tid s s' : inv s → live s → backend_pop tid s = Some s' → live s'.
Proof.
  intros [Hrun He Hl Hcl Hbl Hcb Hp Hd Hr Hpu Has Hic Hds Hrs Ho Hk]
         [Llock Lfresh Lfree Lown Loth Lnot Lwake Lret] H.
  unfold backend_pop in H.
  destruct s as [run wt pol me qs cap m d c b sk ev]. unpack'. subst run.
  destruct b; try done. destruct (qs !! tid) as [[|r q]|] eqn:Hq; try done.
  destruct r as [n|owner]; [|destruct (decide (owner = me)) as [->|Hne]];
    injection H as <-.
  all: split; unpack'; try settle.
  all: try (intros [|]; done).
  all: try (intros [|]; intros; prep; congruence).
  all: try (by eapply others_after_pop).
  all: try (intros Hc _ Hd'; eapply own_after_pop; [|exact Hq|by apply Lown]; congruence).
  intros Hc Hd'. destruct (Lwake Hc Hd') as [|]; done.
Qed.

Lemma live_callback_step s s' : inv s → live s → callback_step s = Some s' → live s'.
Proof.
  intros [Hrun He Hl Hcl Hbl Hcb Hp Hd Hr Hpu Has Hic Hds Hrs Ho Hk]
         [Llock Lfresh Lfree Lown Loth Lnot Lwake Lret] H.
  unfold callback_step in H.
  destruct s as [run wt pol me qs cap m d c b sk ev]. unpack'. subst run.
  destruct b; try done; [destruct m; [done|] | | | destruct c];
    injection H as <-.
  all: split; unpack'; try settle.
  all: try (intros [|]; done).
  all: try (intros [|]; intros; prep; congruence).
  all: clash.
Qed.

Lemma live_spurious s s' : inv s → live s → spurious s = Some s' → live s'.
Proof.
  intros [Hrun He Hl Hcl Hbl Hcb Hp Hd Hr Hpu Has Hic Hds Hrs Ho Hk]
         [Llock Lfresh Lfree Lown Loth Lnot Lwake Lret] H.
  unfold spurious in H.
  destruct s as [run wt pol me qs cap m d c b sk ev]. unpack'. subst run.
  destruct c; try done. injection H as <-.
  split; unpack'; try settle.
  all: try (intros [|]; done).
  all: try (intros [|]; intros; prep; congruence).
  all: clash.
Qed.

Lemma live_produce tid r s s' : inv s → live s → produce tid r s = Some s' → live s'.
Proof.
  intros [Hrun He Hl Hcl Hbl Hcb Hp Hd Hr Hpu Has Hic Hds Hrs Ho Hk]
         [Llock Lfresh Lfree Lown Loth Lnot Lwake Lret] H.
  apply produce_inv in H as (Hne & Hr' & _ & ->).
  destruct s as [run wt pol me qs cap m d c b sk ev]. unpack'. subst run.
  split; unpack'; try settle.
  all: try (intros [|]; done).
  all: try (intros [|]; intros; prep; congruence).
- intros Hc Hb Hd'. rewrite lookup_insert_ne by done. by apply Lown.
  - intros tid0 q Hne0 Hlk. destruct (decide (tid0 = tid)) as [->|Hne'].
    + rewrite lookup_insert_eq in Hlk. injection Hlk as <-.
      intros Hin. apply elem_of_app in Hin as [Hin|Hin].
      * destruct (qs !! tid) as [q|] eqn:E; simpl in Hin.
        -- by apply (Loth tid q).
        -- by apply elem_of_nil in Hin.
      * apply list_elem_of_singleton in Hin. congruence.
    + rewrite lookup_insert_ne in Hlk by done. by eapply Loth.
Qed.

Lemma live_step a s s' : inv s → live s → step a s = Some s' → live s'.
Proof.
  destruct a; simpl;
    eauto using live_flush_step, live_backend_pop, live_callback_step,
      live_spurious, live_produce.
Qed.

Lemma live_run sched s : inv s → live s → inv (run sched s) ∧ live (run sched s).
Proof.
  revert s. induction sched as [|a sched IH]; intros s Hi Hl; [done|].
  simpl. destruct (step a s) as [s'|] eqn:E; simpl; [|by apply IH].
  apply IH; [by eapply barrier_inv_step | by eapply live_step].
Qed.


(** *** The barrier *)













(** *** No wake-up is lost *)

(** X8. No wake-up of [flush] is lost.  In every interleaving: a caller
    that comes to the test of the wait with [done] set returns without
    sleeping; while the caller sleeps and [done] is not set, its command
    record is still on its ring or the backend is in the callback before
    [done = true]; and while it sleeps with [done] set, the callback has
    not notified yet: its remaining steps wake the caller, which takes the
    mutex, finds [done] set and returns. *)
Theorem flush_wakeup_is_not_lost sched s0 :
  at_entry s0 → is_running s0 = true →
  let s := run sched s0 in
  (caller s = Wait → done s = true →
   ∃ s', flush_step s = Some s' ∧ caller s' = Returned)
  ∧ (caller s = Asleep → done s = false →
     backend s = Invoke ∨ backend s = Locked
     ∨ (backend s = Poll ∧ CommandRecord (self s0) ∈ spsc_queue s (self s0)))
  ∧ (caller s = Asleep → done s = true →
     (backend s = Unlock ∨ backend s = Notify) ∧
     caller (run [CallbackStep; CallbackStep] s) = Awake ∧
     caller (run [CallbackStep; CallbackStep; CallerStep; CallerStep] s) = Returned).
Proof.
  intros Hentry Hrun s.
  destruct (live_run sched s0) as [Hinv Hlive];
    [by apply at_entry_inv | by apply at_entry_live |].
  destruct (run_frame sched s0) as (_ & Hself & _).
  change (run sched s0) with s in Hinv, Hlive, Hself. clearbody s.
  split_and!.
  - intros Hc Hd. unfold flush_step. rewrite Hc, Hd. by eexists.
  - intros Hc Hd. rewrite <- Hself.
    destruct (backend s) eqn:Hb; [|by left | by right; left | |].
    + right. right. split; [done|]. apply (live_own s Hlive); [by rewrite Hc | done | done].
    + rewrite (live_notify s Hlive) in Hd by (by left). discriminate.
    + rewrite (live_notify s Hlive) in Hd by (by right). discriminate.
  - intros Hc Hd.
    destruct (live_wakeup s Hlive Hc Hd) as [Hb|Hb].
    + assert (mtx s = Some Backend) as Hm by (apply (inv_backend_lock s Hinv); by right).
      destruct s as [run wt pol me qs cap m d c b sk ev]. unpack. subst.
      split_and!; [by left | reflexivity | reflexivity].
    + assert (mtx s = None) as Hm.
      { apply (live_free s Hlive); [by left | by rewrite Hb]. }
      destruct s as [run wt pol me qs cap m d c b sk ev]. unpack. subst.
      split_and!; [by right | reflexivity | reflexivity].
Qed.

Lemma flush_wakeup_is_not_lost_witness :
  let s := run before_notify (example true Block) in
  (backend s = Unlock ∨ backend s = Notify) ∧
  caller (run [CallbackStep; CallbackStep] s) = Awake ∧
  caller (run [CallbackStep; CallbackStep; CallerStep; CallerStep] s) = Returned.
Proof.
  destruct (flush_wakeup_is_not_lost before_notify (example true Block))
    as (_ & _ & Hwake); [apply example_at_entry | reflexivity |].
  apply Hwake; reflexivity.
Defined.

(** *** What [flush] waits for *)

Lemma fifo_same me init sink0 s s' :
  sink s' = sink s → spsc_queue s' me = spsc_queue s me →
  on_ring s' = on_ring s → early (caller s') = early (caller s) →
  fifo me init sink0 s → fifo me init sink0 s'.
Proof.
  intros Hs Hq Ho He (k & extra & H1 & H2 & H3 & H4).
  exists k, extra. rewrite Hs, Hq, Ho, He. done.
Qed.

Lemma fifo_sink me init sink0 s s' n :
  sink s' = sink s ++ [n] → spsc_queue s' me = spsc_queue s me →
  on_ring s' = on_ring s → early (caller s') = early (caller s) →
  fifo me init sink0 s → fifo me init sink0 s'.
Proof.
  intros Hs Hq Ho He (k & extra & H1 & H2 & H3 & H4).
  exists k, (extra ++ [n]). rewrite Hs, Hq, Ho, He, H1, <- app_assoc.
  split_and!; [done | by apply sublist_inserts_r | done | done].
Qed.

Lemma fifo_flush_step me init sink0 s s' :
  inv s → live s → self s = me →
  fifo me init sink0 s → flush_step s = Some s' → fifo me init sink0 s'.
Proof.
  intros [Hrun He Hl Hcl Hbl Hcb Hp Hd Hr Hpu Has Hic Hds Hrs Ho Hk]
         [Llock Lfresh Lfree Lown Loth Lnot Lwake Lret] Hme Hf H.
  unfold flush_step in H.
  destruct s as [run wt pol me' qs cap m d c b sk ev]. unpack'. subst run me'.
  destruct c; unpack'; prep; try done;
    [ | destruct m; [done|]
      | unfold try_emplace in H; destruct (decide _)
      | destruct d
      | destruct m; [done|] ];
    injection H as <-.
  all: try (revert Hf; apply fifo_same; reflexivity).
  destruct Hf as (k & extra & H1' & H2' & H3' & H4'). subst.
  exists k, extra. unfold on_ring, spsc_queue in *. unpack'.
  rewrite lookup_insert_eq. cbn [default from_option id negb andb] in *.
  rewrite H3', app_nil_r. done.
Qed.

Lemma fifo_backend_pop me init sink0 tid s s' :
  inv s → live s → self s = me → CommandRecord me ∉ init →
  fifo me init sink0 s → backend_pop tid s = Some s' → fifo me init sink0 s'.
Proof.
  intros [Hrun He Hl Hcl Hbl Hcb Hp Hd Hr Hpu Has Hic Hds Hrs Ho Hk]
         [Llock Lfresh Lfree Lown Loth Lnot Lwake Lret] Hme Hinit Hf H.
  unfold backend_pop in H.
  destruct s as [run wt pol me' qs cap m d c b sk ev]. unpack'. subst run me'.
  destruct b; try done. destruct (qs !! tid) as [[|r q]|] eqn:Hq; try done.
  destruct (decide (tid = me)) as [->|Hne]; cycle 1.
  { (* the ring of another thread *)
    assert (r ≠ CommandRecord me) as Hr'.
    { intros ->. apply (Loth tid (CommandRecord me :: q)); [done | done | by left]. }
    destruct r as [n|owner]; [|rewrite decide_False in H by congruence];
      injection H as <-; revert Hf;
      [eapply fifo_sink | apply fifo_same]; try reflexivity.
    all: unfold spsc_queue; unpack'; by rewrite lookup_insert_ne. }
  destruct Hf as (k & extra & H1 & H2 & H3 & H4).
  unfold on_ring, spsc_queue in *. unpack'. rewrite Hq in H3.
  cbn [default from_option id] in H3.
  destruct (drop k init) as [|r0 rest] eqn:Hdrop.
  - (* the records logged before are through: this is the command record *)
    cbn [app] in H3.
    destruct (negb (early c) && true && negb d) eqn:Hon; [|done].
    injection H3 as -> ->. rewrite decide_True in H by done. injection H as <-.
    exists k, extra. unpack'. rewrite lookup_insert_eq.
    cbn [default from_option id]. rewrite Hdrop.
    unfold on_ring. unpack'. rewrite andb_false_r. cbn [andb].
    split_and!; [done | done | done |].
    intros _ _. by apply drop_nil_inv.
  - (* a record logged before the call *)
    cbn [app] in H3. injection H3 as -> ->.
    assert (init !! k = Some r0) as Hk0.
    { rewrite <- (Nat.add_0_r k), <- lookup_drop, Hdrop. done. }
    assert (r0 ≠ CommandRecord me) as Hr0.
    { intros ->. apply Hinit. by eapply list_elem_of_lookup_2. }
    assert (drop (S k) init = rest) as Hrest.
    { rewrite (drop_S _ _ _ Hk0) in Hdrop. by injection Hdrop. }
    assert (early c = false → negb (early c) && true && negb d = false →
            length init ≤ S k) as H4'.
    { intros Hc Hon. specialize (H4 Hc Hon).
      apply lookup_lt_Some in Hk0. lia. }
    destruct r0 as [n|owner]; [|rewrite decide_False in H by congruence];
      injection H as <-.
    + exists (S k), (extra ++ [n]). unfold on_ring. unpack'.
      rewrite lookup_insert_eq. cbn [default from_option id].
      rewrite (take_S_r _ _ _ Hk0), omap_app, Hrest, H1, <- app_assoc.
      split_and!; [done | | done | done].
      simpl. by apply sublist_app.
    + exists (S k), extra. unfold on_ring. unpack'.
      rewrite lookup_insert_eq. cbn [default from_option id].
      rewrite (take_S_r _ _ _ Hk0), omap_app, Hrest. simpl. rewrite app_nil_r.
      split_and!; done.
Qed.



Lemma fifo_callback_step me init sink0 s s' :
  inv s → live s →
  fifo me init sink0 s → callback_step s = Some s' → fifo me init sink0 s'.
Proof.
  intros [Hrun He Hl Hcl Hbl Hcb Hp Hd Hr Hpu Has Hic Hds Hrs Ho Hk]
         [Llock Lfresh Lfree Lown Loth Lnot Lwake Lret] Hf H.
  unfold callback_step in H.
  destruct s as [run wt pol me' qs cap m d c b sk ev]. unpack'. subst run.
  destruct b; try done; [destruct m; [done|] | | | ]; injection H as <-.
  all: revert Hf; apply fifo_same; try reflexivity.
  - unfold on_ring. unpack'. by rewrite !andb_false_r.
  - prep. subst. unfold on_ring. unpack'. rewrite !andb_false_r.
    destruct c; reflexivity.
  - unpack'. by destruct c.
Qed.

Lemma fifo_spurious me init sink0 s s' :
  fifo me init sink0 s → spurious s = Some s' → fifo me init sink0 s'.
Proof.
  intros Hf H. unfold spurious in H.
  destruct s as [run wt pol me' qs cap m d c b sk ev]. unpack'.
  destruct c; try done. injection H as <-.
  revert Hf. apply fifo_same; reflexivity.
Qed.

Lemma fifo_produce me init sink0 tid r s s' :
  self s = me →
  fifo me init sink0 s → produce tid r s = Some s' → fifo me init sink0 s'.
Proof.
  intros Hme Hf H. apply produce_inv in H as (Hne & _ & _ & ->).
  revert Hf. apply fifo_same; try reflexivity.
  unfold spsc_queue. simpl. rewrite lookup_insert_ne; [done | congruence].
Qed.

Lemma fifo_step me init sink0 a s s' :
  inv s → live s → self s = me → CommandRecord me ∉ init →
  fifo me init sink0 s → step a s = Some s' → fifo me init sink0 s'.
Proof.
  destruct a; simpl;
    eauto using fifo_flush_step, fifo_backend_pop, fifo_callback_step,
      fifo_spurious, fifo_produce.
Qed.

Lemma fifo_run me init sink0 sched s :
  inv s → live s → self s = me → CommandRecord me ∉ init →
  fifo me init sink0 s → fifo me init sink0 (run sched s).
Proof.
  revert s. induction sched as [|a sched IH]; intros s Hi Hl Hme Hinit Hf; [done|].
  simpl. destruct (step a s) as [s'|] eqn:E; simpl; [|by apply IH].
  apply IH; [by eapply barrier_inv_step | by eapply live_step | | done
            | by eapply fifo_step].
  by destruct (step_frame _ _ _ E) as (_ & -> & _).
Qed.

(** X9. When [flush] returns, everything the calling thread had logged
    before the call has been written by the backend, in the order it was
    logged: the payloads of the records that were on the caller's ring at
    the call are among what the sink received since, in that order. *)
Theorem flush_waits_for_earlier_records sched s0 :
  at_entry s0 → is_running s0 = true →
  let s := run sched s0 in
  caller s = Returned →
  ∃ extra, sink s = sink s0 ++ extra ∧
           omap payload (spsc_queue s0 (self s0)) `sublist_of` extra.
Proof.
  intros Hentry Hrun s Hret.
  destruct (live_run sched s0) as [Hi Hl];
    [by apply at_entry_inv | by apply at_entry_live |]. fold s in Hi, Hl.
  assert (fifo (self s0) (spsc_queue s0 (self s0)) (sink s0) s) as Hf.
  { apply fifo_run; [by apply at_entry_inv | by apply at_entry_live | done | |].
    - destruct Hentry as (_ & _ & _ & Hq). unfold spsc_queue.
      destruct (queues s0 !! self s0) as [q|] eqn:E; simpl.
      + by eapply Hq.
      + apply not_elem_of_nil.
    - destruct Hentry as (Hc & Hb & _). exists 0, []. unfold on_ring.
      rewrite Hc, app_nil_r. simpl. rewrite app_nil_r.
      split_and!; [done | done | done | done]. }
  destruct Hf as (k & extra & H1 & H2 & _ & H4).
  exists extra. split; [done|].
  assert (on_ring s = false) as Hoff.
  { unfold on_ring. rewrite Hret, (live_returned s Hl Hret). by rewrite andb_false_r. }
  rewrite Hret in H4. specialize (H4 eq_refl Hoff).
  by rewrite take_ge in H2.
Qed.

Lemma flush_waits_for_earlier_records_witness :
  ∃ extra, sink (run through (example true Block))
           = sink (example true Block) ++ extra ∧
           [1; 2; 3] `sublist_of` extra.
Proof.
  apply (flush_waits_for_earlier_records through (example true Block)).
  - apply example_at_entry.
  - reflexivity.
  - reflexivity.
Defined.

(** *** The notification and the return *)

(** X10. [flush] may return before the callback has called
    [cond.notify_one()].  With the caller asleep and the backend past the
    block that sets [done], a wake-up that nobody asked for lets the caller
    take the mutex, find [done] set and return; the notification of the
    callback, on the condition variable that is local to [flush], comes
    after the return. *)
Theorem flush_may_return_before_notify sched s0 :
  at_entry s0 → is_running s0 = true →
  let s := run sched s0 in
  caller s = Asleep → backend s = Notify →
  let s' := run [Spurious; CallerStep; CallerStep] s in
  caller s' = Returned ∧ backend s' = Notify ∧
  events s' = events s ++ [Return] ∧
  ∃ s'', callback_step s' = Some s'' ∧
         events s'' = events s ++ [Return; Notified].
Proof.
  intros Hentry Hrun s Hc Hb.
  destruct (live_run sched s0) as [Hi Hl];
    [by apply at_entry_inv | by apply at_entry_live |]. fold s in Hi, Hl.
  assert (done s = true) as Hd by (apply (live_notify s Hl); by right).
  assert (mtx s = None) as Hm.
  { apply (live_free s Hl); [by left | by rewrite Hb]. }
  destruct s as [run wt pol me qs cap m d c b sk ev]. unpack'. subst.
  cbv zeta. simpl. split_and!; [done..|].
  eexists. split; [reflexivity|]. simpl. by rewrite <- app_assoc.
Qed.

Lemma flush_may_return_before_notify_witness :
  let s := run before_notify (example true Block) in
  let s' := run [Spurious; CallerStep; CallerStep] s in
  caller s' = Returned ∧ backend s' = Notify ∧
  events s' = events s ++ [Return] ∧
  ∃ s'', callback_step s' = Some s'' ∧
         events s'' = events s ++ [Return; Notified].
Proof.
  apply (flush_may_return_before_notify before_notify (example true Block)).
  - apply example_at_entry.
  - reflexivity.
  - reflexivity.
  - reflexivity.
Defined.

End LogManagerFacts.

(** ** Facts about the scenario of [JsonFileLoggingTest.cpp] *)

Module JsonFileLoggingTestFacts.

Import JsonFileLoggingTest.
Close Scope Z_scope.

Lemma sent_from_same k ts i pc pc' :
  ts !! i = Some pc → logged pc' = logged pc →
  sent_from k (<[i:=pc']> ts) = sent_from k ts.
Proof.
  revert k i. induction ts as [|t ts IH]; intros k [|i] Hl Hlog; simpl in *; try done.
  - injection Hl as ->. unfold sent. by rewrite Hlog.
  - f_equal. by apply IH.
Qed.

Lemma sent_from_next k ts i pc pc' :
  ts !! i = Some pc → logged pc' = S (logged pc) →
  sent_from k (<[i:=pc']> ts) ≡ₚ LogEvent (k + i) (logged pc) :: sent_from k ts.
Proof.
  revert k i. induction ts as [|t ts IH]; intros k [|i] Hl Hlog; simpl in *; try done.
  - injection Hl as ->. unfold sent. rewrite Hlog, seq_S, fmap_app. simpl.
    rewrite Nat.add_0_r.
    rewrite <- app_assoc. simpl. by rewrite <- Permutation_middle.
  - rewrite (IH (S k) i) by done.
    replace (S k + i) with (k + S i) by lia.
    by rewrite <- Permutation_middle.
Qed.

Lemma join_push {A} (rs : list (list A)) i q e :
  rs !! i = Some q → mjoin (<[i := q ++ [e]]> rs) ≡ₚ e :: mjoin rs.
Proof.
  revert i. induction rs as [|r rs IH]; intros [|i] Hl; simpl in *; try done.
  - injection Hl as ->. rewrite <- app_assoc. simpl. by rewrite <- Permutation_middle.
  - rewrite IH by done. by rewrite <- Permutation_middle.
Qed.

Lemma join_pop {A} (rs : list (list A)) i q e :
  rs !! i = Some (e :: q) → mjoin rs ≡ₚ e :: mjoin (<[i := q]> rs).
Proof.
  revert i. induction rs as [|r rs IH]; intros [|i] Hl; simpl in *; try done.
  - by injection Hl as ->.
  - rewrite (IH i) by done. by rewrite <- Permutation_middle.
Qed.


Lemma update_pointwise (P : nat → Prop) (X : thread_pc)
    (ts : list thread_pc) (i : nat) (pc pc' : thread_pc) :
  ts !! i = Some pc → pc ≠ X →
  (∀ i' p, P i' → ts !! i' = Some p → p = X) →
  ∀ i' p, P i' → <[i:=pc']> ts !! i' = Some p → p = X.
Proof.
  intros Hi Hne H i' p HP Hl. destruct (decide (i' = i)) as [->|Hn].
  - destruct Hne. by apply (H i pc).
  - rewrite list_lookup_insert_ne in Hl by done. by apply (H i' p).
Qed.

Lemma update_all (X : thread_pc) (ts : list thread_pc) (i : nat)
    (pc pc' : thread_pc) :
  ts !! i = Some pc → pc ≠ X →
  (∀ i' p, ts !! i' = Some p → p = X) →
  ∀ i' p, <[i:=pc']> ts !! i' = Some p → p = X.
Proof.
  intros Hi Hne H i' p.
  apply (update_pointwise (λ _, True) X ts i pc pc'); [done | done | | done].
  intros i0 p0 _. apply H.
Qed.

Lemma start_inv cap : inv (start cap).
Proof.
  split; try done.
  - intros i j Hl. apply lookup_replicate in Hl as [[=] _].
  - intros _. split; [done|]. intros i pc Hl. by apply lookup_replicate in Hl as [-> _].
Qed.

Ltac fields :=
  unfold with_main, with_threads, with_rings, with_main_ring, with_backend,
    with_dropped, write in *;
  cbn [policy capacity main threads rings main_ring backend json_sink file_sink
       dropped past_join stopping joining working foldl logger_sinks] in *.

Lemma inv_thread_step i s s' : inv s → thread_step i s = Some s' → inv s'.
Proof.
  intros [Hpol Hts Hrs Hsame Hperm Hb Hst Hstd Hsp Hj Hjd Hstop Hex Hck] H.
  unfold thread_step in H.
  destruct s as [pol cap m ts rs mr b js fs dr]. fields. subst pol fs.
  destruct (ts !! i) as [pc|] eqn:Hi; [|done].
  assert (i < length rs) as Hlt by (rewrite Hrs, <- Hts; by eapply lookup_lt_Some).
  assert (∀ pc', pc ≠ Unborn → pc ≠ Finished →
            s' = State Block cap m (<[i:=pc']> ts) rs mr b js js dr →
            logged pc' = logged pc →
            (∀ j, pc' = Logging j → j ≤ number_of_messages) →
            inv s') as Hquiet.
  { intros pc' Hu Hf -> Hlog Hbound. split; fields; try done.
    - by rewrite length_insert.
    - by rewrite (sent_from_same _ _ _ pc).
    - intros i' j Hl. destruct (decide (i' = i)) as [->|Hn].
      + rewrite list_lookup_insert_eq in Hl by (by eapply lookup_lt_Some).
        injection Hl as Heq. by apply Hbound.
      + rewrite list_lookup_insert_ne in Hl by done. by eapply Hb.
    - intros Hm. destruct (Hst Hm) as [? Hall]. split; [done|].
      by apply (update_all Unborn ts i pc).
    - intros k Hm. apply (update_pointwise (λ i, k ≤ i) Unborn ts i pc); eauto.
    - intros k Hm. apply (update_pointwise (λ i, i < k) Finished ts i pc); eauto.
    - intros Hm.
      apply (update_all Finished ts i pc); [done | done | by apply Hjd]. }
  destruct pc as [| |j|]; try done.
  - injection H as <-. by apply (Hquiet (Logging 0)); [..|intros ? [= <-]; lia].
  - destruct (decide (j < number_of_messages)) as [Hjlt|Hjge].
    + destruct (decide (_ < cap)); [|done]. injection H as <-.
      destruct (rs !! i) as [q|] eqn:Hq; [|by apply lookup_ge_None in Hq; lia].
      cbn [default] in *.
      split; fields; try done.
      * by rewrite length_insert.
      * by rewrite length_insert.
      * rewrite join_push by done.
        rewrite (sent_from_next 0 ts i (Logging j)) by done.
        rewrite <- Permutation_middle. by rewrite Hperm.
      * intros i' j' Hl. destruct (decide (i' = i)) as [->|Hn].
        -- rewrite list_lookup_insert_eq in Hl by (by eapply lookup_lt_Some).
           injection Hl as <-. lia.
        -- rewrite list_lookup_insert_ne in Hl by done. by eapply Hb.
      * intros Hm. destruct (Hst Hm) as [? Hall]. split; [done|].
        by apply (update_all Unborn ts i (Logging j)).
      * intros k Hm.
        apply (update_pointwise (λ i, k ≤ i) Unborn ts i (Logging j)); eauto.
      * intros k Hm.
        apply (update_pointwise (λ i, i < k) Finished ts i (Logging j)); eauto.
      * intros Hm.
        apply (update_all Finished ts i (Logging j)); [done | done | by apply Hjd].
      * intros ->. specialize (Hstop eq_refl).
        by specialize (Hjd (ltac:(by destruct m)) i _ Hi).
    + injection H as <-. apply (Hquiet Finished); try done.
      cbn [logged]. specialize (Hb i j Hi). lia.
Qed.

Ltac routine :=
  try done;
  try solve [auto];
  try solve [intros; subst; auto];
  try solve [intros; congruence].

Lemma inv_main_step s s' : inv s → main_step s = Some s' → inv s'.
Proof.
  intros [Hpol Hts Hrs Hsame Hperm Hb Hst Hstd Hsp Hj Hjd Hstop Hex Hck] H.
  unfold main_step in H.
  destruct s as [pol cap m ts rs mr b js fs dr]. fields. subst pol fs.
  assert (m ≠ Start → b ≠ NotStarted ∧ (b = NotStarted → False)) as Hstd'
    by (intros Hm; split; by apply Hstd).
  destruct m as [|k|k|k|k| | |]; fields.
  - (* Backend::start() *)
    injection H as <-. destruct (Hst eq_refl) as [-> Hall].
    split; fields; routine.
    intros k [= <-] i pc _. apply Hall.
  - (* threads.emplace_back *)
    destruct Hstd' as [Hne _]; [done|].
    destruct (decide (k < number_of_threads)) as [Hk|Hk]; injection H as <-.
    + destruct (lookup_lt_is_Some_2 ts k) as [pc Hpc]; [lia|].
      assert (pc = Unborn) as -> by (by apply (Hsp k eq_refl k)).
      split; fields; routine.
      * by rewrite length_insert.
      * by rewrite (sent_from_same _ _ _ Unborn).
      * intros i j Hl. destruct (decide (i = k)) as [->|Hn].
        -- rewrite list_lookup_insert_eq in Hl by (by eapply lookup_lt_Some). done.
        -- rewrite list_lookup_insert_ne in Hl by done. by eapply Hb.
      * intros k' [= <-] i pc Hi Hl.
        rewrite list_lookup_insert_ne in Hl by lia. apply (Hsp k eq_refl i); [lia|done].
    + split; fields; routine.
      intros k' [= <-] i pc Hi. lia.
  - (* elem.join() *)
    destruct Hstd' as [Hne _]; [done|].
    destruct (decide (k < number_of_threads)) as [Hk|Hk].
    + destruct (ts !! k) as [[| | |]|] eqn:Hpc; try done. injection H as <-.
      split; fields; routine.
      intros k' [= <-] i pc Hi Hl. destruct (decide (i = k)) as [->|Hn].
      * congruence.
      * apply (Hj k eq_refl i); [lia|done].
    + injection H as <-. split; fields; routine.
      intros _ i pc Hl. apply (Hj k eq_refl i); [|done].
      apply lookup_lt_Some in Hl. lia.
  - (* flush_log: post *)
    destruct Hstd' as [Hne _]; [done|].
    destruct (decide (k < number_of_threads)); injection H as <-;
      split; fields; routine.
    all: intros Hs; specialize (Hstop Hs); done.
  - (* flush_log: wait; remove_logger *)
    destruct Hstd' as [Hne _]; [done|].
    destruct (decide (k ∈ mr)); [done|]. injection H as <-.
    split; fields; routine.
  - (* Backend::stop(): signal *)
    destruct Hstd' as [Hne _]; [done|].
    injection H as <-. split; fields; routine.
    + intros _. by destruct b.
    + intros Hb'. apply Hex. by destruct b.
  - (* Backend::stop(): join *)
    destruct Hstd' as [Hne _]; [done|].
    destruct b eqn:Eb; try done; injection H as <-.
    split; fields; routine.
  - done.
Qed.

Lemma inv_drain i s s' : inv s → drain i s = Some s' → inv s'.
Proof.
  intros [Hpol Hts Hrs Hsame Hperm Hb Hst Hstd Hsp Hj Hjd Hstop Hex Hck] H.
  unfold drain in H.
  destruct s as [pol cap m ts rs mr b js fs dr]. fields. subst pol fs.
  destruct (working b) eqn:Hw; [|done].
  destruct (rs !! i) as [[|e q]|] eqn:Hq; try done. injection H as <-.
  split; fields; routine.
  - by rewrite length_insert.
  - rewrite <- Hperm, (join_pop rs i q e) by done.
    rewrite <- app_assoc. simpl. by rewrite <- Permutation_middle.
  - intros ->. done.
Qed.

Lemma inv_drain_main s s' : inv s → drain_main s = Some s' → inv s'.
Proof.
  intros [Hpol Hts Hrs Hsame Hperm Hb Hst Hstd Hsp Hj Hjd Hstop Hex Hck] H.
  unfold drain_main in H.
  destruct s as [pol cap m ts rs mr b js fs dr]. fields. subst pol fs.
  destruct (working b); [|done]. destruct mr; [done|]. injection H as <-.
  split; fields; routine.
Qed.

Lemma inv_exit_step s s' : inv s → exit s = Some s' → inv s'.
Proof.
  intros [Hpol Hts Hrs Hsame Hperm Hb Hst Hstd Hsp Hj Hjd Hstop Hex Hck] H.
  unfold exit in H.
  destruct s as [pol cap m ts rs mr b js fs dr]. fields. subst pol fs.
  destruct b; try done. destruct (decide _) as [[Hall _]|]; [|done].
  injection H as <-. split; fields; routine.
  intros Hm. by destruct (Hst Hm).
Qed.

Lemma scenario_inv_step a s s' : inv s → step a s = Some s' → inv s'.
Proof.
  destruct a; simpl;
    eauto using inv_main_step, inv_thread_step, inv_drain, inv_drain_main,
      inv_exit_step.
Qed.


(** *** The test *)



Example drop_policy_loses_events :
  main (run late_backend dropping) = Check ∧
  length (json_sink (run late_backend dropping)) = 6 ∧
  dropped (run late_backend dropping) = 2994.
Proof. vm_compute. done. Qed.

(** *** The test case reaches its checks *)

Lemma start_alive cap : alive (start cap).
Proof. split; done. Qed.

Lemma alive_thread_step i s s' : alive s → thread_step i s = Some s' → alive s'.
Proof.
  intros [Hsp Hall Hstop] H. unfold thread_step in H.
  destruct s as [pol cap m ts rs mr b js fs dr]. fields.
  destruct (ts !! i) as [pc|] eqn:Hi; [|done].
  assert (∀ pc', pc ≠ Unborn → pc' ≠ Unborn →
            alive (State pol cap m (<[i:=pc']> ts) rs mr b js fs dr)) as Hquiet.
  { intros pc' Hpc Hpc'. split; fields; try done.
    - intros k Hm i' p Hi' Hl. destruct (decide (i' = i)) as [->|Hn].
      + rewrite list_lookup_insert_eq in Hl by (by eapply lookup_lt_Some). congruence.
      + rewrite list_lookup_insert_ne in Hl by done. by eapply Hsp.
    - intros Hm Hm' i' p Hl. destruct (decide (i' = i)) as [->|Hn].
      + rewrite list_lookup_insert_eq in Hl by (by eapply lookup_lt_Some). congruence.
      + rewrite list_lookup_insert_ne in Hl by done. by eapply Hall. }
  destruct pc as [| |j|]; try done.
  - injection H as <-. by apply Hquiet.
  - destruct (decide (j < number_of_messages)).
    + destruct (decide (_ < cap)).
      * injection H as <-.
        destruct (Hquiet (Logging (S j))) as [H1 H2 H3]; [done..|].
        split; fields; done.
      * destruct pol; [done|]. injection H as <-.
        destruct (Hquiet (Logging (S j))) as [H1 H2 H3]; [done..|].
        split; fields; done.
    + injection H as <-. by apply Hquiet.
Qed.

Lemma alive_main_step s s' : inv s → alive s → main_step s = Some s' → alive s'.
Proof.
  intros [Hpol Hts Hrs Hsame Hperm Hb Hst Hstd Hsp' Hj Hjd Hstop' Hex Hck]
         [Hsp Hall Hstop] H.
  unfold main_step in H.
  destruct s as [pol cap m ts rs mr b js fs dr]. fields.
  destruct m as [|k|k|k|k| | |]; fields.
  - injection H as <-. split; fields; try done.
    + intros k [= <-] i pc Hi. lia.
    + intros _ Hm. by destruct (Hm 0).
  - destruct (decide (k < number_of_threads)) as [Hk|Hk]; injection H as <-.
    + split; fields; try done.
      * intros k' [= <-] i pc Hi Hl. destruct (decide (i = k)) as [->|Hn].
        -- rewrite list_lookup_insert_eq in Hl by lia. congruence.
        -- rewrite list_lookup_insert_ne in Hl by done. apply (Hsp k eq_refl i); [lia | done].
      * intros _ Hm. by destruct (Hm (S k)).
    + split; fields; try done.
      intros _ _ i pc Hl. apply (Hsp k eq_refl i); [|done].
      apply lookup_lt_Some in Hl. lia.
  - destruct (decide (k < number_of_threads)) as [Hk|Hk].
    + destruct (ts !! k) as [[| | |]|] eqn:Hpc; try done. injection H as <-.
      split; fields; try done. intros _ _. by apply Hall.
    + injection H as <-. split; fields; try done. intros _ _. by apply Hall.
  - destruct (decide (k < number_of_threads)); injection H as <-;
      split; fields; try done; intros _ _; by apply Hall.
  - destruct (decide (k ∈ mr)); [done|]. injection H as <-.
    split; fields; try done. intros _ _. by apply Hall.
  - injection H as <-. split; fields; try done.
    + intros _ _. by apply Hall.
    + intros _. destruct b; try done. by destruct Hstd.
  - destruct b eqn:Eb; try done; injection H as <-.
    + by destruct Hstd.
    + split; fields; try done. intros _ _. by apply Hall.
  - done.
Qed.

Lemma alive_drain i s s' : alive s → drain i s = Some s' → alive s'.
Proof.
  intros [Hsp Hall Hstop] H. unfold drain in H.
  destruct s as [pol cap m ts rs mr b js fs dr]. fields.
  destruct (working b); [|done].
  destruct (rs !! i) as [[|e q]|]; try done. injection H as <-.
  split; fields; done.
Qed.

Lemma alive_drain_main s s' : alive s → drain_main s = Some s' → alive s'.
Proof.
  intros [Hsp Hall Hstop] H. unfold drain_main in H.
  destruct s as [pol cap m ts rs mr b js fs dr]. fields.
  destruct (working b); [|done]. destruct mr; [done|]. injection H as <-.
  split; fields; done.
Qed.

Lemma alive_exit s s' : alive s → exit s = Some s' → alive s'.
Proof.
  intros [Hsp Hall Hstop] H. unfold exit in H.
  destruct s as [pol cap m ts rs mr b js fs dr]. fields.
  destruct b; try done. destruct (decide _); [|done]. injection H as <-.
  split; fields; done.
Qed.

Lemma alive_step a s s' : inv s → alive s → step a s = Some s' → alive s'.
Proof.
  destruct a; simpl;
    eauto using alive_main_step, alive_thread_step, alive_drain, alive_drain_main,
      alive_exit.
Qed.

Lemma step_capacity a s s' : step a s = Some s' → capacity s' = capacity s.
Proof.
  destruct s as [pol cap m ts rs mr b js fs dr].
  destruct a; simpl.
  - unfold main_step. fields. repeat case_match; intros; simplify_eq; done.
  - unfold thread_step. fields. repeat case_match; intros; simplify_eq; done.
  - unfold drain. fields. repeat case_match; intros; simplify_eq; done.
  - unfold drain_main. fields. repeat case_match; intros; simplify_eq; done.
  - unfold exit. fields. repeat case_match; intros; simplify_eq; done.
Qed.

Lemma sum_list_insert {A} (f : A → nat) (l : list A) i x y :
  l !! i = Some x →
  sum_list (f <$> <[i:=y]> l) + f x = sum_list (f <$> l) + f y.
Proof.
  revert i. induction l as [|a l IH]; intros [|i] Hl; simpl in *; try done.
  - injection Hl as ->. lia.
  - specialize (IH i Hl). unfold fmap in IH. lia.
Qed.

Ltac weigh :=
  unfold work; fields; cbn [main_work thread_work backend_work length]; try lia.

Lemma positive_ring (rs : list (list log_event)) i q :
  rs !! i = Some q → length q ≤ sum_list (length <$> rs).
Proof.
  revert i. induction rs as [|r rs IH]; intros [|i] Hl; simpl in *; try done.
  - injection Hl as ->. lia.
  - specialize (IH i Hl). unfold fmap in IH. lia.
Qed.

(** Short of the check, some thread has a step that brings it nearer. *)
Lemma scenario_progress s :
  inv s → alive s → 0 < capacity s → main s ≠ Check →
  ∃ a s', step a s = Some s' ∧ work s' < work s.
Proof.
  intros [Hpol Hts Hrs Hsame Hperm Hb Hst Hstd Hsp' Hj Hjd Hstop' Hex Hck]
         [Hsp Hall Hstop] Hcap Hm.
  destruct s as [pol cap m ts rs mr b js fs dr]. fields. subst pol.
  assert (m ≠ Start → joining m = false → b = Running) as Hrunning.
  { intros Hm1 Hm2. destruct b; try done.
    - by destruct Hstd.
    - rewrite Hstop' in Hm2; done.
    - rewrite Hstop' in Hm2; done. }
  assert (∀ i e q, rs !! i = Some (e :: q) → working b = true →
            ∃ s', step (Drain i) (State Block cap m ts rs mr b js fs dr) = Some s' ∧
                  work s' < work (State Block cap m ts rs mr b js fs dr)) as Hdrain.
  { intros i e q Hq Hw. simpl. unfold drain. fields. rewrite Hw, Hq.
    eexists. split; [reflexivity|]. weigh.
    pose proof (sum_list_insert length rs i (e :: q) q Hq) as Hsum. simpl in Hsum. lia. }
  assert (∀ i, i < number_of_threads →
            (∃ pc, ts !! i = Some pc ∧ pc ≠ Finished ∧ pc ≠ Unborn) →
            b = Running →
            ∃ a s', step a (State Block cap m ts rs mr b js fs dr) = Some s' ∧
                    work s' < work (State Block cap m ts rs mr b js fs dr)) as Hthread.
  { intros i Hi (pc & Hpc & Hnf & Hnu) ->.
    destruct pc as [| |j|]; try done.
    - exists (Thread i). simpl. unfold thread_step. fields. rewrite Hpc.
      eexists. split; [reflexivity|]. weigh.
      pose proof (sum_list_insert thread_work ts i Setup (Logging 0) Hpc) as Hsum.
      cbn [thread_work] in Hsum. lia.
    - destruct (decide (j < number_of_messages)) as [Hlt|Hge]; cycle 1.
      { exists (Thread i). simpl. unfold thread_step. fields. rewrite Hpc.
        rewrite decide_False by done.
        eexists. split; [reflexivity|]. weigh.
        pose proof (sum_list_insert thread_work ts i (Logging j) Finished Hpc) as Hsum.
        cbn [thread_work] in Hsum. lia. }
      destruct (lookup_lt_is_Some_2 rs i) as [q Hq]; [lia|].
      destruct (decide (length q < cap)) as [Hroom|Hfull].
      + exists (Thread i). simpl. unfold thread_step. fields. rewrite Hpc, Hq.
        cbn [default from_option id].
        rewrite decide_True by done. rewrite decide_True by done.
        eexists. split; [reflexivity|]. weigh.
        pose proof (sum_list_insert thread_work ts i (Logging j) (Logging (S j)) Hpc)
          as Hsum.
        pose proof (sum_list_insert length rs i q (q ++ [LogEvent i j]) Hq) as Hsum'.
        cbn [thread_work] in Hsum. rewrite length_app in Hsum'. simpl in Hsum'. lia.
      + destruct q as [|e q]; [simpl in Hfull; lia|].
        exists (Drain i). by apply (Hdrain i e q). }
  destruct m as [|k|k|k|k| | |]; try done.
  - exists Main. eexists. split; [reflexivity|]. weigh. destruct b; weigh.
  - exists Main. simpl. unfold main_step. fields.
    destruct (decide (k < number_of_threads)) as [Hk|Hk];
      (eexists; split; [reflexivity|]); weigh.
    destruct (lookup_lt_is_Some_2 ts k) as [pc Hpc]; [lia|].
    assert (pc = Unborn) as -> by (by apply (Hsp' k eq_refl k)).
    pose proof (sum_list_insert thread_work ts k Unborn Setup Hpc) as Hsum.
    cbn [thread_work] in Hsum. lia.
  - destruct (decide (k < number_of_threads)) as [Hk|Hk]; cycle 1.
    { exists Main. simpl. unfold main_step. fields. rewrite decide_False by done.
      eexists; split; [reflexivity|]. weigh. }
    destruct (lookup_lt_is_Some_2 ts k) as [pc Hpc]; [lia|].
    assert (pc = Finished ∨ pc ≠ Finished) as [->|Hnf]
      by (destruct pc; auto).
    + exists Main. simpl. unfold main_step. fields.
      rewrite decide_True by done. rewrite Hpc.
      eexists; split; [reflexivity|]. weigh.
    + apply (Hthread k Hk); [|by apply Hrunning].
      exists pc. split_and!; [done | done |]. by apply (Hall ltac:(done) ltac:(done) k).
  - exists Main. simpl. unfold main_step. fields.
    destruct (decide (k < number_of_threads)) as [Hk|Hk];
      (eexists; split; [reflexivity|]); weigh.
    rewrite length_app. cbn [length]. lia.
  - destruct (decide (k ∈ mr)) as [Hin|Hout].
    + destruct mr as [|x mr]; [by apply elem_of_nil in Hin|].
      exists DrainMain. simpl. unfold drain_main. fields.
      rewrite (Hrunning ltac:(done) eq_refl). simpl.
      eexists; split; [reflexivity|]. weigh.
    + exists Main. simpl. unfold main_step. fields. rewrite decide_False by done.
      eexists; split; [reflexivity|]. weigh.
  - exists Main. eexists. split; [reflexivity|]. weigh.
    rewrite (Hrunning ltac:(done) eq_refl). weigh.
  - specialize (Hstop eq_refl). destruct b; try done.
    + destruct mr as [|x mr]; cycle 1.
      { exists DrainMain. eexists. split; [reflexivity|]. weigh. }
      destruct (decide (Forall (λ q, q = []) rs)) as [Hempty|Hsome].
      * exists Exit. simpl. unfold exit. fields.
        rewrite decide_True by (by split).
        eexists. split; [reflexivity|]. weigh.
      * apply not_Forall_Exists in Hsome; [|apply _].
        apply Exists_exists in Hsome as (q & Hin & Hq).
        apply list_elem_of_lookup in Hin as [i Hi].
        destruct q as [|e q]; [by destruct Hq|].
        exists (Drain i). by apply (Hdrain i e q).
    + exists Main. eexists. split; [reflexivity|]. weigh.
Qed.

Lemma scenario_alive_run sched s :
  inv s → alive s → inv (run sched s) ∧ alive (run sched s) ∧
  capacity (run sched s) = capacity s.
Proof.
  revert s. induction sched as [|a sched IH]; intros s Hi Ha; [done|].
  simpl. destruct (step a s) as [s'|] eqn:E; simpl; [|by apply IH].
  destruct (IH s') as (? & ? & ->);
    [by eapply scenario_inv_step | by eapply alive_step |].
  split_and!; [done | done | by eapply step_capacity].
Qed.

Lemma can_reach_check n s :
  work s ≤ n → inv s → alive s → 0 < capacity s →
  ∃ more, main (run more s) = Check.
Proof.
  revert s. induction n as [|n IH]; intros s Hw Hi Ha Hc.
  - destruct (main s) eqn:E; try by exists [].
    all: destruct (scenario_progress s) as (a & s' & _ & Hlt);
      [done | done | done | congruence | lia].
  - destruct (main s) eqn:E; try by exists [].
    all: destruct (scenario_progress s) as (a & s' & Hs & Hlt);
      [done | done | done | congruence |].
    all: destruct (IH s') as (more & Hmore);
      [ lia | by eapply scenario_inv_step | by eapply alive_step
      | by rewrite (step_capacity _ _ _ Hs) | ].
    all: exists (a :: more); simpl; rewrite Hs; done.
Qed.

(** X11. The test case cannot get stuck.  With rings of at least one
    event, from every state the test can reach there are steps of the
    threads and of the backend that take the main thread to the point where
    it reads the files: every logging thread gets its 500 events onto its
    ring (the backend makes room when a ring is full), every flush is
    answered, and the backend that was told to stop drains the rings and
    exits. *)
Theorem json_file_logging_reaches_check cap sched :
  0 < cap → ∃ more, main (run more (run sched (start cap))) = Check.
Proof.
  intros Hcap.
  destruct (scenario_alive_run sched (start cap)) as (Hi & Ha & Hc);
    [apply start_inv | apply start_alive |].
  apply (can_reach_check (work (run sched (start cap)))); [done | done | done |].
  by rewrite Hc.
Qed.

Lemma json_file_logging_reaches_check_witness :
  ∃ more, main (run more (run [Main; Main; Thread 0; Thread 0; Main; Drain 0]
                            (start 1))) = Check.
Proof.
  apply (json_file_logging_reaches_check 1
           [Main; Main; Thread 0; Thread 0; Main; Drain 0]).
  lia.
Defined.

(** *** What the text check can tell *)

Lemma append_assoc (a b c : string) : (a +:+ b) +:+ c = a +:+ (b +:+ c).
Proof.
  induction a as [|x a IH]; [done|].
  change (String x ((a +:+ b) +:+ c) = String x (a +:+ (b +:+ c))).
  by rewrite IH.
Qed.

Lemma pretty_N_go_app (x : N) (s : string) :
  pretty_N_go x s = pretty_N_go x "" +:+ s.
Proof.
  revert s. induction (N.lt_wf_0 x) as [x _ IH]. intros s.
  destruct (decide (0 < x)%N) as [Hx|Hx].
  - assert (x `div` 10 < x)%N as Hlt by (by apply N.div_lt).
    rewrite !(pretty_N_go_step x) by done.
    rewrite (IH _ Hlt (String _ s)), (IH _ Hlt (String _ "")).
    by rewrite append_assoc.
  - assert (x = 0%N) as -> by lia. by rewrite !pretty_N_go_0.
Qed.

(** [std::to_string] of a number of several digits: the digits of the
    tenth part, and the last digit. *)
Lemma to_string_digits (n d : nat) :
  0 < n → d < 10 →
  to_string (10 * n + d) = to_string n +:+ to_string d.
Proof.
  intros Hn Hd. unfold to_string, pretty, pretty_nat, pretty, pretty_N.
  rewrite !decide_False by lia.
  rewrite (pretty_N_go_step (N.of_nat (10 * n + d))) by lia.
  replace (N.of_nat (10 * n + d) `div` 10)%N with (N.of_nat n); cycle 1.
  { apply N.div_unique with (N.of_nat d); lia. }
  replace (N.of_nat (10 * n + d) `mod` 10)%N with (N.of_nat d); cycle 1.
  { apply N.mod_unique with (N.of_nat n); lia. }
  rewrite pretty_N_go_app. f_equal.
  destruct (decide (N.of_nat d = 0%N)) as [Hz|Hz].
  - rewrite Hz. done.
  - rewrite pretty_N_go_step by lia.
    rewrite N.div_small by lia. rewrite N.mod_small by lia.
    by rewrite pretty_N_go_0.
Qed.

Lemma expected_string_digits (i n d : nat) :
  0 < n → d < 10 →
  expected_string i (10 * n + d) = expected_string i n +:+ to_string d.
Proof.
  intros Hn Hd. unfold expected_string.
  rewrite to_string_digits by done. by rewrite !append_assoc.
Qed.

(** X21. The string the test looks for in the text file ends with the
    number of the message, and [file_contains] looks for it anywhere in a
    line: the string for message [n] (from 1 on) is also found in the line
    of message [10 * n + d] of the same thread, so that check is met
    whether or not message [n] itself was written. *)
Theorem text_check_is_met_by_a_longer_number text_head i n d :
  0 < n → d < 10 →
  file_contains [text_line text_head (LogEvent i (10 * n + d))]
    (expected_string i n).
Proof.
  intros Hn Hd.
  exists (text_line text_head (LogEvent i (10 * n + d))),
    (text_head (LogEvent i (10 * n + d))),
    (to_string d +:+ " [" +:+ custom (10 * n + d) +:+ "]").
  split; [by apply list_elem_of_singleton|].
  unfold text_line. cbn [thread_index message_num].
  rewrite expected_string_digits by done. by rewrite !append_assoc.
Qed.

Lemma text_check_is_met_by_a_longer_number_witness :
  file_contains [text_line sample_text_head (LogEvent 2 57)] (expected_string 2 5).
Proof.
  apply (text_check_is_met_by_a_longer_number sample_text_head 2 5 7); lia.
Defined.

End JsonFileLoggingTestFacts.

(** ** Facts about the thread calls of [Os.cpp] *)

Module OsThreadFacts.

Import OsThread.

Lemma one_cpu_allowed (cpu : nat) (cpus : gset nat) :
  cpu ∈ cpus → ({[cpu]} ∪ ∅) ∩ cpus = {[cpu]}.
Proof.
  intros Hin. apply set_eq. intros x.
  rewrite elem_of_intersection, elem_of_union, elem_of_singleton.
  split.
  - intros [[->|Hx] _]; [done | by apply not_elem_of_empty in Hx].
  - intros ->. split; [by left | done].
Qed.

Lemma one_cpu_refused (cpu : nat) (cpus : gset nat) :
  cpu ∉ cpus → ({[cpu]} ∪ ∅) ∩ cpus = ∅.
Proof.
  intros Hout. apply set_eq. intros x.
  rewrite elem_of_intersection, elem_of_union, elem_of_singleton.
  split.
  - intros [[->|Hx] Hin]; [done | by apply not_elem_of_empty in Hx].
  - intros Hx. by apply not_elem_of_empty in Hx.
Qed.

Lemma no_cpu_refused (cpus : gset nat) : ∅ ∩ cpus = ∅.
Proof. apply intersection_empty_l_L. Qed.

(** X12. [set_cpu_affinity] moves the calling thread to the one CPU it is
    given, and to no other: the mask it passes has that bit alone.  A CPU
    that is not open to the thread, or one the mask has no bit for (from
    [CPU_SETSIZE], 1024, on), leaves an empty mask: the call fails,
    [std::system_error] with [EINVAL] is thrown, and the thread runs where
    it ran. *)
Theorem set_cpu_affinity_pins_one_cpu cpu_id s :
  (cpu_id ∈ allowed s → (cpu_id < CPU_SETSIZE)%nat →
   ∃ s', set_cpu_affinity cpu_id s = (Ret tt, s') ∧ affinity s' = {[cpu_id]} ∧
         allowed s' = allowed s ∧ comm s' = comm s)
  ∧ (cpu_id ∉ allowed s ∨ (CPU_SETSIZE ≤ cpu_id)%nat →
     ∃ s', set_cpu_affinity cpu_id s
           = (Throw (system_error EINVAL generic_category), s') ∧
           affinity s' = affinity s ∧ allowed s' = allowed s ∧ comm s' = comm s).
Proof.
  unfold set_cpu_affinity, sched_setaffinity, CPU_SET, CPU_ZERO. split.
  - intros Hin Hlt. destruct (decide (cpu_id < CPU_SETSIZE)%nat); [|done].
    rewrite one_cpu_allowed by done.
    destruct (decide (_ = ∅)) as [Hempty|_].
    { apply (f_equal (λ X : gset nat, size X)) in Hempty.
      by rewrite size_singleton, size_empty in Hempty. }
    simpl. by eexists.
  - intros Hout. destruct (decide (cpu_id < CPU_SETSIZE)%nat).
    + destruct Hout as [Hout|]; [|lia].
      rewrite one_cpu_refused by done.
      destruct (decide (_ = ∅)) as [_|Hne]; [|done]. simpl. by eexists.
    + rewrite no_cpu_refused.
      destruct (decide (_ = ∅)) as [_|Hne]; [|done]. simpl. by eexists.
Qed.

Lemma set_cpu_affinity_pins_one_cpu_witness :
  (∃ s', set_cpu_affinity 3 worker = (Ret tt, s') ∧ affinity s' = {[3%nat]} ∧
         allowed s' = allowed worker ∧ comm s' = comm worker)
  ∧ (∃ s', set_cpu_affinity 7 worker
           = (Throw (system_error EINVAL generic_category), s') ∧
           affinity s' = affinity worker ∧ allowed s' = allowed worker ∧
           comm s' = comm worker)
  ∧ (∃ s', set_cpu_affinity 4000 worker
           = (Throw (system_error EINVAL generic_category), s') ∧
           affinity s' = affinity worker ∧ allowed s' = allowed worker ∧
           comm s' = comm worker).
Proof.
  split_and!.
  - apply (set_cpu_affinity_pins_one_cpu 3 worker).
    + apply elem_of_list_to_set, elem_of_seq. lia.
    + unfold CPU_SETSIZE. lia.
  - apply (set_cpu_affinity_pins_one_cpu 7 worker). left.
    intros Hin. apply elem_of_list_to_set, elem_of_seq in Hin. lia.
  - apply (set_cpu_affinity_pins_one_cpu 4000 worker). right.
    unfold CPU_SETSIZE. lia.
Defined.

Lemma substring_length (n : nat) (s : string) :
  String.length (String.substring 0 n s) = Nat.min n (String.length s).
Proof.
  revert n. induction s as [|c s IH]; intros [|n]; simpl; try done.
  by rewrite IH.
Qed.

Lemma substring_all (n : nat) (s : string) :
  (String.length s ≤ n)%nat → String.substring 0 n s = s.
Proof.
  revert n. induction s as [|c s IH]; intros [|n] Hn; simpl in *; try done; try lia.
  rewrite IH; [done | lia].
Qed.

(** X13. On Linux [set_thread_name] does not throw for a name of any
    length: the thread is named by the first 15 bytes of the name, and by
    the name itself when it has no more.  Only a name that cannot be read
    makes it throw ([EFAULT]), the thread keeping its name. *)
Theorem set_thread_name_keeps_15_bytes name s :
  (∃ s', set_thread_name (Some name) s = (Ret tt, s') ∧
         comm s' = String.substring 0 15 name ∧
         (String.length (comm s') ≤ 15)%nat ∧
         ((String.length name ≤ 15)%nat → comm s' = name) ∧
         affinity s' = affinity s)
  ∧ (∃ s', set_thread_name None s
           = (Throw (system_error EFAULT generic_category), s') ∧
           comm s' = comm s ∧ affinity s' = affinity s).
Proof.
  unfold set_thread_name, prctl_set_name. simpl. split.
  - eexists. split; [reflexivity|]. simpl. split_and!; [done | | | done].
    + rewrite substring_length. lia.
    + apply substring_all.
  - by eexists.
Qed.

Lemma set_thread_name_keeps_15_bytes_witness :
  ∃ s', set_thread_name (Some "Quill_Backend_Worker") worker = (Ret tt, s') ∧
        comm s' = "Quill_Backend_W"%string.
Proof.
  destruct (set_thread_name_keeps_15_bytes "Quill_Backend_Worker" worker)
    as [(s' & H & Hc & _) _].
  exists s'. split; [exact H|]. rewrite Hc. reflexivity.
Defined.

End OsThreadFacts.

(** ** Facts about [aligned_alloc] and [aligned_free] *)

Module OsAllocFacts.

Import OsThread OsAlloc.

Lemma round_up_spec a alignment :
  0 < alignment → a ≤ round_up a alignment ∧ round_up a alignment mod alignment = 0.
Proof.
  intros Hal. unfold round_up. split.
  - pose proof (Z.mul_div_le (a + alignment - 1) alignment Hal).
    pose proof (Z.mod_pos_bound (a + alignment - 1) alignment Hal).
    pose proof (Z.div_mod (a + alignment - 1) alignment). lia.
  - apply Z.mod_mul. lia.
Qed.

Lemma past_spec (m : gmap Z Z) :
  1 ≤ past m ∧ map_Forall (λ q n, q + extent n ≤ past m) m.
Proof.
  unfold past.
  apply (map_fold_weak_ind
           (λ acc m, 1 ≤ acc ∧ map_Forall (λ q n, q + extent n ≤ acc) m)).
  - split; [lia | apply map_Forall_empty].
  - intros q n m' acc Hq [H1 Hall]. split; [lia|].
    apply map_Forall_insert; [done|]. split; [lia|].
    eapply map_Forall_impl; [exact Hall|]. simpl. intros. lia.
Qed.

Lemma place_spec m hint alignment size :
  0 < alignment →
  let p := place m hint alignment size in
  0 < p ∧ p mod alignment = 0 ∧ map_Forall (λ q n, apart p size q n) m.
Proof.
  intros Hal. unfold place. cbv zeta.
  destruct (room m _ size) eqn:Hroom.
  - destruct (round_up_spec (Z.max hint 1) alignment Hal) as [Hge Hmod].
    split_and!; [lia | done |]. unfold room in Hroom.
    by apply bool_decide_eq_true in Hroom.
  - destruct (round_up_spec (past m) alignment Hal) as [Hge Hmod].
    destruct (past_spec m) as [H1 Hall].
    split_and!; [lia | done |].
    eapply map_Forall_impl; [exact Hall|]. simpl. intros q n Hle. right. lia.
Qed.

(** X14. [aligned_alloc] throws [std::system_error] with [EINVAL] in
    [std::system_category()], the heap untouched, for an alignment that is
    not a power of two or not a multiple of [sizeof(void* )], and with
    [ENOMEM] when the allocator has no memory.  Otherwise, for a request
    of at least one byte, it returns the block [posix_memalign] made: not
    null, at a multiple of the alignment, and sharing no byte with a block
    of the heap, wherever the allocator found room for it; [aligned_free]
    gives the block back, and the heap holds the blocks it held. *)
Theorem aligned_alloc_gives_aligned_block alignment size h :
  (¬ Os.power_of_two alignment ∨ alignment mod sizeof_pointer ≠ 0 →
   aligned_alloc alignment size h = (Throw (system_error EINVAL system_category), h))
  ∧ (Os.power_of_two alignment → alignment mod sizeof_pointer = 0 →
     (hd (TryAt 0) (supply h) = NoMemory →
        ∃ h', aligned_alloc alignment size h
              = (Throw (system_error ENOMEM system_category), h') ∧
              blocks h' = blocks h)
     ∧ (∀ hint, 0 < size → hd (TryAt 0) (supply h) = TryAt hint →
        ∃ p h', aligned_alloc alignment size h = (Ret p, h') ∧
          p ≠ nullptr ∧ p mod alignment = 0 ∧
          blocks h !! p = None ∧ blocks h' = <[p:=size]> (blocks h) ∧
          (∀ q n, blocks h !! q = Some n → p + size ≤ q ∨ q + n ≤ p) ∧
          ∃ h'', aligned_free p h' = Some h'' ∧ blocks h'' = blocks h)).
Proof.
  unfold aligned_alloc, posix_memalign. split.
  - intros Hbad.
    assert (negb (Os.is_pow_of_two alignment)
            || negb (alignment mod sizeof_pointer =? 0) = true) as ->.
    { apply orb_true_iff. destruct Hbad as [Hbad|Hbad].
      - left. apply negb_true_iff. by apply OsFacts.is_pow_of_two_false.
      - right. apply negb_true_iff. by apply Z.eqb_neq. }
    reflexivity.
  - intros Hp Hm.
    assert (negb (Os.is_pow_of_two alignment)
            || negb (alignment mod sizeof_pointer =? 0) = false) as ->.
    { apply orb_false_iff. split; apply negb_false_iff.
      - by apply OsFacts.is_pow_of_two_spec.
      - by apply Z.eqb_eq. }
    assert (0 < alignment) as Hal.
    { destruct Hp as (k & Hk & ->). apply Z.pow_pos_nonneg; lia. }
    split.
    + intros ->. by eexists.
    + intros hint _ ->.
      destruct (place_spec (blocks h) hint alignment size Hal) as (Hpos & Hmod & Hall).
      set (p := place (blocks h) hint alignment size) in *.
      assert (blocks h !! p = None) as Hfresh.
      { destruct (blocks h !! p) as [n|] eqn:E; [|done].
        destruct (Hall _ _ E) as [H|H]; unfold extent in H; lia. }
      eexists p, _. split; [reflexivity|]. simpl.
      split_and!; [unfold nullptr; lia | done | done | done | |].
      * intros q n Hq. destruct (Hall _ _ Hq) as [H|H]; unfold extent in H; lia.
      * unfold aligned_free, free. simpl.
        destruct (Z.eqb_spec p nullptr) as [E|_].
        { unfold nullptr in E. lia. }
        rewrite lookup_insert_eq. eexists. split; [reflexivity|]. simpl.
        by apply delete_insert_id.
Qed.

Lemma aligned_alloc_gives_aligned_block_witness :
  aligned_alloc 48 256 small_heap
  = (Throw (system_error EINVAL system_category), small_heap)
  ∧ ∃ p h', aligned_alloc 64 256 small_heap = (Ret p, h') ∧
      p ≠ nullptr ∧ p mod 64 = 0 ∧
      blocks small_heap !! p = None ∧ blocks h' = <[p:=256]> (blocks small_heap) ∧
      (∀ q n, blocks small_heap !! q = Some n → p + 256 ≤ q ∨ q + n ≤ p) ∧
      ∃ h'', aligned_free p h' = Some h'' ∧ blocks h'' = blocks small_heap.
Proof.
  destruct (aligned_alloc_gives_aligned_block 48 256 small_heap) as [Hbad _].
  destruct (aligned_alloc_gives_aligned_block 64 256 small_heap) as [_ Hgood].
  split.
  - apply Hbad. left. apply OsFacts.is_pow_of_two_false. reflexivity.
  - destruct Hgood as [_ Hret]; [exists 6; split; [lia | reflexivity] | reflexivity|].
    apply (Hret 4197); [lia | reflexivity].
Defined.

(** The block may lie in memory that was given back, below a block of the
    heap. *)
Example freed_memory_is_used_again :
  (aligned_alloc 64 256 small_heap).1 = Ret 4224.
Proof. vm_compute. reflexivity. Qed.

End OsAllocFacts.

(** ** Facts about [Os.cpp] on Windows *)

Module OsWindowsFacts.

Import OsWindows.

Ltac fields :=
  cbn [w_page_size w_granularity w_sections w_views w_next w_last_error w_script
       w_trace with_sections with_views with_next with_last_error pop log_call
       fst snd] in *.

Lemma fresh_handle_fresh (sections : gmap Z section) :
  sections !! fresh_handle sections = None ∧ 0 < fresh_handle sections.
Proof.
  unfold fresh_handle.
  destruct (find _ _) as [h|] eqn:E.
  - apply find_some in E as [Hin E]. split; [by apply bool_decide_eq_true in E|].
    apply list_elem_of_In, list_elem_of_fmap in Hin as (n & -> & Hn).
    apply elem_of_seq in Hn. lia.
  - exfalso.
    assert (list_to_set ((λ n, 4 * Z.of_nat n) <$> seq 1 (S (size sections)))
            ⊆ dom sections) as Hsub.
    { intros k Hk. apply elem_of_list_to_set in Hk.
      apply elem_of_dom. destruct (sections !! k) eqn:Ek; [eauto|].
      apply list_elem_of_In in Hk.
      pose proof (find_none _ _ E k Hk) as Hn. simpl in Hn.
      apply bool_decide_eq_false in Hn. done. }
    apply subseteq_size in Hsub. rewrite size_dom in Hsub.
    rewrite size_list_to_set in Hsub.
    + rewrite length_fmap, length_seq in Hsub. lia.
    + apply NoDup_fmap; [|apply NoDup_seq]. intros a b Hab. lia.
Qed.

(** A view placed where nothing overlapped is the only one with its base. *)
Lemma unmap_placed base len h (views : list view) :
  0 < len → Forall (λ v, 0 < v_len v) views →
  existsb (overlaps base len) views = false →
  filter (λ v, v_base v ≠ base) (View base len h :: views) = views.
Proof.
  intros Hlen Hpos Hfree. rewrite filter_cons. simpl.
  rewrite decide_False by (intros Hne; by apply Hne).
  induction Hpos as [|v vs Hv _ IH]; [done|].
  simpl in Hfree. apply orb_false_iff in Hfree as [Hv' Hfree].
  rewrite filter_cons. rewrite decide_True; [by rewrite IH|].
  intros Heq. unfold overlaps in Hv'. rewrite Heq in Hv'.
  apply andb_false_iff in Hv' as [Hv'|Hv']; apply Z.ltb_ge in Hv'; lia.
Qed.

Lemma free_inside base len base' len' (views : list view) :
  base ≤ base' → base' + len' ≤ base + len →
  existsb (overlaps base len) views = false →
  existsb (overlaps base' len') views = false.
Proof.
  intros Hlo Hhi Hfree. induction views as [|v vs IH]; [done|].
  simpl in *. apply orb_false_iff in Hfree as [Hv Hfree].
  rewrite IH by done. rewrite orb_false_r.
  unfold overlaps in *.
  apply andb_false_iff in Hv as [Hv|Hv]; apply Z.ltb_ge in Hv;
    apply andb_false_iff; [left | right]; apply Z.ltb_ge; lia.
Qed.

Lemma windows_bind_inv {A B} (m : M A) (k : A → M B) s r s' :
  (m ≫= k) s = (r, s') →
  (∃ a s1, m s = (Ret a, s1) ∧ k a s1 = (r, s'))
  ∨ (∃ e, m s = (Throw e, s') ∧ r = Throw e)
  ∨ (m s = (Spinning, s') ∧ r = Spinning).
Proof.
  unfold mbind, M_bind. destruct (m s) as [[a|e|] s1].
  - intros H. left. eauto.
  - intros [= <- <-]. right. left. eauto.
  - intros [= <- <-]. right. right. eauto.
Qed.

(** What [place_view] does, by its result. *)
Lemma place_view_inv c h bytes base s r s1 :
  place_view c h bytes base s = (r, s1) →
  w_sections s1 = w_sections s ∧ w_granularity s1 = w_granularity s ∧
  w_script s1 = w_script s ∧
  ((r = Ret NULL ∧ w_views s1 = w_views s ∧
    (w_last_error s1 = ERROR_INVALID_ADDRESS →
     base ≤ 0 ∨ ∃ len, (bytes ≠ 0 → len = bytes) ∧
                       existsb (overlaps base len) (w_views s) = true))
   ∨ (r = Ret base ∧ 0 < base ∧ base mod w_granularity s = 0 ∧
      ∃ len sec, 0 < len ∧ (bytes ≠ 0 → len = bytes) ∧
        w_sections s !! h = Some sec ∧ len ≤ sec_size sec ∧
        existsb (overlaps base len) (w_views s) = false ∧
        w_views s1 = View base len h :: w_views s ∧
        w_last_error s1 = w_last_error s)).
Proof.
  unfold place_view.
  destruct (w_sections s !! h) as [sec|] eqn:Hsec.
  2:{ intros [= <- <-]. fields. split_and!; try done. left. split_and!; done. }
  set (len := if bytes =? 0 then sec_size sec else bytes).
  assert (bytes ≠ 0 → len = bytes) as Hlen.
  { intros Hb. unfold len. apply Z.eqb_neq in Hb. by rewrite Hb. }
  destruct (len <=? 0) eqn:E1; cbn [orb].
  { intros [= <- <-]. fields. split_and!; try done. left. split_and!; done. }
  destruct (sec_size sec <? len) eqn:E2.
  { intros [= <- <-]. fields. split_and!; try done. left. split_and!; done. }
  destruct (base mod w_granularity s =? 0) eqn:E3; cbn [negb]; cycle 1.
  { intros [= <- <-]. fields. split_and!; try done. left. split_and!; done. }
  destruct (base <=? 0) eqn:E4; cbn [orb].
  { intros [= <- <-]. fields. split_and!; try done. left. split_and!; try done.
    intros _. left. by apply Z.leb_le. }
  destruct (existsb (overlaps base len) (w_views s)) eqn:E5.
  { intros [= <- <-]. fields. split_and!; try done. left. split_and!; try done.
    intros _. right. by exists len. }
  intros [= <- <-]. fields. split_and!; try done. right.
  apply Z.leb_gt in E1, E4. apply Z.ltb_ge in E2. apply Z.eqb_eq in E3.
  split_and!; try done. exists len, sec. split_and!; done.
Qed.

Lemma map_view_of_file_inv h access bytes s r s1 :
  map_view_of_file h access bytes s = (r, s1) →
  w_sections s1 = w_sections s ∧ w_granularity s1 = w_granularity s ∧
  w_script s1 = tail (w_script s) ∧
  ((r = Ret NULL ∧ w_views s1 = w_views s)
   ∨ (∃ base len sec, r = Ret base ∧ 0 < base ∧ 0 < len ∧ (bytes ≠ 0 → len = bytes) ∧
        w_sections s !! h = Some sec ∧
        existsb (overlaps base len) (w_views s) = false ∧
        w_views s1 = View base len h :: w_views s ∧
        w_last_error s1 = w_last_error s)).
Proof.
  unfold map_view_of_file.
  destruct (hd Succeeds (w_script s)) as [|e].
  - intros H. apply place_view_inv in H as (H1 & H2 & H3 & H). fields.
    split_and!; [done..|].
    destruct H as [(-> & Hv & _)|(-> & Hb & _ & len & sec & ? & ? & ? & ? & ? & ? & ?)].
    + by left.
    + right. exists (align_up (w_next s) (w_granularity s)), len, sec.
      split_and!; done.
  - intros [= <- <-]. fields. split_and!; [done..|]. by left.
Qed.

Lemma map_view_of_file_ex_inv h access bytes base s r s1 :
  map_view_of_file_ex h access bytes base s = (r, s1) →
  w_sections s1 = w_sections s ∧ w_granularity s1 = w_granularity s ∧
  w_script s1 = tail (w_script s) ∧
  ((r = Ret NULL ∧ w_views s1 = w_views s ∧
    (w_last_error s1 = ERROR_INVALID_ADDRESS →
     w_script s ≠ [] ∨ base ≤ 0
     ∨ ∃ len, (bytes ≠ 0 → len = bytes) ∧
              existsb (overlaps base len) (w_views s) = true))
   ∨ (r = Ret base ∧ 0 < base ∧
      ∃ len sec, 0 < len ∧ (bytes ≠ 0 → len = bytes) ∧
        w_sections s !! h = Some sec ∧
        w_views s1 = View base len h :: w_views s ∧
        w_last_error s1 = w_last_error s)).
Proof.
  unfold map_view_of_file_ex.
  destruct (w_script s) as [|o script] eqn:Hscript; cbn [hd]; [|destruct o as [|e]].
  - intros H. apply place_view_inv in H as (H1 & H2 & H3 & H). fields.
    rewrite Hscript in *. split_and!; [done..|].
    destruct H as [(-> & Hv & He)|(-> & Hb & _ & len & sec & ? & ? & ? & ? & ? & ? & ?)].
    + left. split_and!; [done..|]. intros Herr. right. by apply He.
    + right. split_and!; [done..|]. exists len, sec. split_and!; done.
  - intros H. apply place_view_inv in H as (H1 & H2 & H3 & H). fields.
    rewrite Hscript in *. split_and!; [done..|].
    destruct H as [(-> & Hv & He)|(-> & Hb & _ & len & sec & ? & ? & ? & ? & ? & ? & ?)].
    + left. split_and!; [done..|]. intros _. by left.
    + right. split_and!; [done..|]. exists len, sec. split_and!; done.
  - intros [= <- <-]. fields. rewrite Hscript. split_and!; [done..|].
    left. split_and!; [done..|]. intros _. by left.
Qed.

Lemma filter_no_base base (views : list view) :
  existsb (λ v, v_base v =? base) views = false →
  filter (λ v, v_base v ≠ base) views = views.
Proof.
  induction views as [|v vs IH]; [done|]. simpl.
  intros H. apply orb_false_iff in H as [Hv H].
  rewrite filter_cons, decide_True by (by apply Z.eqb_neq). by rewrite IH.
Qed.

Lemma unmap_view_of_file_inv base s r s1 :
  unmap_view_of_file base s = (r, s1) →
  (∃ n, r = Ret n) ∧
  w_sections s1 = w_sections s ∧ w_granularity s1 = w_granularity s ∧
  w_script s1 = w_script s ∧
  w_views s1 = filter (λ v, v_base v ≠ base) (w_views s) ∧
  (existsb (λ v, v_base v =? base) (w_views s) = true →
   w_last_error s1 = w_last_error s).
Proof.
  unfold unmap_view_of_file.
  destruct (existsb _ (w_views s)) eqn:E; intros [= <- <-]; fields.
  - split_and!; eauto.
  - split_and!; eauto; [by rewrite filter_no_base | done].
Qed.

Lemma close_handle_inv h s r s1 :
  close_handle h s = (r, s1) →
  (∃ n, r = Ret n) ∧
  w_sections s1 = delete h (w_sections s) ∧ w_views s1 = w_views s ∧
  w_script s1 = w_script s.
Proof.
  unfold close_handle.
  destruct (w_sections s !! h) eqn:E; intros [= <- <-]; fields.
  - split_and!; eauto.
  - split_and!; eauto. by rewrite delete_id.
Qed.

Lemma close_then_throw {A} h e s (r : result A) s' :
  (close_handle h;; throw e) s = (r, s') →
  r = Throw e ∧ w_sections s' = delete h (w_sections s) ∧ w_views s' = w_views s.
Proof.
  intros H. apply windows_bind_inv in H as [(a & s1 & H1 & H)|[(e' & H1 & _)|[H1 _]]].
  - apply close_handle_inv in H1 as (_ & Hs & Hv & _).
    unfold throw in H. injection H as <- <-. done.
  - apply close_handle_inv in H1 as ([n ?] & _). done.
  - apply close_handle_inv in H1 as ([n ?] & _). done.
Qed.

Lemma twice_small capacity : 0 < capacity < 2 ^ 63 → Os.twice capacity = 2 * capacity.
Proof. intros H. unfold Os.twice. apply Z.mod_small. lia. Qed.

(** The loop, by its result: it returns with the two views on top of the
    views there were, or throws with the handle closed and the views as
    they were, or is still turning, with a turn for every decision the
    environment had left. *)
Lemma map_twice_spec fuel h capacity s r s' :
  views_ok s → 0 < capacity < 2 ^ 63 →
  map_twice fuel h capacity s = (r, s') →
  match r with
  | Ret (address, h') =>
      h' = h ∧ 0 < address ∧ is_Some (w_sections s !! h) ∧
      w_sections s' = w_sections s ∧
      existsb (overlaps address (2 * capacity)) (w_views s) = false ∧
      w_views s' = View (address + capacity) capacity h
                     :: View address capacity h :: w_views s
  | Throw e =>
      e = could_not_create ∧ w_sections s' = delete h (w_sections s) ∧
      w_views s' = w_views s
  | Spinning => (fuel ≤ length (w_script s))%nat
  end.
Proof.
  intros Hok Hcap. revert s Hok.
  induction fuel as [|fuel IH]; intros s Hok H.
  { injection H as <- <-. simpl. lia. }
  cbn [map_twice] in H. rewrite (twice_small _ Hcap) in H.
  assert (2 * capacity ≠ 0) as Hne by lia.
  assert (capacity ≠ 0) as Hne' by lia.
  apply windows_bind_inv in H as [(address & s1 & H1 & H)|[(e & H1 & _)|[H1 _]]];
    apply map_view_of_file_inv in H1 as (Hs1 & Hg1 & Hk1 & H1); cycle 1.
  { destruct H1 as [[? _]|(? & ? & ? & ? & _)]; done. }
  { destruct H1 as [[? _]|(? & ? & ? & ? & _)]; done. }
  destruct H1 as [[[= ->] Hv1]|(base & len & sec & [= ->] & Hbase & Hlen & Hlen' & Hsec
                                & Hfree & Hv1 & He1)].
  { change (NULL =? NULL) with true in H. cbv iota in H.
    apply close_then_throw in H as (-> & Hs & Hv). split_and!; congruence. }
  specialize (Hlen' Hne). subst len.
  destruct (Z.eqb_spec base NULL) as [E|_]; [unfold NULL in E; exfalso; lia|].
  apply windows_bind_inv in H as [(r2 & s2 & H2 & H)|[(e & H2 & _)|[H2 _]]];
    apply unmap_view_of_file_inv in H2 as ([n2 Hr2] & Hs2 & Hg2 & Hk2 & Hv2 & He2);
    try done.
  rewrite Hv1, (unmap_placed _ _ _ _ Hlen Hok Hfree) in Hv2.
  clear Hr2 He2.
  (* the continuation of a turn that failed for want of the address *)
  assert (∀ s3 err, w_views s3 = w_views s → w_sections s3 = w_sections s →
            (err = ERROR_INVALID_ADDRESS →
             (length (w_script s3) < length (w_script s))%nat) →
            (if err =? ERROR_INVALID_ADDRESS then map_twice fuel h capacity
             else close_handle h;; throw could_not_create) s3 = (r, s') →
            match r with
            | Ret (address, h') =>
                h' = h ∧ 0 < address ∧ is_Some (w_sections s !! h) ∧
                w_sections s' = w_sections s ∧
                existsb (overlaps address (2 * capacity)) (w_views s) = false ∧
                w_views s' = View (address + capacity) capacity h
                               :: View address capacity h :: w_views s
            | Throw e =>
                e = could_not_create ∧ w_sections s' = delete h (w_sections s) ∧
                w_views s' = w_views s
            | Spinning => (S fuel ≤ length (w_script s))%nat
            end) as Hagain.
  { intros s3 err Hv3 Hs3 Hk3 H3.
    destruct (Z.eqb_spec err ERROR_INVALID_ADDRESS) as [E|_].
    - specialize (Hk3 E).
      apply IH in H3; [|unfold views_ok; by rewrite Hv3].
      destruct r as [[address h']| |].
      + by rewrite Hv3, Hs3 in H3.
      + by rewrite Hv3, Hs3 in H3.
      + lia.
    - apply close_then_throw in H3 as (-> & Hs & Hv). split_and!; congruence. }
  assert (length (w_script s2) ≤ length (w_script s))%nat as Hlen2.
  { rewrite Hk2, Hk1. destruct (w_script s); simpl; lia. }
  apply windows_bind_inv in H as [(addr1 & s3 & H3 & H)|[(e & H3 & _)|[H3 _]]];
    apply map_view_of_file_ex_inv in H3 as (Hs3 & Hg3 & Hk3 & H3); cycle 1.
  { destruct H3 as [[? _]|[? _]]; done. }
  { destruct H3 as [[? _]|[? _]]; done. }
  assert (existsb (overlaps base capacity) (w_views s) = false) as Hfree1.
  { apply (free_inside base (2 * capacity)); [lia | lia | done]. }
  destruct H3 as [([= ->] & Hv3 & He3)|([= ->] & _ & len & sec1 & Hlen1 & Hlen1' & _
                                        & Hv3 & He3)].
  { (* the first view could not be placed *)
    destruct (Z.eqb_spec NULL base) as [E|_]; [unfold NULL in E; exfalso; lia|].
    cbn [negb] in H.
    apply windows_bind_inv in H as [(err & s4 & H4 & H)|[(e & H4 & _)|[H4 _]]]; try done.
    injection H4 as <- <-.
    apply Hagain in H; [done | congruence | congruence |].
    intros Herr. destruct (He3 Herr) as [Hscript|[?|(len & Hl & Hov)]]; [|lia|].
    - rewrite Hk3. destruct (w_script s2); [done|]. simpl in *. lia.
    - rewrite Hl, Hv2, Hfree1 in Hov by done. done. }
  specialize (Hlen1' Hne'). subst len.
  rewrite Z.eqb_refl in H. cbn [negb] in H.
  apply windows_bind_inv in H as [(addr2 & s4 & H4 & H)|[(e & H4 & _)|[H4 _]]];
    apply map_view_of_file_ex_inv in H4 as (Hs4 & Hg4 & Hk4 & H4); cycle 1.
  { destruct H4 as [[? _]|[? _]]; done. }
  { destruct H4 as [[? _]|[? _]]; done. }
  destruct H4 as [([= ->] & Hv4 & He4)|([= ->] & _ & len & sec2 & Hlen2' & Hlen2'' & _
                                        & Hv4 & He4)].
  { (* the second view could not be placed *)
    destruct (Z.eqb_spec NULL (base + capacity)) as [E|_];
      [unfold NULL in E; exfalso; lia|].
    cbn [negb] in H.
    apply windows_bind_inv in H as [(r5 & s5 & H5 & H)|[(e & H5 & _)|[H5 _]]];
      apply unmap_view_of_file_inv in H5 as ([n5 Hr5] & Hs5 & Hg5 & Hk5 & Hv5 & He5);
      try done.
    rewrite Hv4, Hv3, Hv2 in Hv5, He5.
    rewrite (unmap_placed _ _ _ _ Hlen1 Hok Hfree1) in Hv5.
    simpl in He5. rewrite Z.eqb_refl in He5. specialize (He5 eq_refl).
    apply windows_bind_inv in H as [(err & s6 & H6 & H)|[(e & H6 & _)|[H6 _]]]; try done.
    injection H6 as <- <-.
    apply Hagain in H; [done | congruence | congruence |].
    intros Herr. rewrite He5 in Herr.
    destruct (He4 Herr) as [Hscript|[?|(len & Hl & Hov)]]; [|lia|].
    - assert (length (w_script s3) ≤ length (w_script s2))%nat as Hlen3.
      { rewrite Hk3. destruct (w_script s2); simpl; lia. }
      rewrite Hk5, Hk4. destruct (w_script s3); [done|]. simpl in *. lia.
    - rewrite Hl, Hv3, Hv2 in Hov by done. simpl in Hov.
      rewrite (free_inside base (2 * capacity)) in Hov; [|lia|lia|done].
      unfold overlaps in Hov. simpl in Hov.
      apply orb_true_iff in Hov as [Hov|]; [|done].
      apply andb_true_iff in Hov as [Hov _]. apply Z.ltb_lt in Hov. lia. }
  specialize (Hlen2'' Hne'). subst len.
  rewrite Z.eqb_refl in H. cbn [negb] in H. injection H as <- <-.
  split_and!; [done | done | by rewrite Hsec | congruence | done |].
  rewrite Hv4, Hv3, Hv2. done.
Qed.

Lemma create_file_mapping_inv hf protect hi lo s r s1 :
  create_file_mapping hf protect hi lo s = (r, s1) →
  w_views s1 = w_views s ∧ w_script s1 = tail (w_script s) ∧
  ((r = Ret NULL ∧ w_sections s1 = w_sections s)
   ∨ (∃ h, r = Ret h ∧ 0 < h ∧ w_sections s !! h = None ∧ 0 < hi * 2 ^ 32 + lo ∧
           w_sections s1 = <[h:=Section (hi * 2 ^ 32 + lo) ∅]> (w_sections s))).
Proof.
  unfold create_file_mapping.
  destruct (hd Succeeds (w_script s)) as [|e]; fields.
  - destruct (hi * 2 ^ 32 + lo <=? 0) eqn:E; intros [= <- <-]; fields.
    + split_and!; [done..|]. by left.
    + split_and!; [done..|]. right. apply Z.leb_gt in E.
      destruct (fresh_handle_fresh (w_sections s)) as [Hfresh Hpos].
      eexists. split_and!; done.
  - intros [= <- <-]. fields. split_and!; [done..|]. by left.
Qed.

Lemma capacity_fits_DWORD capacity :
  Os.power_of_two capacity → capacity < 2 ^ 64 →
  (0 < to_DWORD (Os.twice capacity) ↔ capacity < 2 ^ 31) ∧
  (capacity < 2 ^ 31 → to_DWORD (Os.twice capacity) = 2 * capacity).
Proof.
  intros (k & Hk & ->) Hlt.
  assert (k < 64) by (apply (Z.pow_lt_mono_r_iff 2); lia).
  assert (forallb (λ n, let c := 2 ^ Z.of_nat n in
                        bool_decide (0 < to_DWORD (Os.twice c) ↔ c < 2 ^ 31)
                        && bool_decide (c < 2 ^ 31 → to_DWORD (Os.twice c) = 2 * c))
            (seq 0 64) = true) as Hall by (vm_compute; reflexivity).
  rewrite forallb_forall in Hall.
  specialize (Hall (Z.to_nat k)). rewrite Z2Nat.id in Hall by lia.
  cbv zeta in Hall. apply andb_true_iff in Hall as [H1 H2]; [|apply in_seq; lia].
  apply bool_decide_eq_true in H1, H2. done.
Qed.

(** [create_memory_mapped_files], by its result. *)
Lemma windows_create_spec fuel capacity s r s' :
  views_ok s → 0 ≤ capacity < 2 ^ 64 →
  create_memory_mapped_files fuel capacity s = (r, s') →
  match r with
  | Ret (address, h) =>
      0 < address ∧ 0 < capacity < 2 ^ 31 ∧ 0 < h ∧ w_sections s !! h = None ∧
      w_sections s' = <[h:=Section (2 * capacity) ∅]> (w_sections s) ∧
      existsb (overlaps address (2 * capacity)) (w_views s) = false ∧
      w_views s' = View (address + capacity) capacity h
                     :: View address capacity h :: w_views s
  | Throw e =>
      w_sections s' = w_sections s ∧ w_views s' = w_views s ∧
      (Os.is_pow_of_two capacity = true →
       capacity mod (Z.max (w_page_size s) (w_granularity s) mod 2 ^ 32) = 0 →
       e = could_not_create)
  | Spinning => (fuel ≤ length (w_script s))%nat
  end.
Proof.
  intros Hok Hc. unfold create_memory_mapped_files.
  destruct (Os.is_pow_of_two capacity) eqn:Hp; cbn [negb];
    [|intros [= <- <-]; done].
  unfold mbind at 1, M_bind at 1, get_page_size at 1. cbv beta iota.
  destruct (capacity mod _ =? 0) eqn:Hm; cbn [negb]; cycle 1.
  { intros [= <- <-]. split_and!; [done..|]. intros _ Hz.
    rewrite Hz in Hm. done. }
  apply OsFacts.is_pow_of_two_spec in Hp.
  destruct (capacity_fits_DWORD capacity Hp) as [Hfit Hsize]; [lia|].
  assert (0 < capacity) as Hpos.
  { destruct Hp as (k & Hk & ->). apply Z.pow_pos_nonneg; lia. }
  intros H.
  apply windows_bind_inv in H as [(h & s1 & H1 & H)|[(e & H1 & _)|[H1 _]]];
    apply create_file_mapping_inv in H1 as (Hv1 & Hk1 & H1); cycle 1.
  { destruct H1 as [[? _]|(? & ? & _)]; done. }
  { destruct H1 as [[? _]|(? & ? & _)]; done. }
  destruct H1 as [[[= ->] Hs1]|(h' & [= ->] & Hh & Hfresh & Hsz & Hs1)].
  { change (NULL =? NULL) with true in H. injection H as <- <-. done. }
  destruct (Z.eqb_spec h' NULL) as [E|_]; [unfold NULL in E; exfalso; lia|].
  rewrite Z.mul_0_l, Z.add_0_l in Hsz, Hs1.
  apply Hfit in Hsz. rewrite (Hsize Hsz) in Hs1.
  apply map_twice_spec in H; [|unfold views_ok; by rewrite Hv1|lia].
  destruct r as [[address h]| |].
  - destruct H as (-> & Ha & _ & Hs & Hfree & Hv). rewrite Hv1 in Hv, Hfree.
    split_and!; [done | lia | done | done | done | congruence | done | done].
  - destruct H as (-> & Hs & Hv). rewrite Hs, Hs1, Hv, Hv1.
    by rewrite delete_insert_id.
  - rewrite Hk1 in H. destruct (w_script s); simpl in *; lia.
Qed.

(** X17. On Windows a construction that throws leaves nothing behind,
    whatever the calls did: the mapping handle has been closed and no view
    is left, on every path to a [throw]. *)
Theorem windows_create_throws_with_nothing_left fuel capacity s e s' :
  views_ok s → 0 ≤ capacity < 2 ^ 64 →
  create_memory_mapped_files fuel capacity s = (Throw e, s') →
  w_sections s' = w_sections s ∧ w_views s' = w_views s.
Proof. intros Hok Hc H. apply windows_create_spec in H; [|done|done]. by destruct H as (? & ? & _). Qed.

(** X18. The [for (;;)] ends.  A turn is taken again only when the
    address that was found did not stay free, which takes another thread:
    with more turns than there are calls the environment has a say in, the
    construction returns or throws. *)
Theorem windows_create_ends_when_left_alone fuel capacity s :
  views_ok s → 0 ≤ capacity < 2 ^ 64 →
  (length (w_script s) < fuel)%nat →
  (create_memory_mapped_files fuel capacity s).1 ≠ Spinning.
Proof.
  intros Hok Hc Hfuel Hspin.
  destruct (create_memory_mapped_files fuel capacity s) as [r s'] eqn:H.
  simpl in Hspin. subst r. apply windows_create_spec in H; [|done|done]. simpl in H. lia.
Qed.

Lemma find_view_hit v views a :
  view_covers v a = true → find_view (v :: views) a = Some v.
Proof. intros H. unfold find_view. simpl. by rewrite H. Qed.

Lemma find_view_miss v views a :
  view_covers v a = false → find_view (v :: views) a = find_view views a.
Proof. intros H. unfold find_view. simpl. by rewrite H. Qed.

Lemma view_covers_iff v a :
  view_covers v a = true ↔ v_base v ≤ a < v_base v + v_len v.
Proof. unfold view_covers. rewrite andb_true_iff, Z.leb_le, Z.ltb_lt. done. Qed.

Lemma view_misses_iff v a :
  view_covers v a = false ↔ ¬ (v_base v ≤ a < v_base v + v_len v).
Proof. unfold view_covers. rewrite andb_false_iff, Z.leb_gt, Z.ltb_ge. lia. Qed.

(** Two views of one mapping object, side by side, are two windows onto
    the same bytes. *)
Lemma shared_halves s base capacity h sec rest o b :
  w_views s = View (base + capacity) capacity h :: View base capacity h :: rest →
  w_sections s !! h = Some sec → 0 ≤ o < capacity →
  (∃ s1, store s (base + o) b = Some s1 ∧
         load s1 (base + o) = Some b ∧ load s1 (base + capacity + o) = Some b)
  ∧ (∃ s2, store s (base + capacity + o) b = Some s2 ∧
           load s2 (base + capacity + o) = Some b ∧ load s2 (base + o) = Some b).
Proof.
  intros Hv Hsec Ho.
  assert (find_view (w_views s) (base + o) = Some (View base capacity h)) as Hlow.
  { rewrite Hv, find_view_miss by (apply view_misses_iff; simpl; lia).
    apply find_view_hit, view_covers_iff. simpl. lia. }
  assert (find_view (w_views s) (base + capacity + o)
          = Some (View (base + capacity) capacity h)) as Hhigh.
  { rewrite Hv. apply find_view_hit, view_covers_iff. simpl. lia. }
  split.
  - eexists. split; [unfold store; rewrite Hlow; cbn [v_handle v_base]; by rewrite Hsec|].
    unfold load. fields. rewrite Hlow, Hhigh. cbn [v_handle v_base].
    rewrite !lookup_insert_eq. cbn [sec_data].
    replace (base + o - base) with o by lia.
    replace (base + capacity + o - (base + capacity)) with o by lia.
    by rewrite lookup_insert_eq.
  - eexists. split; [unfold store; rewrite Hhigh; cbn [v_handle v_base]; by rewrite Hsec|].
    unfold load. fields. rewrite Hlow, Hhigh. cbn [v_handle v_base].
    rewrite !lookup_insert_eq. cbn [sec_data].
    replace (base + o - base) with o by lia.
    replace (base + capacity + o - (base + capacity)) with o by lia.
    by rewrite lookup_insert_eq.
Qed.

(** X19. On Windows the two halves are two views of one mapping object:
    after a construction that succeeded a byte written at [address + o] is
    read at [address + capacity + o], and the other way round. *)
Theorem windows_halves_mirror fuel capacity s address h s' o b :
  views_ok s → 0 ≤ capacity < 2 ^ 64 →
  create_memory_mapped_files fuel capacity s = (Ret (address, h), s') →
  0 ≤ o < capacity →
  (∃ s1, store s' (address + o) b = Some s1 ∧
         load s1 (address + o) = Some b ∧ load s1 (address + capacity + o) = Some b)
  ∧ (∃ s2, store s' (address + capacity + o) b = Some s2 ∧
           load s2 (address + capacity + o) = Some b ∧ load s2 (address + o) = Some b).
Proof.
  intros Hok Hc H Ho. apply windows_create_spec in H; [|done|done].
  destruct H as (_ & _ & _ & _ & Hs & _ & Hv).
  eapply shared_halves; [exact Hv | | done].
  rewrite Hs. apply lookup_insert_eq.
Qed.

(** X16. The size of the mapping object is passed as
    [static_cast<DWORD>(capacity * 2)] with a high part of 0: for a capacity
    from [2^31] on that is 0, [CreateFileMapping] refuses it, and the
    construction throws "Could not create file mapping" after that one
    call. *)
Theorem windows_create_refuses_from_2GiB fuel capacity s :
  Os.power_of_two capacity → 2 ^ 31 ≤ capacity < 2 ^ 64 →
  capacity mod (Z.max (w_page_size s) (w_granularity s) mod 2 ^ 32) = 0 →
  ∃ s', create_memory_mapped_files fuel capacity s = (Throw could_not_create, s') ∧
        w_sections s' = w_sections s ∧ w_views s' = w_views s ∧
        ∃ r, w_trace s' = w_trace s
               ++ [(CreateFileMapping INVALID_HANDLE_VALUE PAGE_READWRITE 0 0, r)].
Proof.
  intros Hp Hc Hm. unfold create_memory_mapped_files.
  destruct (capacity_fits_DWORD capacity Hp) as [Hfit _]; [lia|].
  assert (to_DWORD (Os.twice capacity) = 0) as ->.
  { assert (0 ≤ to_DWORD (Os.twice capacity)); [|lia].
    unfold to_DWORD. apply Z.mod_pos_bound. lia. }
  apply OsFacts.is_pow_of_two_spec in Hp. rewrite Hp. cbn [negb].
  unfold mbind at 1, M_bind at 1, get_page_size at 1. cbv beta iota.
  rewrite Hm. cbn [negb Z.eqb].
  unfold mbind, M_bind, create_file_mapping.
  destruct (hd Succeeds (w_script s)); simpl; eexists; split_and!; eauto.
Qed.

(** X20. A ring that was constructed and is then destroyed leaves the
    process as it was: the two views are unmapped (and no other), and the
    handle is closed. *)
Theorem windows_create_then_destroy fuel capacity s address h s1 :
  views_ok s → 0 ≤ capacity < 2 ^ 64 →
  create_memory_mapped_files fuel capacity s = (Ret (address, h), s1) →
  ∃ s2, destroy_memory_mapped_files (address, h) capacity s1 = (Ret tt, s2) ∧
        w_sections s2 = w_sections s ∧ w_views s2 = w_views s.
Proof.
  intros Hok Hc H. apply windows_create_spec in H; [|done|done].
  destruct H as (Ha & Hcap & Hh & Hfresh & Hs & Hfree & Hv).
  unfold destroy_memory_mapped_files. cbn [fst snd].
  destruct (Z.eqb_spec address NULL) as [E|_]; [unfold NULL in E; exfalso; lia|].
  destruct (unmap_view_of_file address s1) as [r2 s2] eqn:H2.
  pose proof (unmap_view_of_file_inv _ _ _ _ H2) as ([n2 ->] & Hs2 & _ & _ & Hv2 & _).
  destruct (unmap_view_of_file (address + capacity) s2) as [r3 s3] eqn:H3.
  pose proof (unmap_view_of_file_inv _ _ _ _ H3) as ([n3 ->] & Hs3 & _ & _ & Hv3 & _).
  destruct (close_handle h s3) as [r4 s4] eqn:H4.
  pose proof (close_handle_inv _ _ _ _ H4) as ([n4 ->] & Hs4 & Hv4 & _).
  exists s4. unfold mbind, M_bind. rewrite H2, H3, H4. split; [done|].
  split.
  - rewrite Hs4, Hs3, Hs2, Hs. by apply delete_insert_id.
  - rewrite Hv4, Hv3, Hv2, Hv.
    rewrite filter_cons, decide_True by (simpl; lia).
    rewrite (unmap_placed address capacity h (w_views s)); [|lia|done|].
    + apply unmap_placed; [lia | done |].
      apply (free_inside address (2 * capacity)); [lia | lia | done].
    + apply (free_inside address (2 * capacity)); [lia | lia | done].
Qed.

Lemma boot_views_ok script : views_ok (boot script).
Proof. constructor. Defined.

Lemma windows_create_throws_with_nothing_left_witness :
  let s := boot [Succeeds; Succeeds; Succeeds; Fails ERROR_NOT_ENOUGH_MEMORY] in
  let s' := (create_memory_mapped_files 4 65536 s).2 in
  w_sections s' = w_sections s ∧ w_views s' = w_views s.
Proof.
  apply (windows_create_throws_with_nothing_left 4 65536
           (boot [Succeeds; Succeeds; Succeeds; Fails ERROR_NOT_ENOUGH_MEMORY])
           could_not_create).
  - apply boot_views_ok.
  - lia.
  - vm_compute. reflexivity.
Defined.

Lemma windows_create_ends_when_left_alone_witness :
  (create_memory_mapped_files 4 65536
     (boot [Succeeds; Succeeds; Fails ERROR_INVALID_ADDRESS])).1 ≠ Spinning.
Proof.
  apply (windows_create_ends_when_left_alone 4 65536
           (boot [Succeeds; Succeeds; Fails ERROR_INVALID_ADDRESS])).
  - apply boot_views_ok.
  - lia.
  - simpl. lia.
Defined.

(** The address found does not stay free: the loop takes a second turn, and
    a third when the second half is taken as well; with no turn left it is
    still turning. *)
Example windows_create_retries :
  (create_memory_mapped_files 2 65536
     (boot [Succeeds; Succeeds; Fails ERROR_INVALID_ADDRESS])).1
  = Ret (8791798185984, 4)
  ∧ (create_memory_mapped_files 2 65536
       (boot [Succeeds; Succeeds; Fails ERROR_INVALID_ADDRESS;
              Succeeds; Succeeds; Fails ERROR_INVALID_ADDRESS])).1
    = Spinning
  ∧ (create_memory_mapped_files 3 65536
       (boot [Succeeds; Succeeds; Fails ERROR_INVALID_ADDRESS;
              Succeeds; Succeeds; Fails ERROR_INVALID_ADDRESS])).1
    = Ret (8791798317056, 4).
Proof. split_and!; vm_compute; reflexivity. Qed.

Lemma windows_halves_mirror_witness :
  let s' := (create_memory_mapped_files 1 65536 (boot [])).2 in
  (∃ s1, store s' (8791798054912 + 7) 171 = Some s1 ∧
         load s1 (8791798054912 + 7) = Some 171 ∧
         load s1 (8791798054912 + 65536 + 7) = Some 171)
  ∧ (∃ s2, store s' (8791798054912 + 65536 + 7) 171 = Some s2 ∧
           load s2 (8791798054912 + 65536 + 7) = Some 171 ∧
           load s2 (8791798054912 + 7) = Some 171).
Proof.
  apply (windows_halves_mirror 1 65536 (boot []) 8791798054912 4).
  - apply boot_views_ok.
  - lia.
  - vm_compute. reflexivity.
  - lia.
Defined.

Lemma windows_create_refuses_from_2GiB_witness :
  ∃ s', create_memory_mapped_files 1 (2 ^ 31) (boot [])
        = (Throw could_not_create, s') ∧
        w_sections s' = w_sections (boot []) ∧ w_views s' = w_views (boot []) ∧
        ∃ r, w_trace s' = w_trace (boot [])
               ++ [(CreateFileMapping INVALID_HANDLE_VALUE PAGE_READWRITE 0 0, r)].
Proof.
  apply (windows_create_refuses_from_2GiB 1 (2 ^ 31) (boot [])).
  - exists 31. split; [lia | reflexivity].
  - lia.
  - reflexivity.
Defined.

Lemma windows_create_then_destroy_witness :
  ∃ s2, destroy_memory_mapped_files (8791798054912, 4) 65536
          (create_memory_mapped_files 1 65536 (boot [])).2 = (Ret tt, s2) ∧
        w_sections s2 = w_sections (boot []) ∧ w_views s2 = w_views (boot []).
Proof.
  apply (windows_create_then_destroy 1 65536 (boot []) 8791798054912 4).
  - apply boot_views_ok.
  - lia.
  - vm_compute. reflexivity.
Defined.

(** X15. On Windows [get_page_size] is the larger of the page size and
    the allocation granularity: the capacities that pass the checks are the
    powers of two from there on (64 KiB where pages have 4 KiB), and what
    the construction throws for one of them is "Could not create file
    mapping". *)
Theorem windows_create_accepts_from_granularity fuel capacity s :
  let page_size := Z.max (w_page_size s) (w_granularity s) mod 2 ^ 32 in
  Os.power_of_two page_size → views_ok s → 0 ≤ capacity < 2 ^ 64 →
  (¬ Os.power_of_two capacity →
   create_memory_mapped_files fuel capacity s
   = (Throw (Os.runtime_error "capacity needs to be power of two"), s))
  ∧ (Os.power_of_two capacity → capacity < page_size →
     create_memory_mapped_files fuel capacity s
     = (Throw (Os.runtime_error "capacity needs to be multiple of page size"), s))
  ∧ (Os.power_of_two capacity → page_size ≤ capacity →
     ∀ e s', create_memory_mapped_files fuel capacity s = (Throw e, s') →
             e = could_not_create).
Proof.
  intros page_size (m & Hm & Hpage) Hok Hc. split_and!.
  - intros Hn. apply OsFacts.is_pow_of_two_false in Hn.
    unfold create_memory_mapped_files. rewrite Hn. reflexivity.
  - intros Hp Hlt. pose proof Hp as (k & Hk & ->).
    apply OsFacts.is_pow_of_two_spec in Hp.
    unfold create_memory_mapped_files. rewrite Hp. cbn [negb].
    unfold mbind at 1, M_bind at 1, get_page_size at 1. cbv beta iota.
    fold page_size. rewrite Hpage in *.
    rewrite Z.mod_small; cycle 1.
    { split; [apply Z.pow_nonneg; lia | done]. }
    assert (0 < 2 ^ k) by (apply Z.pow_pos_nonneg; lia).
    destruct (Z.eqb_spec (2 ^ k) 0); [lia | reflexivity].
  - intros Hp Hle e s' H. apply windows_create_spec in H; [|done|done].
    destruct H as (_ & _ & He). apply He; [by apply OsFacts.is_pow_of_two_spec|].
    fold page_size. rewrite Hpage in *. destruct Hp as (k & Hk & ->).
    assert (m ≤ k) by (apply (Z.pow_le_mono_r_iff 2); lia).
    replace k with ((k - m) + m) by lia. rewrite Z.pow_add_r by lia.
    apply Z.mod_mul. apply Z.pow_nonzero; lia.
Qed.

Lemma windows_create_accepts_from_granularity_witness :
  create_memory_mapped_files 1 4096 (boot [])
  = (Throw (Os.runtime_error "capacity needs to be multiple of page size"), boot [])
  ∧ ∀ e s', create_memory_mapped_files 1 65536 (boot [Fails ERROR_NOT_ENOUGH_MEMORY])
            = (Throw e, s') → e = could_not_create.
Proof.
  destruct (windows_create_accepts_from_granularity 1 4096 (boot []))
    as (_ & Hsmall & _);
    [exists 16; split; [lia | reflexivity] | apply boot_views_ok | lia |].
  destruct (windows_create_accepts_from_granularity 1 65536
              (boot [Fails ERROR_NOT_ENOUGH_MEMORY]))
    as (_ & _ & Hbig);
    [exists 16; split; [lia | reflexivity] | apply boot_views_ok | lia |].
  split.
  - apply Hsmall; [exists 12; split; [lia | reflexivity] | reflexivity].
  - apply Hbig; [exists 16; split; [lia | reflexivity] | discriminate].
Defined.

End OsWindowsFacts.
